(** * A shallow embedding of the beverage machine ([machine.py])

    The Python program keeps its ingredients in a dictionary from names to
    [Ingredient] objects and lets every [Beverage] refer to those very objects.
    [Machine.getIngredients] creates exactly one object per name, so an object
    reference is represented here by the key under which the store holds the
    object: a beverage does not copy a quantity, it names the store entry that
    holds it.

    Python dictionaries iterate in insertion order; they are modelled by
    association lists with the update-in-place assignment of [PyDict], except
    the ingredient store, which is only ever looked up by name and is a
    [gmap].  Quantities are integers ([Z]).

    Printing and lock operations are recorded as events, in the order the
    code performs them. *)

From stdpp Require Import gmap strings list fin_maps pretty sorting.

Local Open Scope Z_scope.

(** * Part I: the program *)

(** ** Insertion-ordered dictionaries *)

Module PyDict.
Section dict.
Context {K V : Type} `{EqDecision K}.

(** [d[k]], [None] standing for Python's [KeyError]. *)
Fixpoint get (d : list (K * V)) (k : K) : option V :=
  match d with
  | [] => None
  | (k', v) :: rest => if decide (k = k') then Some v else get rest k
  end.

(** [d[k] = v]: an existing key keeps its position, a new one is appended. *)
Fixpoint set (d : list (K * V)) (k : K) (v : V) : list (K * V) :=
  match d with
  | [] => [(k, v)]
  | (k', v') :: rest =>
      if decide (k = k') then (k', v) :: rest else (k', v') :: set rest k v
  end.

(** [list(d.keys())] *)
Definition keys (d : list (K * V)) : list K := d.*1.
End dict.
End PyDict.

(** ** The two exceptions of the module, and the missing-key failure *)

Inductive Error : Type :=
| InvalidNumOutletsError
| NoBeverageError
| KeyError (key : string).

(** The [message] attribute the two exception classes of the module set;
    a [KeyError] has none. *)
Definition Error_message (e : Error) : option string :=
  match e with
  | InvalidNumOutletsError =>
      Some "Error: Number of outlets should be greater than 0"
  | NoBeverageError =>
      Some "Error: There are no recipes for beverages in the machine"
  | KeyError _ => None
  end.

#[global] Instance Error_ret : MRet (sum Error) := λ A a, inr a.
#[global] Instance Error_bind : MBind (sum Error) := λ A B f x,
  match x with inl e => inl e | inr a => f a end.

(** [d[k]] where a missing key raises. *)
Definition getitem {V : Type} (d : list (string * V)) (k : string) : Error + V :=
  match PyDict.get d k with Some v => inr v | None => inl (KeyError k) end.

(** ** class Ingredient *)

Module Ingredient.
(** The object's lock is not a field here: locks are identified with the
    ingredient they belong to, and who holds them is part of the state of a
    concurrent run (see [Conc]). *)
Record t : Type := mk { name : string; available_quantity : Z }.

Definition init (name : string) (value : Z) : t := mk name value.
Definition getName (self : t) : string := name self.
Definition getAvailableQuantity (self : t) : Z := available_quantity self.
Definition setAvailableQuantity (self : t) (val : Z) : t := mk (name self) val.
End Ingredient.

(** ** class Beverage *)

Module Beverage.
Record t : Type := mk {
  name : string;
  (** keyed by the ingredient object, that is by its key in the store *)
  ingredients : list (string * Z);
  unavailable_ingredients : list string
}.

(** The loop of [__init__] over [recipe.keys()]. *)
Fixpoint init_loop (items : list string) (recipe : list (string * Z))
    (available_ingredients : gmap string Ingredient.t)
    (ingredients : list (string * Z)) (unavailable : list string)
    : Error + (list (string * Z) * list string) :=
  match items with
  | [] => inr (ingredients, unavailable)
  | item :: rest =>
      match available_ingredients !! item with
      | Some _ =>
          qty ← getitem recipe item;
          init_loop rest recipe available_ingredients
            (PyDict.set ingredients item qty) unavailable
      | None =>
          init_loop rest recipe available_ingredients
            ingredients (unavailable ++ [item])
      end
  end.

Definition init (name : string) (recipe : list (string * Z))
    (available_ingredients : gmap string Ingredient.t) : Error + t :=
  '(ingredients, unavailable) ←
    init_loop (PyDict.keys recipe) recipe available_ingredients [] [];
  mret (mk name ingredients unavailable).

Definition getName (self : t) : string := name self.
Definition getIngredients (self : t) : list (string * Z) := ingredients self.
Definition isAvailable (self : t) : bool :=
  bool_decide (length (unavailable_ingredients self) = 0%nat).
Definition getUnavailableIngredients (self : t) : list string :=
  unavailable_ingredients self.
Definition getRequiredIngredientQuantity (self : t) (ingredient : string)
    : option Z :=
  PyDict.get (ingredients self) ingredient.
End Beverage.

(** ** What the code does besides changing quantities *)

Inductive Event : Type :=
| Acquire (ingredient : string)   (* entering [with ingredient.getLock()] *)
| Release (ingredient : string)   (* leaving it, by any exit *)
| AcquirePrint                    (* entering [with self.print_lock] *)
| ReleasePrint
| Print (line : string).

Definition printed_line (e : Event) : option string :=
  match e with Print line => Some line | _ => None end.

(** The lines written to standard output, in order. *)
Definition printed (evs : list Event) : list string :=
  omap printed_line evs.

Definition is_Acquire (e : Event) : bool :=
  match e with Acquire _ => true | _ => false end.

(** ** The input document *)

(** The parsed JSON document [data]; a field that is absent is [None]. *)
Module Input.
Record Outlets : Type := { count_n : option Z }.

Record MachineSection : Type := {
  outlets : option Outlets;
  total_items_quantity : option (list (string * Z));
  beverages : option (list (string * list (string * Z)))
}.

Record Data : Type := { machine : option MachineSection }.
End Input.

(** [d[key]] on the input document. *)
Definition field {A : Type} (key : string) (o : option A) : Error + A :=
  match o with Some a => inr a | None => inl (KeyError key) end.

(** ** class Machine *)

Module Machine.
Record t : Type := mk {
  num_outlets : Z;
  ingredients : gmap string Ingredient.t;
  beverages : list (string * Beverage.t)
}.

Fixpoint getIngredients_loop (items : list string)
    (input_items : list (string * Z))
    (ingredients : gmap string Ingredient.t)
    : Error + gmap string Ingredient.t :=
  match items with
  | [] => inr ingredients
  | item :: rest =>
      value ← getitem input_items item;
      getIngredients_loop rest input_items
        (<[item := Ingredient.init item value]> ingredients)
  end.

Definition getIngredients (input_items : list (string * Z))
    : Error + gmap string Ingredient.t :=
  getIngredients_loop (PyDict.keys input_items) input_items ∅.

Fixpoint getBeverages_loop (items : list string)
    (beverage_items : list (string * list (string * Z)))
    (self_ingredients : gmap string Ingredient.t)
    (beverages : list (string * Beverage.t))
    : Error + list (string * Beverage.t) :=
  match items with
  | [] => inr beverages
  | item :: rest =>
      recipe ← getitem beverage_items item;
      beverage ← Beverage.init item recipe self_ingredients;
      getBeverages_loop rest beverage_items self_ingredients
        (PyDict.set beverages item beverage)
  end.

Definition getBeverages (self_ingredients : gmap string Ingredient.t)
    (beverage_items : list (string * list (string * Z)))
    : Error + list (string * Beverage.t) :=
  getBeverages_loop (PyDict.keys beverage_items) beverage_items
    self_ingredients [].

(** [Machine.__init__] *)
Definition init (data : Input.Data) : Error + t :=
  section ← field "machine" (Input.machine data);
  o ← field "outlets" (Input.outlets section);
  num_outlets ← field "count_n" (Input.count_n o);
  if bool_decide (num_outlets <= 0) then inl InvalidNumOutletsError
  else
    input_items ← field "total_items_quantity" (Input.total_items_quantity section);
    ingredients ← getIngredients input_items;
    beverage_items ← field "beverages" (Input.beverages section);
    beverages ← getBeverages ingredients beverage_items;
    if bool_decide (length (PyDict.keys beverages) = 0%nat)
    then inl NoBeverageError
    else inr (mk num_outlets ingredients beverages).

(** [getIngredientAvailability]: the value returned ([None] as in Python
    when the name is unknown) and what is printed. *)
Definition getIngredientAvailability (self : t) (ingredient_name : string)
    : option Z * list Event :=
  match ingredients self !! ingredient_name with
  | Some ingredient => (Some (Ingredient.getAvailableQuantity ingredient), [])
  | None => (None, [Print "Ingredient not available in the machine"])
  end.

(** The body of the [for] loop of [make_beverage] and the loop itself.
    The result carries the flag [made].  [None] stands for a reference to
    an object that is not in the store, which no machine built by [init]
    contains. *)
Fixpoint make_loop (beverage : Beverage.t) (keys : list string)
    (store : gmap string Ingredient.t)
    : option (gmap string Ingredient.t * list Event * bool) :=
  match keys with
  | [] => Some (store, [], true)
  | ingredient :: rest =>
      obj ← store !! ingredient;
      let available_qty := Ingredient.getAvailableQuantity obj in
      required_qty ← Beverage.getRequiredIngredientQuantity beverage ingredient;
      if bool_decide (available_qty >= required_qty) then
        let store1 :=
          <[ingredient :=
              Ingredient.setAvailableQuantity obj (available_qty - required_qty)]>
            store in
        '(store2, evs, made) ← make_loop beverage rest store1;
        Some (store2, Acquire ingredient :: Release ingredient :: evs, made)
      else
        Some (store,
              [Acquire ingredient; AcquirePrint;
               Print (Beverage.getName beverage +:+ " cannot be prepared as "
                      +:+ Ingredient.getName obj +:+ " is not sufficiennt");
               ReleasePrint; Release ingredient],
              false)
  end.

(** [make_beverage], with the outcome of [random.choice] given as the
    index [choice] into [list(self.beverages.items())]. *)
Definition make_beverage (self : t) (choice : nat) : option (t * list Event) :=
  '(name, beverage) ← beverages self !! choice;
  let required_ingredients := Beverage.getIngredients beverage in
  if negb (Beverage.isAvailable beverage) then
    Some (self,
          [AcquirePrint;
           Print (Beverage.getName beverage +:+ " cannot be prepared because "
                  +:+ String.concat ", " (Beverage.getUnavailableIngredients beverage)
                  +:+ " not available");
           ReleasePrint])
  else
    '(store, evs, made) ←
      make_loop beverage (PyDict.keys required_ingredients) (ingredients self);
    Some (mk (num_outlets self) store (beverages self),
          evs ++ (if made : bool
                  then [AcquirePrint;
                        Print (Beverage.getName beverage +:+ " has been prepared");
                        ReleasePrint]
                  else [])).

(** [refill] *)
Definition refill (self : t) (ingredient_name : string) (new_quantity : Z)
    : t * list Event :=
  match ingredients self !! ingredient_name with
  | None =>
      (self, [Print (ingredient_name +:+ " cannot be refilled as it is not available")])
  | Some obj =>
      (mk (num_outlets self)
          (<[ingredient_name := Ingredient.setAvailableQuantity obj new_quantity]>
             (ingredients self))
          (beverages self),
       [Print ("Updated " +:+ ingredient_name +:+ "'s available quantity to "
               +:+ pretty new_quantity)])
  end.
End Machine.

(** ** Sequences of operations on a machine *)

Inductive Op : Type :=
| OpMake (choice : nat)                       (* one call of [make_beverage] *)
| OpRefill (ingredient_name : string) (new_quantity : Z)
| OpQuery (ingredient_name : string).         (* [getIngredientAvailability] *)

Definition apply_op (m : Machine.t) (op : Op) : option (Machine.t * list Event) :=
  match op with
  | OpMake choice => Machine.make_beverage m choice
  | OpRefill n q => Some (Machine.refill m n q)
  | OpQuery n => Some (m, (Machine.getIngredientAvailability m n).2)
  end.

Fixpoint apply_ops (m : Machine.t) (ops : list Op) : option (Machine.t * list Event) :=
  match ops with
  | [] => Some (m, [])
  | op :: rest =>
      '(m1, evs1) ← apply_op m op;
      '(m2, evs2) ← apply_ops m1 rest;
      Some (m2, evs1 ++ evs2)
  end.

(** [run], executed without overlap: the [num_outlets] submitted calls one
    after the other, the [index]-th drawing [rnd index] from [random.choice].
    The interleaved executions are those of [Conc]. *)
Definition run_sequential (self : Machine.t) (rnd : nat → nat)
    : option (Machine.t * list Event) :=
  apply_ops self (OpMake <$> (rnd <$> seq 0 (Z.to_nat (Machine.num_outlets self)))).

(** The quantity currently held by the store entry [i]. *)
Definition quantity (m : Machine.t) (i : string) : option Z :=
  Ingredient.available_quantity <$> Machine.ingredients m !! i.

(** ** The lines of the report *)

(** The three lines an attempt can print. *)
Definition line_not_available (b : Beverage.t) : string :=
  Beverage.name b +:+ " cannot be prepared because "
  +:+ String.concat ", " (Beverage.unavailable_ingredients b) +:+ " not available".

Definition line_insufficient (b : Beverage.t) (ingredient_name : string) : string :=
  Beverage.name b +:+ " cannot be prepared as " +:+ ingredient_name
  +:+ " is not sufficiennt".

Definition line_prepared (b : Beverage.t) : string :=
  Beverage.name b +:+ " has been prepared".

(** ** Concurrent runs

    [run] submits [num_outlets] calls of [make_beverage] to a thread pool.
    An attempt is followed here statement by statement; a world holds the
    machine, who holds which lock, what has been done so far, and where every
    attempt stands.  A schedule names the attempt that moves next. *)

Module Conc.

(** Where an attempt stands inside a [with self.print_lock:] block. *)
Inductive print_stage : Type :=
| Waiting     (* about to enter the block *)
| Printing    (* inside, before [print] *)
| Printed.    (* inside, after [print] *)

(** Where an attempt stands in [make_beverage]. *)
Inductive pc : Type :=
| Start (choice : nat)
    (* before [random.choice], which will return entry [choice] *)
| NotAvailable (b : Beverage.t) (s : print_stage)
    (* [not beverage.isAvailable()]: the block that reports it *)
| Loop (b : Beverage.t) (rest : list string)
    (* at the head of the [for], [rest] still to visit, [made] true *)
| Locked (b : Beverage.t) (i : string) (rest : list string)
    (* inside [with ingredient.getLock()], before the quantity is read *)
| Checked (b : Beverage.t) (i : string) (available_qty : Z) (rest : list string)
    (* [available_qty] read, before the comparison and the update *)
| Written (b : Beverage.t) (i : string) (rest : list string)
    (* [setAvailableQuantity] done, about to leave the block *)
| Insufficient (b : Beverage.t) (i : string) (s : print_stage)
    (* the [else] branch: [made] false, the block that reports it *)
| Leaving (b : Beverage.t) (i : string)
    (* [break]: about to leave the block of ingredient [i] *)
| Made (b : Beverage.t) (s : print_stage)
    (* after the loop with [made] true: the block that reports it *)
| Done.

Record World : Type := mkWorld {
  machine : Machine.t;
  locks : gmap string nat;       (* the attempt inside each ingredient's lock *)
  print_lock : option nat;       (* the attempt inside [print_lock] *)
  log : list (nat * Event);      (* what was done, and by which attempt *)
  threads : list pc
}.

Definition set_store (m : Machine.t) (store : gmap string Ingredient.t) : Machine.t :=
  Machine.mk (Machine.num_outlets m) store (Machine.beverages m).

(** A [with self.print_lock: print(line)] block, one statement at a time.
    Entering blocks ([None]) while another attempt is inside. *)
Definition print_block (t : nat) (w : World) (s : print_stage) (line : string)
    : option (option print_stage * World) :=
  match s with
  | Waiting =>
      match print_lock w with
      | None =>
          Some (Some Printing,
                mkWorld (machine w) (locks w) (Some t)
                  (log w ++ [(t, AcquirePrint)]) (threads w))
      | Some _ => None
      end
  | Printing =>
      Some (Some Printed,
            mkWorld (machine w) (locks w) (print_lock w)
              (log w ++ [(t, Print line)]) (threads w))
  | Printed =>
      Some (None,
            mkWorld (machine w) (locks w) None
              (log w ++ [(t, ReleasePrint)]) (threads w))
  end.

(** Leaving the block of ingredient [i]. *)
Definition release (t : nat) (w : World) (i : string) : World :=
  mkWorld (machine w) (delete i (locks w)) (print_lock w)
    (log w ++ [(t, Release i)]) (threads w).

(** One statement of attempt [t] standing at [p].  [None]: the attempt
    cannot move now (it waits for a lock) or has returned. *)
Definition thread_step (t : nat) (p : pc) (w : World) : option (pc * World) :=
  match p with
  | Start choice =>
      '(name, beverage) ← Machine.beverages (machine w) !! choice;
      if negb (Beverage.isAvailable beverage)
      then Some (NotAvailable beverage Waiting, w)
      else Some (Loop beverage (PyDict.keys (Beverage.getIngredients beverage)), w)
  | NotAvailable b s =>
      '(s', w') ← print_block t w s (line_not_available b);
      Some (match s' with Some s' => NotAvailable b s' | None => Done end, w')
  | Loop b [] => Some (Made b Waiting, w)
  | Loop b (i :: rest) =>
      match locks w !! i with
      | None =>
          Some (Locked b i rest,
                mkWorld (machine w) (<[i := t]> (locks w)) (print_lock w)
                  (log w ++ [(t, Acquire i)]) (threads w))
      | Some _ => None
      end
  | Locked b i rest =>
      obj ← Machine.ingredients (machine w) !! i;
      Some (Checked b i (Ingredient.getAvailableQuantity obj) rest, w)
  | Checked b i available_qty rest =>
      required_qty ← Beverage.getRequiredIngredientQuantity b i;
      if bool_decide (available_qty >= required_qty) then
        obj ← Machine.ingredients (machine w) !! i;
        Some (Written b i rest,
              mkWorld
                (set_store (machine w)
                   (<[i := Ingredient.setAvailableQuantity obj
                             (available_qty - required_qty)]>
                      (Machine.ingredients (machine w))))
                (locks w) (print_lock w) (log w) (threads w))
      else Some (Insufficient b i Waiting, w)
  | Written b i rest => Some (Loop b rest, release t w i)
  | Insufficient b i s =>
      obj ← Machine.ingredients (machine w) !! i;
      '(s', w') ← print_block t w s (line_insufficient b (Ingredient.getName obj));
      Some (match s' with Some s' => Insufficient b i s' | None => Leaving b i end, w')
  | Leaving b i => Some (Done, release t w i)
  | Made b s =>
      '(s', w') ← print_block t w s (line_prepared b);
      Some (match s' with Some s' => Made b s' | None => Done end, w')
  | Done => None
  end.

(** Attempt [t] makes its next move. *)
Definition step (w : World) (t : nat) : option World :=
  p ← threads w !! t;
  '(p', w') ← thread_step t p w;
  Some (mkWorld (machine w') (locks w') (print_lock w') (log w')
          (<[t := p']> (threads w'))).

(** The world after a schedule; an attempt that is scheduled while it
    cannot move stays where it is. *)
Fixpoint exec (w : World) (schedule : list nat) : World :=
  match schedule with
  | [] => w
  | t :: rest => exec (default w (step w t)) rest
  end.

(** [run]: one attempt per outlet, the [index]-th drawing [rnd index]. *)
Definition init_world (m : Machine.t) (rnd : nat → nat) : World :=
  mkWorld m ∅ None []
    (Start <$> (rnd <$> seq 0 (Z.to_nat (Machine.num_outlets m)))).

(** [run] returns when every attempt has. *)
Definition finished (w : World) : Prop := Forall (λ p, p = Done) (threads w).

(** The ingredient whose lock an attempt is inside, by where it stands. *)
Definition holding (p : pc) : option string :=
  match p with
  | Locked _ i _ | Checked _ i _ _ | Written _ i _
  | Insufficient _ i _ | Leaving _ i => Some i
  | _ => None
  end.

Definition in_print_block (s : print_stage) : bool :=
  match s with Waiting => false | _ => true end.

(** Whether an attempt is inside [print_lock]. *)
Definition printing (p : pc) : bool :=
  match p with
  | NotAvailable _ s | Insufficient _ _ s | Made _ s => in_print_block s
  | _ => false
  end.

(** The lines printed so far. *)
Definition output (w : World) : list string := printed (log w).*2.

End Conc.

(** * Part II: the vocabulary of the statements *)

(** The names of [items] that the store does not hold. *)
Definition missing_from (store : gmap string Ingredient.t) (items : list string)
    : list string :=
  filter (λ i, ¬ is_Some (store !! i)) items.

(** Every beverage built by [getBeverages] is [Beverage.init] of the recipe
    found under its name. *)
Definition built_from (beverage_items : list (string * list (string * Z)))
    (store : gmap string Ingredient.t) (entry : string * Beverage.t) : Prop :=
  ∃ recipe, PyDict.get beverage_items entry.1 = Some recipe
          ∧ Beverage.init entry.1 recipe store = inr entry.2.

(** ** Well-formed machines *)

(** What every machine built by [Machine.init] satisfies and every operation
    keeps: an object carries the name it is stored under, a beverage carries
    the name it is stored under, refers to each ingredient once and only to
    objects of the store, and there is a beverage to choose. *)
Record wf (m : Machine.t) : Prop := {
  wf_name : ∀ i obj,
    Machine.ingredients m !! i = Some obj → Ingredient.name obj = i;
  wf_beverage_name : ∀ bn b,
    (bn, b) ∈ Machine.beverages m → Beverage.name b = bn;
  wf_nodup : ∀ bn b,
    (bn, b) ∈ Machine.beverages m → NoDup (PyDict.keys (Beverage.ingredients b));
  wf_refs : ∀ bn b i,
    (bn, b) ∈ Machine.beverages m → i ∈ PyDict.keys (Beverage.ingredients b) →
    is_Some (Machine.ingredients m !! i);
  wf_beverages : Machine.beverages m ≠ [];
  wf_outlets : 0 < Machine.num_outlets m
}.

(** The input from which a machine was built. *)
Record built (data : Input.Data) (m : Machine.t)
    (input_items : list (string * Z))
    (beverage_items : list (string * list (string * Z))) : Prop := {
  built_items : ∃ section,
    Input.machine data = Some section
    ∧ Input.total_items_quantity section = Some input_items
    ∧ Input.beverages section = Some beverage_items;
  built_store : ∀ i,
    Machine.ingredients m !! i = Ingredient.init i <$> PyDict.get input_items i;
  built_beverages :
    Forall (built_from beverage_items (Machine.ingredients m)) (Machine.beverages m)
}.

(** The events of an ingredient that was there in sufficient quantity. *)
Definition taken (i : string) : list Event := [Acquire i; Release i].

Definition decremented (obj : Ingredient.t) (q : Z) : Ingredient.t :=
  Ingredient.setAvailableQuantity obj (Ingredient.getAvailableQuantity obj - q).

(** [store] holds what [b] requires of [i]. *)
Definition sufficient (store : gmap string Ingredient.t) (b : Beverage.t)
    (i : string) : Prop :=
  ∃ obj q, store !! i = Some obj
         ∧ PyDict.get (Beverage.ingredients b) i = Some q
         ∧ q ≤ Ingredient.available_quantity obj.

Inductive outcome (b : Beverage.t) (line : string) : Prop :=
| outcome_not_available :
    Beverage.isAvailable b = false → line = line_not_available b → outcome b line
| outcome_insufficient i :
    i ∈ PyDict.keys (Beverage.ingredients b) → line = line_insufficient b i →
    outcome b line
| outcome_prepared : line = line_prepared b → outcome b line.

(** [m'] has the ingredients and beverages of [m], under the same names. *)
Record same_shape (m m' : Machine.t) : Prop := {
  shape_outlets : Machine.num_outlets m' = Machine.num_outlets m;
  shape_beverages : Machine.beverages m' = Machine.beverages m;
  shape_names : ∀ i,
    Ingredient.name <$> Machine.ingredients m' !! i
      = Ingredient.name <$> Machine.ingredients m !! i
}.

(** No quantity of [store'] is negative unless it already was in [store]. *)
Definition no_new_negative (store store' : gmap string Ingredient.t) : Prop :=
  ∀ i obj', store' !! i = Some obj' →
    store !! i = Some obj' ∨ 0 ≤ Ingredient.available_quantity obj'.

Definition valid_op (m : Machine.t) (op : Op) : Prop :=
  match op with
  | OpMake choice => (choice < length (Machine.beverages m))%nat
  | _ => True
  end.

Definition refills_nonnegative (op : Op) : Prop :=
  match op with OpRefill _ q => 0 ≤ q | _ => True end.

Definition nonnegative (m : Machine.t) : Prop :=
  ∀ i a, quantity m i = Some a → 0 ≤ a.

(** ** What holds in every world of a concurrent run *)

Module ConcInv.
Import Conc.

(** The objects and quantities [p] will ask for are there. *)
Definition known (m : Machine.t) (b : Beverage.t) (keys : list string) : Prop :=
  ∀ i, i ∈ keys →
    is_Some (Machine.ingredients m !! i)
    ∧ is_Some (PyDict.get (Beverage.ingredients b) i).

Definition pc_ok (m : Machine.t) (p : pc) : Prop :=
  match p with
  | Start choice => (choice < length (Machine.beverages m))%nat
  | Loop b rest => known m b rest
  | Locked b i rest | Checked b i _ rest | Written b i rest => known m b (i :: rest)
  | Insufficient b i _ | Leaving b i => known m b [i]
  | NotAvailable _ _ | Made _ _ | Done => True
  end.

(** The lock table says who is inside which block. *)
Definition locks_agree (locks : gmap string nat) (threads : list pc) : Prop :=
  ∀ i t, locks !! i = Some t ↔ ∃ p, threads !! t = Some p ∧ holding p = Some i.

Definition print_agree (print_lock : option nat) (threads : list pc) : Prop :=
  ∀ t, print_lock = Some t ↔ ∃ p, threads !! t = Some p ∧ printing p = true.

(** Whether an attempt has printed its line. *)
Definition has_printed (p : pc) : bool :=
  match p with
  | NotAvailable _ Printed | Insufficient _ _ Printed | Made _ Printed
  | Leaving _ _ | Done => true
  | _ => false
  end.

Definition printed_count (threads : list pc) : nat :=
  length (filter (λ p, has_printed p = true) threads).

(** The events [evs] as done by attempt [t]. *)
Definition by_attempt (t : nat) (evs : list Event) : list (nat * Event) :=
  pair t <$> evs.

(** The lines attempt [t] has printed so far. *)
Definition output_of (w : World) (t : nat) : list string :=
  printed (filter (λ te, te.1 = t) (log w)).*2.

Record inv (w : World) : Prop := {
  inv_wf : wf (machine w);
  inv_pc : ∀ t p, threads w !! t = Some p → pc_ok (machine w) p;
  inv_locks : locks_agree (locks w) (threads w);
  inv_print : print_agree (print_lock w) (threads w);
  inv_checked : ∀ t b i a rest,
    threads w !! t = Some (Checked b i a rest) → quantity (machine w) i = Some a;
  inv_output : length (output w) = printed_count (threads w);
  inv_output_of : ∀ t p,
    threads w !! t = Some p →
    length (output_of w t) = if has_printed p then 1%nat else 0%nat
}.

(** A bound on the statements an attempt still has to execute. *)
Definition stage_fuel (s : print_stage) : nat :=
  match s with Waiting => 3 | Printing => 2 | Printed => 1 end.

Definition fuel (beverages : list (string * Beverage.t)) (p : pc) : nat :=
  match p with
  | Start choice =>
      match beverages !! choice with
      | Some (_, b) => 4 * length (Beverage.ingredients b) + 5
      | None => 0
      end
  | NotAvailable _ s | Made _ s => stage_fuel s
  | Loop _ rest => 4 * length rest + 4
  | Locked _ _ rest => 4 * length rest + 7
  | Checked _ _ _ rest => 4 * length rest + 6
  | Written _ _ rest => 4 * length rest + 5
  | Insufficient _ _ s => 1 + stage_fuel s
  | Leaving _ _ => 1
  | Done => 0
  end%nat.

Definition total_fuel (w : World) : nat :=
  sum_list_with (fuel (Machine.beverages (machine w))) (threads w).

(** An attempt that is not waiting for a lock another attempt is inside,
    and has not returned. *)
Definition ready (w : World) (p : pc) : Prop :=
  match p with
  | Done => False
  | Loop _ (i :: _) => locks w !! i = None
  | NotAvailable _ Waiting | Insufficient _ _ Waiting | Made _ Waiting =>
      print_lock w = None
  | _ => True
  end.

End ConcInv.

(** ** Quantities required and spent *)

(** No beverage of [m] requires a negative quantity. *)
Definition recipes_nonnegative (m : Machine.t) : Prop :=
  ∀ bn b i q,
    (bn, b) ∈ Machine.beverages m → (i, q) ∈ Beverage.ingredients b → 0 ≤ q.

(** What [b] requires of [i]: nothing when it does not use it. *)
Definition required (b : Beverage.t) (i : string) : Z :=
  default 0 (Beverage.getRequiredIngredientQuantity b i).

(** What the attempts reported as prepared have required of [i], an attempt
    being given by the beverage chosen and the line printed. *)
Definition used (outs : list (Beverage.t * string)) (i : string) : Z :=
  foldr (λ out acc,
           (if decide (out.2 = line_prepared out.1) then required out.1 i else 0)
           + acc) 0 outs.

(** ** The beverages and lines of a concurrent run *)

Module ConcCat.
Import Conc ConcInv.

(** [b] is a beverage of the catalogue [beverages]. *)
Definition in_catalogue (beverages : list (string * Beverage.t)) (b : Beverage.t)
    : Prop :=
  ∃ bn, (bn, b) ∈ beverages.

(** [keys] are ingredients [b] names. *)
Definition named_by (b : Beverage.t) (keys : list string) : Prop :=
  ∀ i, i ∈ keys → i ∈ PyDict.keys (Beverage.ingredients b).

(** The beverage an attempt works on is one of the catalogue, and the
    ingredients it is at or has still to visit are named by it. *)
Definition pc_cat (beverages : list (string * Beverage.t)) (p : pc) : Prop :=
  match p with
  | Start _ | Done => True
  | NotAvailable b _ => in_catalogue beverages b ∧ Beverage.isAvailable b = false
  | Made b _ => in_catalogue beverages b
  | Loop b rest => in_catalogue beverages b ∧ named_by b rest
  | Locked b i rest | Checked b i _ rest | Written b i rest =>
      in_catalogue beverages b ∧ named_by b (i :: rest)
  | Insufficient b i _ | Leaving b i =>
      in_catalogue beverages b ∧ named_by b [i]
  end.

(** [line] is one of the three lines of a beverage of the catalogue. *)
Definition line_of (beverages : list (string * Beverage.t)) (line : string)
    : Prop :=
  ∃ b, in_catalogue beverages b ∧ outcome b line.

Record inv_cat (w : World) : Prop := {
  cat_inv : inv w;
  cat_pc : ∀ t p,
    threads w !! t = Some p → pc_cat (Machine.beverages (machine w)) p;
  cat_lines : Forall (line_of (Machine.beverages (machine w))) (output w)
}.
End ConcCat.

(** ** What a concurrent run has taken *)

Module ConcPaid.
Import Conc ConcInv ConcCat.

(** The beverage attempt [t] of a run works on. *)
Definition beverage_of (m : Machine.t) (rnd : nat → nat) (t : nat)
    : option Beverage.t :=
  snd <$> Machine.beverages m !! rnd t.

(** The lines of a log, each with the beverage of the attempt that printed
    it. *)
Definition outs (m : Machine.t) (rnd : nat → nat) (log : list (nat * Event))
    : list (Beverage.t * string) :=
  omap (λ te, match te.2 with
              | Print line => b ← beverage_of m rnd te.1; Some (b, line)
              | _ => None
              end) log.

(** What an attempt standing at [p] has taken of [j] and not yet reported. *)
Definition spent (p : pc) (j : string) : Z :=
  match p with
  | Loop b rest | Written b _ rest =>
      if decide (j ∈ rest) then 0 else required b j
  | Locked b i rest | Checked b i _ rest =>
      if decide (j ∈ i :: rest) then 0 else required b j
  | Made b Waiting | Made b Printing => required b j
  | _ => 0
  end.

Definition spent_all (threads : list pc) (j : string) : Z :=
  foldr (λ p acc, spent p j + acc) 0 threads.

(** Attempt [t] works on the beverage it drew, and visits no ingredient
    twice. *)
Definition pc_paid (m : Machine.t) (rnd : nat → nat) (t : nat) (p : pc) : Prop :=
  match p with
  | Start choice => choice = rnd t
  | Done => True
  | NotAvailable b _ | Insufficient b _ _ | Leaving b _ | Made b _ =>
      beverage_of m rnd t = Some b
  | Loop b rest => beverage_of m rnd t = Some b ∧ NoDup rest
  | Locked b i rest | Checked b i _ rest | Written b i rest =>
      beverage_of m rnd t = Some b ∧ NoDup (i :: rest)
  end.

(** The world [w] of a run of [m]: what is left of an ingredient is at most
    what there was, less what the attempts have taken for the beverages they
    reported or are about to report as prepared. *)
Record inv_paid (m : Machine.t) (rnd : nat → nat) (w : World) : Prop := {
  paid_cat : inv_cat w;
  paid_beverages : Machine.beverages (machine w) = Machine.beverages m;
  paid_pc : ∀ t p, threads w !! t = Some p → pc_paid m rnd t p;
  paid_output : (outs m rnd (log w)).*2 = output w;
  paid_quantity : ∀ j a0,
    quantity m j = Some a0 →
    ∃ a, quantity (machine w) j = Some a
       ∧ a ≤ a0 - used (outs m rnd (log w)) j - spent_all (threads w) j
}.
End ConcPaid.

(** ** Runs of a machine whose beverages are all unavailable *)

Module ConcUnavailable.
Import Conc.

(** An attempt that has not gone past the report of an unavailable
    beverage. *)
Definition pc_unavailable (beverages : list (string * Beverage.t)) (p : pc)
    : Prop :=
  match p with
  | Start _ | Done => True
  | NotAvailable b _ => ∃ bn, (bn, b) ∈ beverages
  | _ => False
  end.

(** [line] reports a beverage of [beverages] as unavailable. *)
Definition reports_unavailable (beverages : list (string * Beverage.t))
    (line : string) : Prop :=
  ∃ bn b, (bn, b) ∈ beverages ∧ line = line_not_available b.

Record inv_unavailable (m : Machine.t) (w : World) : Prop := {
  unavailable_machine : machine w = m;
  unavailable_locks : locks w = ∅;
  unavailable_pc : ∀ t p,
    threads w !! t = Some p → pc_unavailable (Machine.beverages m) p;
  unavailable_output :
    Forall (reports_unavailable (Machine.beverages m)) (output w)
}.
End ConcUnavailable.

(** ** What one attempt does in a concurrent run *)

Module ConcHist.
Import Conc ConcInv.

(** The world after the first [k] moves of a schedule. *)
Definition world_at (w0 : World) (schedule : list nat) (k : nat) : World :=
  exec w0 (take k schedule).

(** From [m] to [m'] the quantity of [i] went down by exactly [q], which
    was there, and nothing else changed. *)
Definition decrements (m m' : Machine.t) (i : string) (q : Z) : Prop :=
  ∃ obj,
    Machine.ingredients m !! i = Some obj
    ∧ q ≤ Ingredient.available_quantity obj
    ∧ m' = set_store m
             (<[i := Ingredient.setAvailableQuantity obj
                       (Ingredient.available_quantity obj - q)]>
                (Machine.ingredients m)).

(** Move [k] of the schedule is a move of attempt [t], and it takes of [i]
    what [b] requires. *)
Definition takes_at (w0 : World) (schedule : list nat) (t : nat)
    (b : Beverage.t) (k : nat) (i : string) : Prop :=
  schedule !! k = Some t
  ∧ decrements (machine (world_at w0 schedule k))
      (machine (world_at w0 schedule (S k))) i (required b i).

(** What attempt [t] has done to the machine in a run: it has taken the
    ingredients [done_keys], in this order, at the moves [ks], and no other
    of its moves has changed the machine. *)
Record taken_by (w0 : World) (schedule : list nat) (t : nat) (b : Beverage.t)
    (done_keys : list string) (ks : list nat) : Prop := {
  taken_moves : Forall2 (takes_at w0 schedule t b) ks done_keys;
  taken_order : StronglySorted lt ks;
  taken_frame : ∀ k,
    schedule !! k = Some t → k ∉ ks →
    machine (world_at w0 schedule (S k)) = machine (world_at w0 schedule k)
}.

(** The comparison an attempt standing at [p] is about to make succeeds. *)
Definition check_passes (p : pc) : bool :=
  match p with
  | Checked b i available_qty _ => bool_decide (required b i ≤ available_qty)
  | _ => true
  end.

(** Whenever attempt [t] has read a quantity in the run, it was at least the
    required one. *)
Definition checks_pass (w0 : World) (schedule : list nat) (t : nat) : Prop :=
  ∀ k, from_option check_passes true (threads (world_at w0 schedule k) !! t) = true.

(** Attempt [t] has read, of [i], less than [b] requires. *)
Definition failed_check (w0 : World) (schedule : list nat) (t : nat)
    (b : Beverage.t) (i : string) : Prop :=
  ∃ k available_qty rest,
    threads (world_at w0 schedule k) !! t = Some (Checked b i available_qty rest)
    ∧ available_qty < required b i.

(** Attempt [t] on [b] has stopped at [i], which was insufficient. *)
Definition aborted_at (w : World) (t : nat) (b : Beverage.t) (i : string) : Prop :=
  match threads w !! t with
  | Some (Insufficient b' i' _) | Some (Leaving b' i') => b' = b ∧ i' = i
  | Some Done => output_of w t = [line_insufficient b i]
  | _ => False
  end.

(** The line of a [with self.print_lock: print(line)] block, once printed. *)
Definition stage_output (s : print_stage) (line : string) : list string :=
  match s with Printed => [line] | _ => [] end.

(** Where attempt [t], which drew [choice] and so works on [b], stands: the
    ingredients it has taken, the lines it has printed, and the ingredient
    it has found insufficient, if any. *)
Definition attempt_state (choice : nat) (b : Beverage.t)
    (done_keys : list string) (out : list string) (failed : string → Prop)
    (p : pc) : Prop :=
  let keys := PyDict.keys (Beverage.ingredients b) in
  match p with
  | Start c => c = choice ∧ done_keys = [] ∧ out = []
  | NotAvailable b' s =>
      b' = b ∧ Beverage.isAvailable b = false ∧ done_keys = []
      ∧ out = stage_output s (line_not_available b)
  | Loop b' rest =>
      b' = b ∧ Beverage.isAvailable b = true ∧ keys = done_keys ++ rest
      ∧ out = []
  | Locked b' i rest | Checked b' i _ rest =>
      b' = b ∧ Beverage.isAvailable b = true ∧ keys = done_keys ++ i :: rest
      ∧ out = []
  | Written b' i rest =>
      b' = b ∧ Beverage.isAvailable b = true ∧ keys = done_keys ++ rest
      ∧ (∃ pre, done_keys = pre ++ [i]) ∧ out = []
  | Insufficient b' i s =>
      b' = b ∧ (∃ post, keys = done_keys ++ i :: post) ∧ failed i
      ∧ out = stage_output s (line_insufficient b i)
  | Leaving b' i =>
      b' = b ∧ (∃ post, keys = done_keys ++ i :: post) ∧ failed i
      ∧ out = [line_insufficient b i]
  | Made b' s =>
      b' = b ∧ Beverage.isAvailable b = true ∧ done_keys = keys
      ∧ out = stage_output s (line_prepared b)
  | Done =>
      (Beverage.isAvailable b = false ∧ done_keys = []
       ∧ out = [line_not_available b])
      ∨ (Beverage.isAvailable b = true ∧ done_keys = keys
         ∧ out = [line_prepared b])
      ∨ (∃ i post, keys = done_keys ++ i :: post ∧ failed i
                   ∧ out = [line_insufficient b i])
  end.

(** Attempt [t] on [b] has read less than required, or has stopped for
    it. *)
Definition doomed (w : World) (t : nat) (b : Beverage.t) : Prop :=
  match threads w !! t with
  | Some (Checked b' i available_qty _) => available_qty < required b' i
  | Some (Insufficient _ _ _) | Some (Leaving _ _) => True
  | Some Done => ∃ i, output_of w t = [line_insufficient b i]
  | _ => False
  end.
End ConcHist.

(** ** Example inputs *)

(** Two outlets, enough for one tea. *)
Definition tea_section : Input.MachineSection :=
  {| Input.outlets := Some {| Input.count_n := Some 2 |};
     Input.total_items_quantity :=
       Some [("hot_water", 100); ("hot_milk", 50)];
     Input.beverages :=
       Some [("tea", [("hot_water", 50); ("hot_milk", 50)])] |}.

Definition tea_data : Input.Data :=
  {| Input.machine := Some tea_section |}.

Definition tea : Beverage.t :=
  Beverage.mk "tea" [("hot_water", 50); ("hot_milk", 50)] [].

Definition tea_machine : Machine.t :=
  Machine.mk 2
    {[ "hot_water" := Ingredient.mk "hot_water" 100;
       "hot_milk" := Ingredient.mk "hot_milk" 50 ]}
    [("tea", tea)].

(** The same machine with too little milk for a tea. *)
Definition low_milk_section : Input.MachineSection :=
  {| Input.outlets := Some {| Input.count_n := Some 1 |};
     Input.total_items_quantity :=
       Some [("hot_water", 100); ("hot_milk", 10)];
     Input.beverages :=
       Some [("tea", [("hot_water", 50); ("hot_milk", 50)])] |}.

Definition low_milk_data : Input.Data :=
  {| Input.machine := Some low_milk_section |}.

Definition low_milk_machine : Machine.t :=
  Machine.mk 1
    {[ "hot_water" := Ingredient.mk "hot_water" 100;
       "hot_milk" := Ingredient.mk "hot_milk" 10 ]}
    [("tea", tea)].

(** A recipe that names two ingredients the machine does not have. *)
Definition green_tea_section : Input.MachineSection :=
  {| Input.outlets := Some {| Input.count_n := Some 3 |};
     Input.total_items_quantity := Some [("hot_water", 500)];
     Input.beverages :=
       Some [("green_tea",
              [("ginger_syrup", 30); ("hot_water", 100);
               ("green_mixture", 30)])] |}.

Definition green_tea_data : Input.Data :=
  {| Input.machine := Some green_tea_section |}.

Definition green_tea : Beverage.t :=
  Beverage.mk "green_tea" [("hot_water", 100)] ["ginger_syrup"; "green_mixture"].

Definition green_tea_machine : Machine.t :=
  Machine.mk 3 {[ "hot_water" := Ingredient.mk "hot_water" 500 ]}
    [("green_tea", green_tea)].

(** No outlet and no beverage. *)
Definition no_outlet_no_beverage_section : Input.MachineSection :=
  {| Input.outlets := Some {| Input.count_n := Some 0 |};
     Input.total_items_quantity := Some [("hot_water", 100)];
     Input.beverages := Some [] |}.

Definition no_outlet_no_beverage_data : Input.Data :=
  {| Input.machine := Some no_outlet_no_beverage_section |}.

(** One outlet and no beverage. *)
Definition no_beverage_section : Input.MachineSection :=
  {| Input.outlets := Some {| Input.count_n := Some 1 |};
     Input.total_items_quantity := Some [("hot_water", 100)];
     Input.beverages := Some [] |}.

Definition no_beverage_data : Input.Data :=
  {| Input.machine := Some no_beverage_section |}.

(** No ingredient at all. *)
Definition no_ingredient_section : Input.MachineSection :=
  {| Input.outlets := Some {| Input.count_n := Some 2 |};
     Input.total_items_quantity := Some [];
     Input.beverages :=
       Some [("hot_tea", [("hot_water", 200); ("tea_leaves_syrup", 30)])] |}.

Definition no_ingredient_data : Input.Data :=
  {| Input.machine := Some no_ingredient_section |}.

Definition hot_tea : Beverage.t :=
  Beverage.mk "hot_tea" [] ["hot_water"; "tea_leaves_syrup"].

Definition no_ingredient_machine : Machine.t :=
  Machine.mk 2 ∅ [("hot_tea", hot_tea)].

(** Two beverages that share no ingredient. *)
Definition two_beverage_section : Input.MachineSection :=
  {| Input.outlets := Some {| Input.count_n := Some 2 |};
     Input.total_items_quantity :=
       Some [("hot_water", 100); ("hot_milk", 20); ("sugar_syrup", 10)];
     Input.beverages :=
       Some [("black_tea", [("hot_water", 60)]);
             ("sweet_milk", [("hot_milk", 30); ("sugar_syrup", 5)])] |}.

Definition two_beverage_data : Input.Data :=
  {| Input.machine := Some two_beverage_section |}.

Definition black_tea : Beverage.t :=
  Beverage.mk "black_tea" [("hot_water", 60)] [].

Definition sweet_milk : Beverage.t :=
  Beverage.mk "sweet_milk" [("hot_milk", 30); ("sugar_syrup", 5)] [].

Definition two_beverage_machine : Machine.t :=
  Machine.mk 2
    {[ "hot_water" := Ingredient.mk "hot_water" 100;
       "hot_milk" := Ingredient.mk "hot_milk" 20;
       "sugar_syrup" := Ingredient.mk "sugar_syrup" 10 ]}
    [("black_tea", black_tea); ("sweet_milk", sweet_milk)].

(** Two attempts on the tea machine, interleaved: the first takes the water
    and the milk, the second the water that is left. *)
Definition tea_schedule : list nat :=
  [0; 1; 0; 1; 0; 0; 1; 0; 0; 0; 1; 0; 0; 0; 0; 0; 0; 1; 1; 1; 1; 1; 1; 1; 1;
   1; 1; 1]%nat.

(** * Part III: proofs *)

(** ** Facts about dictionaries *)

Section PyDict_facts.
Context {K V : Type} `{EqDecision K}.
Implicit Types (d : list (K * V)) (k : K) (v : V).

Lemma get_set_eq d k v : PyDict.get (PyDict.set d k v) k = Some v.
Proof.
  induction d as [|[k' v'] d IH]; simpl.
  - by rewrite decide_True.
  - destruct (decide (k = k')) as [->|Hne]; simpl.
    + by rewrite decide_True.
    + by rewrite decide_False.
Qed.

Lemma get_set_ne d k k' v :
  k ≠ k' → PyDict.get (PyDict.set d k v) k' = PyDict.get d k'.
Proof.
  intros Hne. induction d as [|[k1 v1] d IH]; simpl.
  - by rewrite decide_False.
  - destruct (decide (k = k1)) as [->|Hne1]; simpl.
    + by rewrite !decide_False.
    + by rewrite IH.
Qed.

Lemma get_is_Some d k : is_Some (PyDict.get d k) ↔ k ∈ PyDict.keys d.
Proof.
  unfold PyDict.keys. induction d as [|[k' v'] d IH]; simpl.
  - split; [by intros [? ?] | by intros ?%elem_of_nil].
  - rewrite elem_of_cons. destruct (decide (k = k')) as [->|Hne].
    + split; eauto.
    + rewrite IH. split; [by right | by intros [?|?]].
Qed.

Lemma get_None d k : PyDict.get d k = None ↔ k ∉ PyDict.keys d.
Proof. rewrite <-get_is_Some, eq_None_not_Some. done. Qed.

Lemma get_elem_of d k v : PyDict.get d k = Some v → (k, v) ∈ d.
Proof.
  induction d as [|[k' v'] d IH]; simpl; [done|].
  destruct (decide (k = k')) as [->|Hne].
  - intros [= ->]. left.
  - intros. right. auto.
Qed.

Lemma elem_of_get d k v :
  NoDup (PyDict.keys d) → (k, v) ∈ d → PyDict.get d k = Some v.
Proof.
  unfold PyDict.keys. induction d as [|[k' v'] d IH]; simpl.
  - by intros _ ?%elem_of_nil.
  - intros [Hnotin Hnd]%NoDup_cons [Heq|Hin]%elem_of_cons.
    + injection Heq as -> ->. by rewrite decide_True.
    + destruct (decide (k = k')) as [->|Hne]; [|by auto].
      exfalso. apply Hnotin. apply list_elem_of_fmap. by exists (k', v).
Qed.

Lemma keys_set d k v :
  PyDict.keys (PyDict.set d k v) =
    if decide (k ∈ PyDict.keys d) then PyDict.keys d else PyDict.keys d ++ [k].
Proof.
  unfold PyDict.keys. induction d as [|[k' v'] d IH].
  - case_decide as Hin; [by apply elem_of_nil in Hin | done].
  - cbn [PyDict.set]. destruct (decide (k = k')) as [->|Hne].
    + clear IH. rewrite !fmap_cons. cbn [fst].
      rewrite decide_True; [done | left].
    + rewrite !fmap_cons, IH. cbn [fst].
      destruct (decide (k ∈ d.*1)) as [Hin|Hnin].
      * rewrite decide_True; [done | by right].
      * rewrite decide_False; [done|]. by intros [?|?]%elem_of_cons.
Qed.

Lemma elem_of_keys_set d k k' v :
  k' ∈ PyDict.keys (PyDict.set d k v) ↔ k' = k ∨ k' ∈ PyDict.keys d.
Proof.
  rewrite keys_set. case_decide.
  - split; [by right | by intros [->|?]].
  - rewrite elem_of_app, list_elem_of_singleton. tauto.
Qed.

Lemma NoDup_keys_set d k v :
  NoDup (PyDict.keys d) → NoDup (PyDict.keys (PyDict.set d k v)).
Proof.
  intros Hnd. rewrite keys_set. case_decide; [done|].
  apply NoDup_app. split_and!; [done| |apply NoDup_singleton].
  intros x Hx ->%list_elem_of_singleton. done.
Qed.

Lemma set_nonempty d k v : PyDict.set d k v ≠ [].
Proof. destruct d as [|[k' v'] d]; simpl; [done|]. by case_decide. Qed.
End PyDict_facts.

Lemma elem_of_set {K V : Type} `{EqDecision K} (d : list (K * V)) k v x :
  x ∈ PyDict.set d k v → x = (k, v) ∨ x ∈ d.
Proof.
  induction d as [|[k' v'] d IH]; cbn [PyDict.set].
  - intros ->%list_elem_of_singleton. by left.
  - destruct (decide (k = k')) as [->|Hne].
    + intros [->|Hin]%elem_of_cons; [by left | right; by right].
    + intros [->|Hin]%elem_of_cons; [right; left|].
      destruct (IH Hin) as [->|?]; [by left | right; by right].
Qed.

Lemma getitem_keys {V : Type} (d : list (string * V)) (k : string) :
  k ∈ PyDict.keys d → ∃ v, getitem d k = inr v ∧ PyDict.get d k = Some v.
Proof.
  intros [v Hv]%get_is_Some. exists v. unfold getitem. by rewrite Hv.
Qed.

(** ** Construction *)

Section construction.
Implicit Types (store : gmap string Ingredient.t).

(** What the loop of [Beverage.__init__] computes. *)
Lemma Beverage_init_loop_spec recipe store items ings un :
  (∀ i, i ∈ items → i ∈ PyDict.keys recipe) →
  ∃ ings',
    Beverage.init_loop items recipe store ings un
      = inr (ings', un ++ missing_from store items)
    ∧ (NoDup (PyDict.keys ings) → NoDup (PyDict.keys ings'))
    ∧ (∀ i, i ∈ PyDict.keys ings' ↔
             i ∈ PyDict.keys ings ∨ (i ∈ items ∧ is_Some (store !! i))).
Proof.
  revert ings un. induction items as [|item rest IH]; intros ings un Hitems.
  - exists ings. cbn. rewrite app_nil_r. split_and!; [done..|].
    intros i. split; [by left|]. by intros [?|[?%elem_of_nil _]].
  - cbn [Beverage.init_loop]. unfold missing_from. rewrite filter_cons.
    fold (missing_from store rest).
    destruct (store !! item) as [obj|] eqn:Hobj.
    + destruct (getitem_keys recipe item) as (qty & -> & _).
      { apply Hitems. left. }
      cbn [mbind Error_bind].
      destruct (IH (PyDict.set ings item qty) un) as (ings' & -> & Hnd & Hkeys).
      { intros i Hi. apply Hitems. by right. }
      exists ings'. rewrite decide_False by (intros Hn; apply Hn; eauto).
      split_and!; [done| |].
      * intros ?. by apply Hnd, NoDup_keys_set.
      * intros i. rewrite Hkeys, elem_of_keys_set, elem_of_cons.
        split.
        -- intros [[->|?]|[? ?]]; eauto.
        -- intros [?|[[->|?] ?]]; eauto.
    + destruct (IH ings (un ++ [item])) as (ings' & -> & Hnd & Hkeys).
      { intros i Hi. apply Hitems. by right. }
      exists ings'. rewrite decide_True by (by intros [? ?]).
      rewrite <-app_assoc. split_and!; [done..|].
      intros i. rewrite Hkeys, elem_of_cons. split.
      * intros [?|[? ?]]; eauto.
      * intros [?|[[->|?] Hs]]; eauto. destruct Hs as [? ?]. congruence.
Qed.

Lemma Beverage_init_spec name recipe store :
  ∃ b, Beverage.init name recipe store = inr b
    ∧ Beverage.name b = name
    ∧ Beverage.unavailable_ingredients b
        = missing_from store (PyDict.keys recipe)
    ∧ NoDup (PyDict.keys (Beverage.ingredients b))
    ∧ (∀ i, i ∈ PyDict.keys (Beverage.ingredients b) ↔
             i ∈ PyDict.keys recipe ∧ is_Some (store !! i)).
Proof.
  unfold Beverage.init.
  destruct (Beverage_init_loop_spec recipe store (PyDict.keys recipe) [] [])
    as (ings & -> & Hnd & Hkeys); [done|].
  eexists. split; [reflexivity|]. cbn. split_and!; [done..| |].
  - apply Hnd. constructor.
  - intros i. rewrite Hkeys. split; [|by right].
    by intros [?%elem_of_nil|?].
Qed.

(** What the loop of [getIngredients] computes. *)
Lemma getIngredients_loop_spec input_items items store :
  (∀ i, i ∈ items → i ∈ PyDict.keys input_items) →
  ∃ store',
    Machine.getIngredients_loop items input_items store = inr store'
    ∧ ∀ i, store' !! i =
        if decide (i ∈ items)
        then Ingredient.init i <$> PyDict.get input_items i
        else store !! i.
Proof.
  revert store. induction items as [|item rest IH]; intros store Hitems.
  - exists store. split; [done|]. intros i.
    rewrite decide_False; [done | by intros ?%elem_of_nil].
  - cbn [Machine.getIngredients_loop].
    destruct (getitem_keys input_items item) as (v & -> & Hv).
    { apply Hitems. left. }
    cbn [mbind Error_bind].
    destruct (IH (<[item := Ingredient.init item v]> store)) as (store' & -> & Hl).
    { intros i Hi. apply Hitems. by right. }
    exists store'. split; [done|]. intros i. rewrite Hl.
    destruct (decide (i ∈ rest)) as [Hin|Hnin].
    + rewrite decide_True; [done | by right].
    + destruct (decide (i = item)) as [->|Hne].
      * rewrite decide_True by left. by rewrite lookup_insert_eq, Hv.
      * rewrite decide_False by (by intros [?|?]%elem_of_cons).
        by rewrite lookup_insert_ne.
Qed.

Lemma getIngredients_spec input_items :
  ∃ store,
    Machine.getIngredients input_items = inr store
    ∧ ∀ i, store !! i = Ingredient.init i <$> PyDict.get input_items i.
Proof.
  unfold Machine.getIngredients.
  destruct (getIngredients_loop_spec input_items (PyDict.keys input_items) ∅)
    as (store & -> & Hl); [done|].
  exists store. split; [done|]. intros i. rewrite Hl. case_decide as Hin; [done|].
  apply get_None in Hin. by rewrite Hin, lookup_empty.
Qed.

Lemma getBeverages_loop_spec beverage_items store items bevs :
  (∀ i, i ∈ items → i ∈ PyDict.keys beverage_items) →
  Forall (built_from beverage_items store) bevs →
  ∃ bevs',
    Machine.getBeverages_loop items beverage_items store bevs = inr bevs'
    ∧ Forall (built_from beverage_items store) bevs'
    ∧ (items ≠ [] ∨ bevs ≠ [] → bevs' ≠ []).
Proof.
  revert bevs. induction items as [|item rest IH]; intros bevs Hitems Hb.
  - exists bevs. split_and!; [done..|]. by intros [?|?].
  - cbn [Machine.getBeverages_loop].
    destruct (getitem_keys beverage_items item) as (recipe & -> & Hrecipe).
    { apply Hitems. left. }
    cbn [mbind Error_bind].
    destruct (Beverage_init_spec item recipe store) as (b & Hinit & _).
    rewrite Hinit. cbn [mbind Error_bind].
    destruct (IH (PyDict.set bevs item b)) as (bevs' & -> & Hall & Hne).
    { intros i Hi. apply Hitems. by right. }
    { apply Forall_forall. intros x [->|Hx]%elem_of_set.
      - by exists recipe.
      - by eapply Forall_forall in Hb. }
    exists bevs'. split_and!; [done..|]. intros _. apply Hne. right.
    apply set_nonempty.
Qed.
End construction.

Section machine_facts.
Implicit Types (m : Machine.t) (store : gmap string Ingredient.t).

Lemma built_from_wf beverage_items store entry :
  built_from beverage_items store entry →
  Beverage.name entry.2 = entry.1
  ∧ NoDup (PyDict.keys (Beverage.ingredients entry.2))
  ∧ ∀ i, i ∈ PyDict.keys (Beverage.ingredients entry.2) → is_Some (store !! i).
Proof.
  intros (recipe & _ & Hinit).
  destruct (Beverage_init_spec entry.1 recipe store)
    as (b & Hb & Hname & _ & Hnd & Hkeys).
  rewrite Hinit in Hb. injection Hb as <-. split_and!; [done..|].
  intros i Hi. by apply Hkeys in Hi as [_ ?].
Qed.

Lemma Machine_init_inr data m :
  Machine.init data = inr m →
  wf m ∧ ∃ input_items beverage_items, built data m input_items beverage_items.
Proof.
  unfold Machine.init, field. destruct data as [[section|]]; [|done].
  cbn [Input.machine mbind Error_bind].
  destruct (Input.outlets section) as [[[n|]]|] eqn:Hout; cbn; try done.
  case_bool_decide as Hn; [done|].
  destruct (Input.total_items_quantity section) as [input_items|] eqn:Hitems;
    [|done].
  cbn [mbind Error_bind].
  destruct (getIngredients_spec input_items) as (store & -> & Hstore).
  cbn [mbind Error_bind].
  destruct (Input.beverages section) as [beverage_items|] eqn:Hbev; [|done].
  cbn [mbind Error_bind].
  destruct (getBeverages_loop_spec beverage_items store
              (PyDict.keys beverage_items) []) as (bevs & Hb & Hall & Hne);
    [done | constructor |].
  unfold Machine.getBeverages. rewrite Hb. cbn [mbind Error_bind].
  case_bool_decide as Hlen; [done|]. intros [= <-]. split.
  - pose proof (λ e He, built_from_wf beverage_items store e
                 (proj1 (Forall_forall _ _) Hall e He)) as Hwf.
    constructor; cbn.
    + intros i obj. rewrite Hstore. destruct (PyDict.get input_items i); [|done].
      by intros [= <-].
    + intros bn b Hin. by destruct (Hwf _ Hin) as (? & _).
    + intros bn b Hin. by destruct (Hwf _ Hin) as (_ & ? & _).
    + intros bn b i Hin Hi. destruct (Hwf _ Hin) as (_ & _ & Hr). by apply Hr.
    + intros ->. by apply Hlen.
    + lia.
  - exists input_items, beverage_items. constructor; cbn; [|done..].
    by exists section.
Qed.

(** The loop passes a prefix of sufficient ingredients, decrementing each,
    and goes on with the remaining ones. *)
Lemma make_loop_prefix b pre rest store :
  NoDup pre →
  (∀ i, i ∈ pre → sufficient store b i) →
  ∃ store1,
    (∀ i, i ∉ pre → store1 !! i = store !! i)
    ∧ (∀ i obj q, i ∈ pre → store !! i = Some obj →
         PyDict.get (Beverage.ingredients b) i = Some q →
         store1 !! i = Some (decremented obj q))
    ∧ Machine.make_loop b (pre ++ rest) store =
        ('(store2, evs, made) ← Machine.make_loop b rest store1;
         Some (store2, (pre ≫= taken) ++ evs, made)).
Proof.
  revert store. induction pre as [|i pre IH]; intros store Hnd Hsuff.
  - exists store. split_and!; [done | by intros ??? ?%elem_of_nil |].
    cbn. by destruct (Machine.make_loop b rest store) as [[[? ?] ?]|].
  - apply NoDup_cons in Hnd as [Hi Hnd].
    destruct (Hsuff i) as (obj & q & Hobj & Hq & Hle); [left|].
    set (store0 := <[i := decremented obj q]> store).
    destruct (IH store0 Hnd) as (store1 & Hother & Hpre & Hloop).
    { intros j Hj. destruct (Hsuff j) as (objj & qj & ? & ? & ?); [by right|].
      exists objj, qj. split_and!; [|done..].
      unfold store0. rewrite lookup_insert_ne; [done | by intros ->]. }
    exists store1. split_and!.
    + intros j Hj. apply not_elem_of_cons in Hj as [Hne Hj].
      rewrite (Hother j Hj). unfold store0. by rewrite lookup_insert_ne.
    + intros j objj qj [->|Hj]%elem_of_cons Hobjj Hqj.
      * rewrite (Hother _ Hi). unfold store0. rewrite lookup_insert_eq.
        congruence.
      * apply Hpre; [done| |done]. unfold store0.
        rewrite lookup_insert_ne; [done | by intros ->].
    + cbn [app Machine.make_loop]. rewrite Hobj. cbn [mbind option_bind].
      unfold Beverage.getRequiredIngredientQuantity. rewrite Hq.
      cbn [mbind option_bind]. unfold Ingredient.getAvailableQuantity.
      rewrite bool_decide_true by lia.
      fold (Ingredient.getAvailableQuantity obj). fold (decremented obj q).
      fold store0. rewrite Hloop.
      by destruct (Machine.make_loop b rest store1) as [[[? ?] ?]|].
Qed.

(** The loop at an ingredient that is not there in sufficient quantity. *)
Lemma make_loop_insufficient b i rest store obj q :
  store !! i = Some obj →
  PyDict.get (Beverage.ingredients b) i = Some q →
  Ingredient.available_quantity obj < q →
  Machine.make_loop b (i :: rest) store =
    Some (store,
          [Acquire i; AcquirePrint;
           Print (Beverage.name b +:+ " cannot be prepared as "
                  +:+ Ingredient.name obj +:+ " is not sufficiennt");
           ReleasePrint; Release i],
          false).
Proof.
  intros Hobj Hq Hlt. cbn [Machine.make_loop]. rewrite Hobj.
  cbn [mbind option_bind]. unfold Beverage.getRequiredIngredientQuantity.
  rewrite Hq. cbn [mbind option_bind]. unfold Ingredient.getAvailableQuantity.
  by rewrite bool_decide_false by lia.
Qed.
End machine_facts.

(** ** Every attempt returns *)

Section attempts.
Implicit Types (m : Machine.t) (store : gmap string Ingredient.t).

Lemma same_shape_refl m : same_shape m m.
Proof. by constructor. Qed.

Lemma same_shape_trans m1 m2 m3 :
  same_shape m1 m2 → same_shape m2 m3 → same_shape m1 m3.
Proof.
  intros [H1 H2 H3] [H1' H2' H3']. constructor; [congruence..|].
  intros i. by rewrite H3', H3.
Qed.

Lemma same_shape_wf m m' : wf m → same_shape m m' → wf m'.
Proof.
  intros [Hn Hbn Hnd Hr Hb Ho] [H1 H2 H3]. constructor; rewrite ?H1, ?H2; try done.
  - intros i obj' Hobj'. specialize (H3 i). rewrite Hobj' in H3. cbn in H3.
    destruct (Machine.ingredients m !! i) as [obj|] eqn:Hobj; [|done].
    injection H3 as ->. by apply Hn.
  - intros bn b i Hin Hi. specialize (H3 i). destruct (Hr bn b i Hin Hi) as [obj Hobj].
    rewrite Hobj in H3. by destruct (Machine.ingredients m' !! i).
Qed.

(** The loop returns whatever the quantities are, prints at most the
    line of the ingredient it stops at, keeps every object under its
    name, and makes no quantity negative. *)
Lemma make_loop_total b keys store :
  (∀ i, i ∈ keys →
     is_Some (store !! i) ∧ is_Some (PyDict.get (Beverage.ingredients b) i)) →
  ∃ store' evs made,
    Machine.make_loop b keys store = Some (store', evs, made)
    ∧ (∀ i, Ingredient.name <$> store' !! i = Ingredient.name <$> store !! i)
    ∧ no_new_negative store store'
    ∧ (if made then printed evs = []
       else ∃ i obj, i ∈ keys ∧ store !! i = Some obj
                   ∧ printed evs = [line_insufficient b (Ingredient.name obj)]).
Proof.
  revert store. induction keys as [|i keys IH]; intros store Hkeys.
  - exists store, [], true. split_and!; [done..| |done]. intros ??. by left.
  - destruct (Hkeys i) as [[obj Hobj] [q Hq]]; [left|].
    cbn [Machine.make_loop]. rewrite Hobj. cbn [mbind option_bind].
    unfold Beverage.getRequiredIngredientQuantity. rewrite Hq.
    cbn [mbind option_bind]. unfold Ingredient.getAvailableQuantity.
    case_bool_decide as Hge.
    + set (store0 := <[i := _]> store).
      destruct (IH store0) as (store' & evs & made & -> & Hnames & Hneg & Hout).
      { intros j Hj. destruct (Hkeys j) as [Hs ?]; [by right|]. split; [|done].
        unfold store0. by apply lookup_insert_is_Some'; right. }
      assert (Hnames0 : ∀ j,
        Ingredient.name <$> store0 !! j = Ingredient.name <$> store !! j).
      { intros j. unfold store0. destruct (decide (i = j)) as [<-|Hne].
        - by rewrite lookup_insert_eq, Hobj.
        - by rewrite lookup_insert_ne. }
      exists store', (Acquire i :: Release i :: evs), made.
      split_and!; [done| | |].
      * intros j. by rewrite Hnames, Hnames0.
      * intros j obj' Hobj'. destruct (Hneg j obj' Hobj') as [H0|?]; [|by right].
        unfold store0 in H0. destruct (decide (i = j)) as [<-|Hne].
        -- rewrite lookup_insert_eq in H0. injection H0 as <-. right. cbn. lia.
        -- rewrite lookup_insert_ne in H0 by done. by left.
      * destruct made; [done|].
        destruct Hout as (j & objj & Hj & Hobjj & Hpr).
        specialize (Hnames0 j). rewrite Hobjj in Hnames0.
        destruct (store !! j) as [objj0|] eqn:Hobjj0; [|done].
        injection Hnames0 as Hname.
        exists j, objj0. split_and!; [by right|done|]. by rewrite <-Hname.
    + eexists store, _, false. split_and!; [done..| |].
      * intros ??. by left.
      * exists i, obj. split_and!; [left|done..].
Qed.

Lemma make_beverage_total m choice :
  wf m → (choice < length (Machine.beverages m))%nat →
  ∃ bn b m' evs line,
    Machine.beverages m !! choice = Some (bn, b)
    ∧ Machine.make_beverage m choice = Some (m', evs)
    ∧ printed evs = [line]
    ∧ outcome b line
    ∧ same_shape m m'
    ∧ no_new_negative (Machine.ingredients m) (Machine.ingredients m').
Proof.
  intros Hwf Hchoice.
  destruct (lookup_lt_is_Some_2 _ _ Hchoice) as [[bn b] Hb].
  assert (Hin : (bn, b) ∈ Machine.beverages m) by by eapply list_elem_of_lookup_2.
  exists bn, b. unfold Machine.make_beverage. rewrite Hb. cbn [mbind option_bind].
  destruct (Beverage.isAvailable b) eqn:Havail; cbn [negb].
  - destruct (make_loop_total b (PyDict.keys (Beverage.getIngredients b))
                (Machine.ingredients m))
      as (store' & evs & made & -> & Hnames & Hneg & Hout).
    { intros i Hi. split; [by eapply (wf_refs m Hwf)|]. by apply get_is_Some. }
    cbn [mbind option_bind]. destruct made.
    + eexists _, _, (line_prepared b). split_and!; [done..| | | |done].
      * unfold printed in *. by rewrite omap_app, Hout.
      * by apply outcome_prepared.
      * by constructor.
    + destruct Hout as (i & obj & Hi & Hobj & Hpr).
      eexists _, _, _. split_and!; [done..| | | |done].
      * by rewrite app_nil_r.
      * apply (outcome_insufficient _ _ i); [done|].
        by rewrite (wf_name m Hwf i obj Hobj).
      * by constructor.
  - eexists m, _, (line_not_available b). split_and!; [done..| | |].
    + by apply outcome_not_available.
    + apply same_shape_refl.
    + intros ??. by left.
Qed.
End attempts.

(** ** Sequences of operations *)

Section operations.
Implicit Types (m : Machine.t) (store : gmap string Ingredient.t).

Lemma quantity_Some m i a :
  quantity m i = Some a ↔
  ∃ obj, Machine.ingredients m !! i = Some obj ∧ Ingredient.available_quantity obj = a.
Proof.
  unfold quantity. rewrite fmap_Some.
  split; intros (obj & ? & ?); by exists obj.
Qed.

Lemma no_new_negative_nonnegative m m' :
  no_new_negative (Machine.ingredients m) (Machine.ingredients m') →
  nonnegative m → nonnegative m'.
Proof.
  intros Hnew Hnn i a (obj' & Hobj' & <-)%quantity_Some.
  destruct (Hnew i obj' Hobj') as [Hold|?]; [|done].
  apply (Hnn i). apply quantity_Some. eauto.
Qed.

Lemma refill_same_shape m n q : same_shape m (Machine.refill m n q).1.
Proof.
  unfold Machine.refill.
  destruct (Machine.ingredients m !! n) as [obj|] eqn:Hobj; cbn;
    [|apply same_shape_refl].
  constructor; cbn; [done..|]. intros i. destruct (decide (n = i)) as [<-|Hne].
  - by rewrite lookup_insert_eq, Hobj.
  - by rewrite lookup_insert_ne.
Qed.

Lemma refill_nonnegative m n q :
  0 ≤ q → nonnegative m → nonnegative (Machine.refill m n q).1.
Proof.
  intros Hq Hnn. apply (no_new_negative_nonnegative m); [|done].
  unfold Machine.refill.
  destruct (Machine.ingredients m !! n) as [obj|] eqn:Hobj; cbn;
    [|by intros ??; left].
  intros i obj'. destruct (decide (n = i)) as [<-|Hne].
  - rewrite lookup_insert_eq. intros [= <-]. by right.
  - rewrite lookup_insert_ne by done. by left.
Qed.

(** An operation returns, keeps the machine well formed, and makes no
    quantity negative unless it is a refill with a negative quantity. *)
Lemma apply_op_total m op :
  wf m → valid_op m op →
  ∃ m' evs,
    apply_op m op = Some (m', evs) ∧ same_shape m m'
    ∧ (refills_nonnegative op → nonnegative m → nonnegative m')
    ∧ (∀ choice, op = OpMake choice → length (printed evs) = 1%nat).
Proof.
  intros Hwf Hvalid. destruct op as [choice|n q|n]; cbn in *.
  - destruct (make_beverage_total m choice Hwf Hvalid)
      as (bn & b & m' & evs & line & _ & -> & Hpr & _ & Hshape & Hneg).
    exists m', evs. split_and!; [done..| |].
    + intros _. by apply (no_new_negative_nonnegative m).
    + intros _ _. by rewrite Hpr.
  - destruct (Machine.refill m n q) as [m' evs] eqn:Hr. exists m', evs.
    replace m' with (Machine.refill m n q).1 by by rewrite Hr.
    split_and!; [done|apply refill_same_shape| |done].
    intros Hq Hnn. by apply refill_nonnegative.
  - eexists m, _. split_and!; [done|apply same_shape_refl|done..].
Qed.

Lemma apply_ops_total m ops :
  wf m → Forall (valid_op m) ops →
  ∃ m' evs,
    apply_ops m ops = Some (m', evs) ∧ same_shape m m'
    ∧ (Forall refills_nonnegative ops → nonnegative m → nonnegative m')
    ∧ ((∀ op, op ∈ ops → ∃ choice, op = OpMake choice) →
       length (printed evs) = length ops).
Proof.
  revert m. induction ops as [|op ops IH]; intros m Hwf Hvalid.
  - exists m, []. split_and!; [done|apply same_shape_refl|done..].
  - apply Forall_cons in Hvalid as [Hop Hops].
    destruct (apply_op_total m op Hwf Hop) as (m1 & evs1 & H1 & Hs1 & Hn1 & Hp1).
    destruct (IH m1) as (m2 & evs2 & H2 & Hs2 & Hn2 & Hp2).
    { by eapply same_shape_wf. }
    { eapply Forall_impl; [done|]. intros [c| |]; cbn; [|done..].
      by rewrite (shape_beverages _ _ Hs1). }
    exists m2, (evs1 ++ evs2). cbn [apply_ops]. rewrite H1. cbn. rewrite H2. cbn.
    split_and!; [done|by eapply same_shape_trans| |].
    + intros [? ?]%Forall_cons ?. auto.
    + intros Hmake. unfold printed in *. rewrite omap_app, length_app. cbn.
      destruct (Hmake op) as [c ->]; [left|].
      rewrite (Hp1 c eq_refl), Hp2; [done|]. intros op' ?. apply Hmake. by right.
Qed.

Lemma apply_ops_same_shape m ops m' evs :
  wf m → apply_ops m ops = Some (m', evs) → same_shape m m'.
Proof.
  revert m m' evs. induction ops as [|op ops IH]; intros m m' evs Hwf; cbn.
  - intros [= <- <-]. apply same_shape_refl.
  - destruct (apply_op m op) as [[m1 evs1]|] eqn:H1; [|done]. cbn.
    destruct (apply_ops m1 ops) as [[m2 evs2]|] eqn:H2; [|done]. cbn.
    intros [= <- <-].
    assert (same_shape m m1) as Hs1.
    { destruct op as [choice|n q|n]; cbn in H1.
      - destruct (decide (choice < length (Machine.beverages m))%nat) as [Hlt|Hge].
        + destruct (make_beverage_total m choice Hwf Hlt)
            as (? & ? & ? & ? & ? & _ & Heq & _ & _ & ? & _).
          rewrite Heq in H1. by injection H1 as <- <-.
        + unfold Machine.make_beverage in H1.
          rewrite lookup_ge_None_2 in H1 by lia. done.
      - injection H1 as H1.
        replace m1 with (Machine.refill m n q).1 by by rewrite H1.
        apply refill_same_shape.
      - injection H1 as <- <-. apply same_shape_refl. }
    eapply same_shape_trans; [done|]. eapply IH; [|done].
    by eapply same_shape_wf.
Qed.

Lemma printed_taken (keys : list string) : printed (keys ≫= taken) = [].
Proof. induction keys as [|i keys IH]; [done|]. by rewrite bind_cons. Qed.
End operations.

(** ** Concurrent runs *)

Module ConcFacts.
Import Conc ConcInv.

#[global] Instance pc_Done_dec (p : pc) : Decision (p = Done).
Proof. destruct p; (by left) || (by right). Defined.

#[global] Instance finished_dec (w : World) : Decision (finished w).
Proof. unfold finished. apply _. Defined.

Section agree.
Implicit Types (threads : list pc) (locks : gmap string nat).

Lemma lookup_moved threads t p' t0 q :
  <[t := p']> threads !! t0 = Some q →
  (t0 = t ∧ q = p') ∨ (t0 ≠ t ∧ threads !! t0 = Some q).
Proof.
  intros H. apply list_lookup_insert_Some in H as [(-> & -> & _)|[? ?]]; eauto.
Qed.

Lemma lookup_moved_eq threads t p p' :
  threads !! t = Some p → <[t := p']> threads !! t = Some p'.
Proof. intros H. apply list_lookup_insert_eq. by eapply lookup_lt_Some. Qed.

Lemma locks_agree_move locks threads t p p' :
  threads !! t = Some p → holding p' = holding p →
  locks_agree locks threads → locks_agree locks (<[t := p']> threads).
Proof.
  intros Ht Hh Hag i t0. rewrite (Hag i t0). split.
  - intros (p0 & Hp0 & Hi). destruct (decide (t0 = t)) as [->|Hne].
    + exists p'. split; [by eapply lookup_moved_eq|]. congruence.
    + exists p0. by rewrite list_lookup_insert_ne.
  - intros (q & [[-> ->]|[Hne Hq]]%lookup_moved & Hi).
    + exists p. split; [done | congruence].
    + by exists q.
Qed.

Lemma locks_agree_acquire locks threads t p p' i :
  threads !! t = Some p → holding p = None → holding p' = Some i →
  locks !! i = None →
  locks_agree locks threads → locks_agree (<[i := t]> locks) (<[t := p']> threads).
Proof.
  intros Ht Hp Hp' Hfree Hag j t0. split.
  - destruct (decide (i = j)) as [<-|Hij].
    + rewrite lookup_insert_eq. intros [= <-]. exists p'.
      split; [by eapply lookup_moved_eq | done].
    + rewrite lookup_insert_ne by done. intros (p0 & Hp0 & Hj)%Hag.
      destruct (decide (t0 = t)) as [->|Hne]; [congruence|].
      exists p0. by rewrite list_lookup_insert_ne.
  - intros (q & [[-> ->]|[Hne Hq]]%lookup_moved & Hj).
    + assert (j = i) as -> by congruence. apply lookup_insert_eq.
    + assert (locks !! j = Some t0) as Hl by (apply Hag; eauto).
      rewrite lookup_insert_ne; [done | congruence].
Qed.

Lemma locks_agree_release locks threads t p p' i :
  threads !! t = Some p → holding p = Some i → holding p' = None →
  locks_agree locks threads → locks_agree (delete i locks) (<[t := p']> threads).
Proof.
  intros Ht Hp Hp' Hag j t0. split.
  - intros [Hij Hl]%lookup_delete_Some. apply Hag in Hl as (p0 & Hp0 & Hj).
    destruct (decide (t0 = t)) as [->|Hne]; [congruence|].
    exists p0. by rewrite list_lookup_insert_ne.
  - intros (q & [[-> ->]|[Hne Hq]]%lookup_moved & Hj); [congruence|].
    assert (locks !! j = Some t0) as Hl by (apply Hag; eauto).
    apply lookup_delete_Some. split; [|done]. intros <-.
    assert (locks !! i = Some t) as Hl' by (apply Hag; eauto). congruence.
Qed.

Lemma print_agree_move pl threads t p p' :
  threads !! t = Some p → printing p' = printing p →
  print_agree pl threads → print_agree pl (<[t := p']> threads).
Proof.
  intros Ht Hh Hag t0. rewrite (Hag t0). split.
  - intros (p0 & Hp0 & Hi). destruct (decide (t0 = t)) as [->|Hne].
    + exists p'. split; [by eapply lookup_moved_eq|]. congruence.
    + exists p0. by rewrite list_lookup_insert_ne.
  - intros (q & [[-> ->]|[Hne Hq]]%lookup_moved & Hi).
    + exists p. split; [done | congruence].
    + by exists q.
Qed.

Lemma print_agree_acquire threads t p p' :
  threads !! t = Some p → printing p' = true →
  print_agree None threads → print_agree (Some t) (<[t := p']> threads).
Proof.
  intros Ht Hp' Hag t0. split.
  - intros [= <-]. exists p'. split; [by eapply lookup_moved_eq | done].
  - intros (q & [[-> ->]|[Hne Hq]]%lookup_moved & Hj); [done|].
    assert (None = Some t0) by (apply Hag; eauto). done.
Qed.

Lemma print_agree_release pl threads t p p' :
  threads !! t = Some p → printing p = true → printing p' = false →
  print_agree pl threads → print_agree None (<[t := p']> threads).
Proof.
  intros Ht Hp Hp' Hag t0. split; [done|].
  intros (q & [[-> ->]|[Hne Hq]]%lookup_moved & Hj); [congruence|].
  assert (pl = Some t0) by (apply Hag; eauto).
  assert (pl = Some t) by (apply Hag; eauto). congruence.
Qed.

Lemma printed_count_move threads t p p' :
  threads !! t = Some p →
  (printed_count (<[t := p']> threads) + (if has_printed p then 1 else 0)
   = printed_count threads + (if has_printed p' then 1 else 0))%nat.
Proof.
  intros Ht. unfold printed_count.
  rewrite <-(take_drop_middle threads t p Ht) at 2.
  rewrite insert_take_drop by by eapply lookup_lt_Some.
  rewrite !filter_app, !filter_cons, !length_app.
  destruct (has_printed p), (has_printed p'); simpl; lia.
Qed.
End agree.

Section steps.
Implicit Types (w : World) (p : pc) (m : Machine.t).

Lemma known_shape m m' b keys :
  same_shape m m' → known m b keys → known m' b keys.
Proof.
  intros Hs Hk i Hi. destruct (Hk i Hi) as [[obj Hobj] ?]. split; [|done].
  pose proof (shape_names _ _ Hs i) as Hn. rewrite Hobj in Hn.
  by destruct (Machine.ingredients m' !! i).
Qed.

Lemma pc_ok_shape m m' p : same_shape m m' → pc_ok m p → pc_ok m' p.
Proof.
  intros Hs. destruct p; cbn; eauto using known_shape.
  by rewrite (shape_beverages _ _ Hs).
Qed.

Lemma known_tail m b i rest : known m b (i :: rest) → known m b rest.
Proof. intros Hk j Hj. apply Hk. by right. Qed.

Lemma known_head m b i rest : known m b (i :: rest) → known m b [i].
Proof. intros Hk j ->%list_elem_of_singleton. apply Hk. left. Qed.

Lemma output_snoc (log : list (nat * Event)) t e :
  printed (log ++ [(t, e)]).*2
  = printed log.*2 ++ match e with Print line => [line] | _ => [] end.
Proof.
  unfold printed. rewrite fmap_app, omap_app. f_equal. by destruct e.
Qed.

Lemma printed_by_attempt t evs : printed (by_attempt t evs).*2 = printed evs.
Proof.
  unfold by_attempt, printed. induction evs as [|e evs IH]; [done|].
  cbn. by rewrite IH.
Qed.

Lemma filter_by_attempt_eq t evs :
  filter (λ te : nat * Event, te.1 = t) (by_attempt t evs) = by_attempt t evs.
Proof.
  unfold by_attempt. induction evs as [|e evs IH]; [done|].
  rewrite fmap_cons, filter_cons_True by done. by rewrite IH.
Qed.

Lemma filter_by_attempt_ne t t0 evs :
  t0 ≠ t →
  filter (λ te : nat * Event, te.1 = t0) (by_attempt t evs) = [].
Proof.
  intros Hne. unfold by_attempt. induction evs as [|e evs IH]; [done|].
  rewrite fmap_cons, filter_cons_False; [done|]. cbn. congruence.
Qed.

(** The invariant after attempt [t] moved from [p] to [p']. *)
Lemma inv_update w t p p' m' locks' pl' log' :
  inv w → threads w !! t = Some p →
  same_shape (machine w) m' →
  locks_agree locks' (<[t := p']> (threads w)) →
  print_agree pl' (<[t := p']> (threads w)) →
  pc_ok m' p' →
  (∀ t0 b i a rest,
     <[t := p']> (threads w) !! t0 = Some (Checked b i a rest) →
     quantity m' i = Some a) →
  (length (printed log'.*2) + (if has_printed p then 1 else 0)
   = length (output w) + (if has_printed p' then 1 else 0))%nat →
  (∃ evs, log' = log w ++ by_attempt t evs) →
  inv (mkWorld m' locks' pl' log' (<[t := p']> (threads w))).
Proof.
  intros Hinv Ht Hs Hl Hp Hok Hch Hout [evs ->]. constructor; cbn; try done.
  - eapply same_shape_wf; [apply Hinv | done].
  - intros t0 q [[-> ->]|[Hne Hq]]%lookup_moved; [done|].
    eapply pc_ok_shape; [done|]. by eapply (inv_pc w Hinv).
  - pose proof (printed_count_move (threads w) t p p' Ht) as Hc.
    pose proof (inv_output w Hinv) as Ho.
    unfold output, printed, printed_count in *.
    destruct (has_printed p), (has_printed p'); lia.
  - intros t0 q Hq. unfold output_of. cbn. rewrite filter_app.
    apply lookup_moved in Hq as [[-> ->]|[Hne Hq]].
    + rewrite filter_by_attempt_eq. pose proof (inv_output_of w Hinv t p Ht) as Ho.
      unfold output_of in Ho. pose proof (printed_by_attempt t evs) as He.
      unfold output, printed in *.
      rewrite fmap_app, omap_app, length_app in Hout |- *. rewrite He in Hout |- *.
      destruct (has_printed p), (has_printed p'); lia.
    + rewrite filter_by_attempt_ne, app_nil_r by done.
      by apply (inv_output_of w Hinv).
Qed.

Lemma checked_kept w t p p' :
  inv w → threads w !! t = Some p →
  (∀ b i a rest, p' = Checked b i a rest → quantity (machine w) i = Some a) →
  ∀ t0 b i a rest,
    <[t := p']> (threads w) !! t0 = Some (Checked b i a rest) →
    quantity (machine w) i = Some a.
Proof.
  intros Hinv Ht Hp' t0 b i a rest [[-> Heq]|[Hne Hq]]%lookup_moved.
  - by eapply Hp'.
  - by eapply (inv_checked w Hinv).
Qed.

(** A statement that touches neither a lock nor a quantity nor the output. *)
Lemma inv_move w t p p' :
  inv w → threads w !! t = Some p →
  holding p' = holding p → printing p' = printing p →
  has_printed p' = has_printed p → pc_ok (machine w) p' →
  (∀ b i a rest, p' = Checked b i a rest → quantity (machine w) i = Some a) →
  inv (mkWorld (machine w) (locks w) (print_lock w) (log w)
         (<[t := p']> (threads w))).
Proof.
  intros Hinv Ht Hh Hp Hpr Hok Hch.
  apply (inv_update w t p p' _ _ _ _ Hinv Ht).
  - apply same_shape_refl.
  - eapply locks_agree_move; [done..|apply Hinv].
  - eapply print_agree_move; [done..|apply Hinv].
  - done.
  - by eapply checked_kept.
  - rewrite Hpr. done.
  - exists []. by rewrite app_nil_r.
Qed.

Lemma print_block_threads w t s line s' w1 :
  print_block t w s line = Some (s', w1) → threads w1 = threads w.
Proof.
  destruct s; cbn; [destruct (print_lock w); [done|]|..]; by intros [= <- <-].
Qed.

(** The three statements of a [with self.print_lock: print(line)] block. *)
Lemma print_block_inv w t (at_stage : print_stage → pc) (after : pc)
    s line s' w1 :
  inv w → threads w !! t = Some (at_stage s) →
  print_block t w s line = Some (s', w1) →
  (∀ s0, holding (at_stage s0) = holding after) →
  (∀ s0, printing (at_stage s0) = in_print_block s0) → printing after = false →
  (∀ s0, has_printed (at_stage s0)
         = match s0 with Printed => true | _ => false end) →
  has_printed after = true →
  (∀ s0, pc_ok (machine w) (at_stage s0)) → pc_ok (machine w) after →
  (∀ s0 b i a rest, at_stage s0 ≠ Checked b i a rest) →
  (∀ b i a rest, after ≠ Checked b i a rest) →
  inv (mkWorld (machine w1) (locks w1) (print_lock w1) (log w1)
         (<[t := match s' with Some s0 => at_stage s0 | None => after end]>
            (threads w))).
Proof.
  intros Hinv Ht Hstep Hh Hp Hpa Hpr Hpra Hok Hoka Hch Hcha.
  destruct s; cbn in Hstep.
  - destruct (print_lock w) eqn:Hfree; [done|]. injection Hstep as <- <-. cbn.
    apply (inv_update w t _ _ _ _ _ _ Hinv Ht).
    + apply same_shape_refl.
    + eapply locks_agree_move; [done| |apply Hinv]. by rewrite !Hh.
    + eapply print_agree_acquire; [done|by rewrite Hp|].
      rewrite <-Hfree. apply Hinv.
    + apply Hok.
    + eapply checked_kept; [done..|]. intros ???? Heq. by apply Hch in Heq.
    + rewrite output_snoc, app_nil_r, !Hpr. done.
    + by exists [AcquirePrint].
  - injection Hstep as <- <-. cbn.
    apply (inv_update w t _ _ _ _ _ _ Hinv Ht).
    + apply same_shape_refl.
    + eapply locks_agree_move; [done| |apply Hinv]. by rewrite !Hh.
    + eapply print_agree_move; [done| |apply Hinv]. by rewrite !Hp.
    + apply Hok.
    + eapply checked_kept; [done..|]. intros ???? Heq. by apply Hch in Heq.
    + rewrite output_snoc, length_app, !Hpr. cbn. unfold output. lia.
    + by exists [Print line].
  - injection Hstep as <- <-. cbn.
    apply (inv_update w t _ _ _ _ _ _ Hinv Ht).
    + apply same_shape_refl.
    + eapply locks_agree_move; [done| |apply Hinv]. by rewrite !Hh.
    + eapply print_agree_release; [done| |done|apply Hinv]. by rewrite Hp.
    + apply Hoka.
    + eapply checked_kept; [done..|]. intros ???? Heq. by apply Hcha in Heq.
    + rewrite output_snoc, app_nil_r, Hpr, Hpra. done.
    + by exists [ReleasePrint].
Qed.

Lemma inv_release w t p p' i :
  inv w → threads w !! t = Some p →
  holding p = Some i → holding p' = None →
  printing p = false → printing p' = false →
  has_printed p' = has_printed p → pc_ok (machine w) p' →
  (∀ b j a rest, p' ≠ Checked b j a rest) →
  inv (mkWorld (machine w) (delete i (locks w)) (print_lock w)
         (log w ++ [(t, Release i)]) (<[t := p']> (threads w))).
Proof.
  intros Hinv Ht Hh Hh' Hp Hp' Hpr Hok Hch.
  apply (inv_update w t _ _ _ _ _ _ Hinv Ht).
  - apply same_shape_refl.
  - eapply locks_agree_release; [done..|apply Hinv].
  - eapply print_agree_move; [done|congruence|apply Hinv].
  - done.
  - eapply checked_kept; [done..|]. intros ???? Heq. by apply Hch in Heq.
  - rewrite output_snoc, app_nil_r, Hpr. done.
  - by exists [Release i].
Qed.

(** Every statement keeps the invariant. *)
Lemma thread_step_inv w t p p' w1 :
  inv w → threads w !! t = Some p → thread_step t p w = Some (p', w1) →
  threads w1 = threads w
  ∧ inv (mkWorld (machine w1) (locks w1) (print_lock w1) (log w1)
           (<[t := p']> (threads w))).
Proof.
  intros Hinv Ht Hstep. pose proof (inv_pc w Hinv t p Ht) as Hok.
  destruct p as [choice|b s|b [|i rest]|b i rest|b i a rest|b i rest|b i s|b i|b s|];
    cbn in Hstep, Hok.
  - (* Start *)
    destruct (Machine.beverages (machine w) !! choice) as [[bn b]|] eqn:Hb;
      [|done]. cbn in Hstep.
    destruct (Beverage.isAvailable b); cbn in Hstep; injection Hstep as <- <-;
      (split; [done|]); destruct w; eapply inv_move; try done.
    cbn. intros i Hi. apply list_elem_of_lookup_2 in Hb. split.
    + by eapply (wf_refs _ (inv_wf _ Hinv)).
    + by apply get_is_Some.
  - (* NotAvailable *)
    destruct (print_block t w s (line_not_available b)) as [[s' w']|] eqn:Hpb;
      [|done]. cbn in Hstep. injection Hstep as <- <-.
    split; [by eapply print_block_threads|].
    eapply (print_block_inv w t (NotAvailable b) Done); try done; by intros [].
  - (* Loop, no ingredient left *)
    injection Hstep as <- <-. split; [done|]. destruct w. by eapply inv_move.
  - (* Loop, entering the block of [i] *)
    destruct (locks w !! i) eqn:Hfree; [done|]. injection Hstep as <- <-.
    split; [done|]. cbn. apply (inv_update w t _ _ _ _ _ _ Hinv Ht).
    + apply same_shape_refl.
    + eapply locks_agree_acquire; [done..|apply Hinv].
    + eapply print_agree_move; [done..|apply Hinv].
    + done.
    + by eapply checked_kept.
    + by rewrite output_snoc, app_nil_r.
    + by exists [Acquire i].
  - (* Locked: the quantity is read *)
    destruct (Machine.ingredients (machine w) !! i) as [obj|] eqn:Hobj; [|done].
    injection Hstep as <- <-. split; [done|]. destruct w. eapply inv_move; try done.
    intros ???? [= <- <- <- <-]. unfold quantity. cbn in *. by rewrite Hobj.
  - (* Checked: the comparison, and the update *)
    destruct (Beverage.getRequiredIngredientQuantity b i) as [q|]; [|done].
    cbn in Hstep. case_bool_decide as Hge.
    + destruct (Machine.ingredients (machine w) !! i) as [obj|] eqn:Hobj; [|done].
      injection Hstep as <- <-. split; [done|]. cbn.
      assert (same_shape (machine w)
                (set_store (machine w)
                   (<[i := Ingredient.setAvailableQuantity obj (a - q)]>
                      (Machine.ingredients (machine w))))) as Hshape.
      { constructor; cbn; [done..|]. intros j.
        destruct (decide (i = j)) as [<-|Hne].
        - by rewrite lookup_insert_eq, Hobj.
        - by rewrite lookup_insert_ne. }
      apply (inv_update w t _ _ _ _ _ _ Hinv Ht).
      * done.
      * eapply locks_agree_move; [done..|apply Hinv].
      * eapply print_agree_move; [done..|apply Hinv].
      * by eapply (pc_ok_shape _ _ (Written b i rest)).
      * intros t0 b0 i0 a0 rest0 [[-> Heq]|[Hne Hq]]%lookup_moved; [done|].
        pose proof (inv_checked w Hinv _ _ _ _ _ Hq) as Hq0.
        unfold quantity in *. cbn. rewrite lookup_insert_ne; [done|].
        intros <-.
        assert (locks w !! i = Some t) by (apply (inv_locks w Hinv); eauto).
        assert (locks w !! i = Some t0) by (apply (inv_locks w Hinv); eauto).
        congruence.
      * done.
      * exists []. by rewrite app_nil_r.
    + injection Hstep as <- <-. split; [done|]. destruct w.
      eapply inv_move; try done. cbn in *. by eapply known_head.
  - (* Written: leaving the block *)
    injection Hstep as <- <-. split; [done|]. cbn.
    eapply inv_release; try done. cbn. by eapply known_tail.
  - (* Insufficient *)
    destruct (Machine.ingredients (machine w) !! i) as [obj|]; [|done].
    cbn in Hstep.
    destruct (print_block t w s _) as [[s' w']|] eqn:Hpb; [|done].
    cbn in Hstep. injection Hstep as <- <-.
    split; [by eapply print_block_threads|].
    eapply (print_block_inv w t (Insufficient b i) (Leaving b i)); try done; by intros [].
  - (* Leaving *)
    injection Hstep as <- <-. split; [done|]. cbn. by eapply inv_release.
  - (* Made *)
    destruct (print_block t w s (line_prepared b)) as [[s' w']|] eqn:Hpb;
      [|done]. cbn in Hstep. injection Hstep as <- <-.
    split; [by eapply print_block_threads|].
    eapply (print_block_inv w t (Made b) Done); try done; by intros [].
  - done.
Qed.

Lemma step_Some w t w' :
  step w t = Some w' →
  ∃ p p' w1,
    threads w !! t = Some p ∧ thread_step t p w = Some (p', w1)
    ∧ w' = mkWorld (machine w1) (locks w1) (print_lock w1) (log w1)
             (<[t := p']> (threads w1)).
Proof.
  unfold step. destruct (threads w !! t) as [p|]; [|done]. cbn.
  destruct (thread_step t p w) as [[p' w1]|] eqn:Hstep; [|done]. cbn.
  intros [= <-]. by exists p, p', w1.
Qed.

Lemma step_inv w t w' : inv w → step w t = Some w' → inv w'.
Proof.
  intros Hinv (p & p' & w1 & Ht & Hstep & ->)%step_Some.
  destruct (thread_step_inv w t p p' w1 Hinv Ht Hstep) as [-> ?]. done.
Qed.

Lemma exec_inv w schedule : inv w → inv (exec w schedule).
Proof.
  revert w. induction schedule as [|t schedule IH]; intros w Hinv; [done|].
  cbn. apply IH. destruct (step w t) as [w'|] eqn:Hstep; [|done].
  by eapply step_inv.
Qed.

Lemma init_world_inv m rnd :
  wf m → (∀ index, (rnd index < length (Machine.beverages m))%nat) →
  inv (init_world m rnd).
Proof.
  intros Hwf Hrnd.
  assert (∀ t p, threads (init_world m rnd) !! t = Some p → ∃ c, p = Start (rnd c))
    as Hstart.
  { intros t p. cbn. rewrite !list_lookup_fmap.
    destruct (seq _ _ !! t) as [c|]; [|done]. intros [= <-]. by exists c. }
  constructor; try done.
  - intros t p (c & ->)%Hstart. apply Hrnd.
  - intros i t. split; [by cbn; rewrite lookup_empty|].
    by intros (p & (c & ->)%Hstart & ?).
  - intros t. split; [done|]. by intros (p & (c & ->)%Hstart & ?).
  - by intros t b i a rest (c & ?)%Hstart.
  - cbn. unfold printed_count. symmetry. apply length_zero_iff_nil.
    induction (seq _ _) as [|c l IH]; [done|].
    rewrite !fmap_cons, filter_cons. done.
  - by intros t p (c & ->)%Hstart.
Qed.

Lemma thread_step_threads t p w p' w1 :
  thread_step t p w = Some (p', w1) → threads w1 = threads w.
Proof.
  intros Hstep.
  destruct p as [choice|b s|b [|i rest]|b i rest|b i a rest|b i rest|b i s|b i|b s|];
    cbn in Hstep.
  - destruct (Machine.beverages (machine w) !! choice) as [[bn b]|]; [|done].
    cbn in Hstep. by destruct (Beverage.isAvailable b); injection Hstep as <- <-.
  - destruct (print_block t w s _) as [[s' w']|] eqn:Hpb; [|done].
    injection Hstep as <- <-. by eapply print_block_threads.
  - by injection Hstep as <- <-.
  - destruct (locks w !! i); [done|]. by injection Hstep as <- <-.
  - destruct (Machine.ingredients (machine w) !! i); [|done].
    by injection Hstep as <- <-.
  - destruct (Beverage.getRequiredIngredientQuantity b i); [|done].
    cbn in Hstep. case_bool_decide; [|by injection Hstep as <- <-].
    destruct (Machine.ingredients (machine w) !! i); [|done].
    by injection Hstep as <- <-.
  - by injection Hstep as <- <-.
  - destruct (Machine.ingredients (machine w) !! i); [|done]. cbn in Hstep.
    destruct (print_block t w s _) as [[s' w']|] eqn:Hpb; [|done].
    injection Hstep as <- <-. by eapply print_block_threads.
  - by injection Hstep as <- <-.
  - destruct (print_block t w s _) as [[s' w']|] eqn:Hpb; [|done].
    injection Hstep as <- <-. by eapply print_block_threads.
  - done.
Qed.

Lemma step_threads_length w t w' :
  step w t = Some w' → length (threads w') = length (threads w).
Proof.
  intros (p & p' & w1 & Ht & Hstep & ->)%step_Some. cbn. rewrite length_insert.
  f_equal. by eapply thread_step_threads.
Qed.

Lemma exec_threads_length w schedule :
  length (threads (exec w schedule)) = length (threads w).
Proof.
  revert w. induction schedule as [|t schedule IH]; intros w; [done|].
  cbn. rewrite IH. destruct (step w t) eqn:Hstep; [|done].
  by eapply step_threads_length.
Qed.

Lemma exec_app w schedule1 schedule2 :
  exec w (schedule1 ++ schedule2) = exec (exec w schedule1) schedule2.
Proof.
  revert w. induction schedule1 as [|t l IH]; intros w; [done|]. cbn. apply IH.
Qed.

Lemma printed_count_Done (l : list pc) :
  Forall (λ p, p = Done) l → printed_count l = length l.
Proof.
  unfold printed_count. induction 1 as [|p l -> _ IH]; [done|].
  rewrite filter_cons_True by done. cbn. by rewrite IH.
Qed.

(** When every attempt has returned, each has printed its line. *)
Lemma finished_output w :
  inv w → finished w → length (output w) = length (threads w).
Proof.
  intros Hinv Hfin. rewrite (inv_output w Hinv). by apply printed_count_Done.
Qed.

(** When every attempt has returned, each has printed one line. *)
Lemma finished_output_of w t :
  inv w → finished w → (t < length (threads w))%nat →
  length (output_of w t) = 1%nat.
Proof.
  intros Hinv Hfin Hlt. destruct (lookup_lt_is_Some_2 _ _ Hlt) as [p Hp].
  rewrite (inv_output_of w Hinv t p Hp).
  by rewrite (proj1 (Forall_lookup _ _) Hfin t p Hp).
Qed.

(** *** No deadlock *)

Lemma print_block_fuel w t s line s' w1 :
  print_block t w s line = Some (s', w1) →
  Machine.beverages (machine w1) = Machine.beverages (machine w)
  ∧ (from_option stage_fuel 0 s' < stage_fuel s)%nat.
Proof.
  destruct s; cbn; [destruct (print_lock w); [done|]|..];
    intros [= <- <-]; cbn; split; (done || lia).
Qed.

Lemma thread_step_fuel t p w p' w1 :
  thread_step t p w = Some (p', w1) →
  Machine.beverages (machine w1) = Machine.beverages (machine w)
  ∧ (fuel (Machine.beverages (machine w)) p'
     < fuel (Machine.beverages (machine w)) p)%nat.
Proof.
  intros Hstep.
  destruct p as [choice|b s|b [|i rest]|b i rest|b i a rest|b i rest|b i s|b i|b s|];
    cbn in Hstep.
  - cbn [fuel].
    destruct (Machine.beverages (machine w) !! choice) as [[bn b]|]; [|done].
    cbn in Hstep.
    destruct (Beverage.isAvailable b); injection Hstep as <- <-; cbn;
      (split; [done|]); [|lia].
    unfold PyDict.keys, Beverage.getIngredients. rewrite length_fmap. lia.
  - destruct (print_block t w s _) as [[s' w']|] eqn:Hpb; [|done].
    injection Hstep as <- <-. apply print_block_fuel in Hpb as [? ?].
    split; [done|]. by destruct s'.
  - injection Hstep as <- <-. cbn. split; [done | lia].
  - destruct (locks w !! i); [done|]. injection Hstep as <- <-.
    cbn. split; [done | lia].
  - destruct (Machine.ingredients (machine w) !! i); [|done].
    injection Hstep as <- <-. cbn. split; [done | lia].
  - destruct (Beverage.getRequiredIngredientQuantity b i); [|done].
    cbn in Hstep. case_bool_decide.
    + destruct (Machine.ingredients (machine w) !! i); [|done].
      injection Hstep as <- <-. cbn. split; [done | lia].
    + injection Hstep as <- <-. cbn. split; [done | lia].
  - injection Hstep as <- <-. cbn. split; [done | lia].
  - destruct (Machine.ingredients (machine w) !! i); [|done]. cbn in Hstep.
    destruct (print_block t w s _) as [[s' w']|] eqn:Hpb; [|done].
    injection Hstep as <- <-. apply print_block_fuel in Hpb as [? ?].
    split; [done|]. destruct s'; cbn in *; lia.
  - injection Hstep as <- <-. cbn. split; [done | lia].
  - destruct (print_block t w s _) as [[s' w']|] eqn:Hpb; [|done].
    injection Hstep as <- <-. apply print_block_fuel in Hpb as [? ?].
    split; [done|]. by destruct s'.
  - done.
Qed.

Lemma sum_list_with_moved (f : pc → nat) (l : list pc) t p p' :
  l !! t = Some p →
  (sum_list_with f (<[t := p']> l) + f p = sum_list_with f l + f p')%nat.
Proof.
  intros Ht. rewrite <-(take_drop_middle l t p Ht) at 2.
  rewrite insert_take_drop by by eapply lookup_lt_Some.
  rewrite !sum_list_with_app. cbn. lia.
Qed.

Lemma step_total_fuel w t w' :
  step w t = Some w' → (total_fuel w' < total_fuel w)%nat.
Proof.
  intros (p & p' & w1 & Ht & Hstep & ->)%step_Some.
  destruct (thread_step_fuel _ _ _ _ _ Hstep) as [Hb Hlt].
  unfold total_fuel. cbn. rewrite Hb, (thread_step_threads _ _ _ _ _ Hstep).
  pose proof (sum_list_with_moved (fuel (Machine.beverages (machine w)))
                (threads w) t p p' Ht) as Hsum.
  lia.
Qed.

(** A ready attempt can execute its next statement. *)
Lemma ready_step w t p :
  inv w → threads w !! t = Some p → ready w p → is_Some (step w t).
Proof.
  intros Hinv Ht Hready. unfold step. rewrite Ht. cbn.
  pose proof (inv_pc w Hinv t p Ht) as Hok.
  assert (is_Some (thread_step t p w)) as [[p' w1] ->]; [|by eexists].
  destruct p as [choice|b s|b [|i rest]|b i rest|b i a rest|b i rest|b i s|b i|b s|];
    cbn in Hready, Hok |- *; try done.
  - destruct (lookup_lt_is_Some_2 _ _ Hok) as [[bn b] ->]. cbn.
    by destruct (Beverage.isAvailable b).
  - destruct s; cbn; rewrite ?Hready; done.
  - by rewrite Hready.
  - destruct (Hok i) as [[obj ->] _]; [left|]. done.
  - destruct (Hok i) as [[obj ->] [q Hq]]; [left|].
    unfold Beverage.getRequiredIngredientQuantity. rewrite Hq. cbn.
    by case_bool_decide.
  - destruct (Hok i) as [[obj ->] _]; [left|]. cbn.
    destruct s; cbn; rewrite ?Hready; done.
  - destruct s; cbn; rewrite ?Hready; done.
Qed.

(** As long as an attempt has not returned, some attempt is ready. *)
Lemma some_ready w :
  inv w → ¬ finished w → ∃ t p, threads w !! t = Some p ∧ ready w p.
Proof.
  intros Hinv Hnot.
  destruct (print_lock w) as [t|] eqn:Hprint.
  { (* the attempt inside [print_lock] goes on *)
    apply (inv_print w Hinv) in Hprint as (p & Ht & Hp).
    exists t, p. split; [done|].
    by destruct p as [|? []|? []| | | |? ? []| |? []|]. }
  destruct (decide (Exists (λ p, is_Some (holding p)) (threads w))) as [Hex|Hnone].
  { (* an attempt inside an ingredient's lock goes on *)
    apply Exists_exists in Hex as (p & Hin & Hhold).
    apply list_elem_of_lookup in Hin as [t Ht]. exists t, p. split; [done|].
    destruct p as [|? []|? []| | | |? ? []| |? []|]; try done;
      by destruct Hhold. }
  (* no attempt is inside any lock *)
  apply not_Forall_Exists in Hnot; [|apply _].
  apply Exists_exists in Hnot as (p & Hin & Hp). cbn in Hp.
  apply list_elem_of_lookup in Hin as [t Ht]. exists t, p. split; [done|].
  assert (holding p = None) as Hfree.
  { destruct (holding p) eqn:Hh; [|done]. exfalso. apply Hnone.
    apply Exists_exists. exists p. split; [by eapply list_elem_of_lookup_2|].
    by rewrite Hh. }
  destruct p as [|? []|? [|i rest]| | | |? ? []| |? []|]; try done.
  cbn. destruct (locks w !! i) as [t'|] eqn:Hl; [|done]. exfalso.
  apply (inv_locks w Hinv) in Hl as (p' & Hp' & Hh'). apply Hnone.
  apply Exists_exists. exists p'. split; [by eapply list_elem_of_lookup_2|].
  by rewrite Hh'.
Qed.

(** From any world that satisfies the invariant the attempts can all be
    brought to return. *)
Lemma can_finish w : inv w → ∃ schedule, finished (exec w schedule).
Proof.
  remember (total_fuel w) as n eqn:Hn. revert w Hn.
  induction n as [n IH] using lt_wf_ind. intros w -> Hinv.
  destruct (decide (finished w)) as [Hfin|Hnot]; [by exists []|].
  destruct (some_ready w Hinv Hnot) as (t & p & Ht & Hready).
  destruct (ready_step w t p Hinv Ht Hready) as [w' Hstep].
  destruct (IH (total_fuel w') (step_total_fuel _ _ _ Hstep) w' eq_refl)
    as [schedule Hfin]; [by eapply step_inv|].
  exists (t :: schedule). cbn. by rewrite Hstep.
Qed.

(** *** Quantities in a concurrent run *)

Lemma print_block_machine w t s line s' w1 :
  print_block t w s line = Some (s', w1) → machine w1 = machine w.
Proof.
  destruct s; cbn; [destruct (print_lock w); [done|]|..]; by intros [= <- <-].
Qed.

(** The only statement that changes a quantity is the update that follows a
    successful comparison. *)
Lemma thread_step_machine t p w p' w1 :
  thread_step t p w = Some (p', w1) →
  machine w1 = machine w
  ∨ ∃ b i a rest q obj,
      p = Checked b i a rest ∧ p' = Written b i rest
      ∧ Beverage.getRequiredIngredientQuantity b i = Some q ∧ q ≤ a
      ∧ Machine.ingredients (machine w) !! i = Some obj
      ∧ machine w1 =
          set_store (machine w)
            (<[i := Ingredient.setAvailableQuantity obj (a - q)]>
               (Machine.ingredients (machine w))).
Proof.
  intros Hstep.
  destruct p as [choice|b s|b [|i rest]|b i rest|b i a rest|b i rest|b i s|b i|b s|];
    cbn in Hstep.
  - destruct (Machine.beverages (machine w) !! choice) as [[bn b]|]; [|done].
    cbn in Hstep. left. by destruct (Beverage.isAvailable b); injection Hstep as <- <-.
  - destruct (print_block t w s _) as [[s' w']|] eqn:Hpb; [|done].
    injection Hstep as <- <-. left. by eapply print_block_machine.
  - left. by injection Hstep as <- <-.
  - destruct (locks w !! i); [done|]. left. by injection Hstep as <- <-.
  - destruct (Machine.ingredients (machine w) !! i); [|done].
    left. by injection Hstep as <- <-.
  - destruct (Beverage.getRequiredIngredientQuantity b i) as [q|] eqn:Hq; [|done].
    cbn in Hstep. case_bool_decide; [|left; by injection Hstep as <- <-].
    destruct (Machine.ingredients (machine w) !! i) as [obj|] eqn:Hobj; [|done].
    injection Hstep as <- <-. right. exists b, i, a, rest, q, obj.
    split_and!; [done..|lia|done|done].
  - left. by injection Hstep as <- <-.
  - destruct (Machine.ingredients (machine w) !! i); [|done]. cbn in Hstep.
    destruct (print_block t w s _) as [[s' w']|] eqn:Hpb; [|done].
    injection Hstep as <- <-. left. by eapply print_block_machine.
  - left. by injection Hstep as <- <-.
  - destruct (print_block t w s _) as [[s' w']|] eqn:Hpb; [|done].
    injection Hstep as <- <-. left. by eapply print_block_machine.
  - done.
Qed.

Lemma step_nonnegative w t w' :
  step w t = Some w' → nonnegative (machine w) → nonnegative (machine w').
Proof.
  intros (p & p' & w1 & Ht & Hstep & ->)%step_Some Hnn. cbn.
  destruct (thread_step_machine _ _ _ _ _ Hstep)
    as [->|(b & i & a & rest & q & obj & _ & _ & _ & Hle & _ & ->)]; [done|].
  apply (no_new_negative_nonnegative (machine w)); [|done]. cbn.
  intros j obj'. destruct (decide (i = j)) as [<-|Hne].
  - rewrite lookup_insert_eq. intros [= <-]. right. cbn. lia.
  - rewrite lookup_insert_ne by done. by left.
Qed.

Lemma exec_nonnegative w schedule :
  nonnegative (machine w) → nonnegative (machine (exec w schedule)).
Proof.
  revert w. induction schedule as [|t schedule IH]; intros w Hnn; [done|].
  cbn. apply IH. destruct (step w t) as [w'|] eqn:Hstep; [|done].
  by eapply step_nonnegative.
Qed.

(** An attempt holds at most one ingredient's lock. *)
Lemma inv_one_lock w t i j :
  inv w → locks w !! i = Some t → locks w !! j = Some t → i = j.
Proof.
  intros Hinv (p & Hp & Hi)%(inv_locks w Hinv) (p' & Hp' & Hj)%(inv_locks w Hinv).
  congruence.
Qed.

(** The update that follows a successful comparison takes the required
    quantity off the quantity the ingredient has at that moment. *)
Lemma checked_step w t b i a rest q :
  inv w → threads w !! t = Some (Checked b i a rest) →
  Beverage.getRequiredIngredientQuantity b i = Some q → q ≤ a →
  ∃ w', step w t = Some w'
      ∧ quantity (machine w) i = Some a
      ∧ quantity (machine w') i = Some (a - q)
      ∧ locks w' !! i = Some t.
Proof.
  intros Hinv Ht Hq Hle.
  pose proof (inv_checked w Hinv _ _ _ _ _ Ht) as Ha.
  pose proof Ha as (obj & Hobj & _)%quantity_Some.
  unfold step. rewrite Ht. cbn. rewrite Hq. cbn.
  rewrite bool_decide_true by lia. rewrite Hobj. cbn.
  eexists. split; [reflexivity|]. cbn. split_and!; [done| |].
  - unfold quantity. cbn. by rewrite lookup_insert_eq.
  - apply (inv_locks w Hinv). eauto.
Qed.
End steps.

(** *** The attempts one after the other *)

Lemma step_thread w t p p' w1 ths :
  threads w = <[t := p]> ths → (t < length ths)%nat →
  thread_step t p w = Some (p', w1) →
  step w t = Some (mkWorld (machine w1) (locks w1) (print_lock w1) (log w1)
                     (<[t := p']> ths)).
Proof.
  intros Hths Hlt Hstep. unfold step.
  assert (threads w !! t = Some p) as ->.
  { rewrite Hths. by apply list_lookup_insert_eq. }
  cbn. rewrite Hstep. cbn.
  by rewrite (thread_step_threads _ _ _ _ _ Hstep), Hths, list_insert_insert_eq.
Qed.

Lemma exec_thread w t p p' w1 ths schedule :
  threads w = <[t := p]> ths → (t < length ths)%nat →
  thread_step t p w = Some (p', w1) →
  exec w (t :: schedule)
  = exec (mkWorld (machine w1) (locks w1) (print_lock w1) (log w1)
            (<[t := p']> ths)) schedule.
Proof. intros Hths Hlt Hstep. cbn. by erewrite step_thread. Qed.

(** One statement of attempt [t], the side condition [thread_step ... = Some _]
    being computed after rewriting with the facts at hand. *)
Ltac solo_step tac :=
  rewrite ?replicate_S;
  erewrite exec_thread;
    [|reflexivity|done|cbn; tac; reflexivity];
  cbn [machine locks print_lock log threads release set_store
       Machine.num_outlets Machine.beverages Machine.ingredients].

Lemma solo_loop t ths b m :
  (t < length ths)%nat →
  ∀ keys store log0 store' evs made,
    Machine.make_loop b keys store = Some (store', evs, made) →
    ∃ n,
      exec (mkWorld (set_store m store) ∅ None log0 (<[t := Loop b keys]> ths))
        (replicate n t)
      = mkWorld (set_store m store') ∅ None (log0 ++ by_attempt t evs)
          (<[t := if made then Made b Waiting else Done]> ths).
Proof.
  intros Hlt keys. induction keys as [|i keys IH]; intros store log0 store' evs made.
  - cbn. intros [= <- <- <-]. exists 1%nat. solo_step idtac. by rewrite app_nil_r.
  - cbn [Machine.make_loop].
    destruct (store !! i) as [obj|] eqn:Hobj; [|done]. cbn [mbind option_bind].
    destruct (Beverage.getRequiredIngredientQuantity b i) as [q|] eqn:Hq; [|done].
    cbn [mbind option_bind]. case_bool_decide as Hge.
    + destruct (Machine.make_loop b keys _) as [[[store2 evs2] made2]|] eqn:Hrest;
        [|done]. cbn [mbind option_bind]. intros [= <- <- <-].
      destruct (IH _ (log0 ++ by_attempt t [Acquire i; Release i]) _ _ _ Hrest)
        as [n Hn].
      exists (S (S (S (S n)))).
      solo_step idtac.
      solo_step ltac:(rewrite Hobj).
      solo_step ltac:(rewrite Hq; cbn; rewrite bool_decide_true by done; rewrite Hobj).
      solo_step idtac.
      rewrite delete_insert_id by apply lookup_empty.
      change (set_store (set_store m store) ?s) with (set_store m s).
      replace ((log0 ++ [(t, Acquire i)]) ++ [(t, Release i)])
        with (log0 ++ by_attempt t [Acquire i; Release i])
        by (by rewrite <-app_assoc).
      rewrite Hn. f_equal. unfold by_attempt. by rewrite <-app_assoc.
    + intros [= <- <- <-]. exists 7%nat.
      solo_step idtac.
      solo_step ltac:(rewrite Hobj).
      solo_step ltac:(rewrite Hq; cbn; rewrite bool_decide_false by done).
      solo_step ltac:(rewrite Hobj).
      solo_step ltac:(rewrite Hobj).
      solo_step ltac:(rewrite Hobj).
      solo_step idtac.
      rewrite delete_insert_id by apply lookup_empty. cbn [replicate exec].
      f_equal. unfold by_attempt. cbn. by rewrite <-!app_assoc.
Qed.

(** An attempt that runs alone from a world in which no lock is held does
    what [Machine.make_beverage] does. *)
Lemma solo_attempt w t choice m' evs :
  threads w !! t = Some (Start choice) →
  locks w = ∅ → print_lock w = None →
  Machine.make_beverage (machine w) choice = Some (m', evs) →
  ∃ n,
    exec w (replicate n t)
    = mkWorld m' ∅ None (log w ++ by_attempt t evs) (<[t := Done]> (threads w)).
Proof.
  destruct w as [m lks pl log0 ths]. cbn. intros Ht -> ->.
  assert (t < length ths)%nat as Hlt by by eapply lookup_lt_Some.
  assert (mkWorld m ∅ None log0 ths
          = mkWorld m ∅ None log0 (<[t := Start choice]> ths)) as ->.
  { by rewrite list_insert_id. }
  unfold Machine.make_beverage.
  destruct (Machine.beverages m !! choice) as [[bn b]|] eqn:Hb; [|done].
  cbn [mbind option_bind].
  destruct (Beverage.isAvailable b) eqn:Havail; cbn [negb].
  - destruct (Machine.make_loop b _ _) as [[[store evs1] made]|] eqn:Hloop; [|done].
    cbn [mbind option_bind]. intros [= <- <-].
    destruct (solo_loop t ths b m Hlt _ _ log0 _ _ _ Hloop) as [n Hn].
    replace (set_store m (Machine.ingredients m)) with m in Hn by by destruct m.
    destruct made.
    + exists (S (n + 3))%nat.
      solo_step ltac:(rewrite Hb; cbn; rewrite Havail).
      rewrite replicate_add, exec_app, Hn.
      solo_step idtac. solo_step idtac. solo_step idtac.
      cbn [replicate exec]. f_equal. unfold by_attempt.
      rewrite fmap_app, <-!app_assoc. done.
    + exists (S n). solo_step ltac:(rewrite Hb; cbn; rewrite Havail).
      rewrite Hn. by rewrite app_nil_r.
  - intros [= <- <-]. exists 4%nat.
    solo_step ltac:(rewrite Hb; cbn; rewrite Havail).
    solo_step idtac. solo_step idtac. solo_step idtac.
    cbn [replicate exec]. f_equal. unfold by_attempt. cbn. by rewrite <-!app_assoc.
Qed.

(** The attempts of a run executed one after the other are one of its
    schedules. *)
Lemma sequential_schedule choices k m log0 m' evs :
  apply_ops m (OpMake <$> choices) = Some (m', evs) →
  ∃ schedule log',
    exec (mkWorld m ∅ None log0 (replicate k Done ++ (Start <$> choices))) schedule
    = mkWorld m' ∅ None log' (replicate (k + length choices) Done)
    ∧ printed log'.*2 = printed log0.*2 ++ printed evs.
Proof.
  revert k m log0 evs. induction choices as [|c choices IH]; intros k m log0 evs.
  - cbn. intros [= <- <-]. exists [], log0. cbn.
    by rewrite !app_nil_r, Nat.add_0_r.
  - cbn [fmap list_fmap apply_ops apply_op].
    destruct (Machine.make_beverage m c) as [[m1 evs1]|] eqn:Hmake; [|done].
    cbn [mbind option_bind].
    destruct (apply_ops m1 _) as [[m2 evs2]|] eqn:Hops; [|done].
    cbn [mbind option_bind]. intros [= <- <-].
    destruct (solo_attempt
                (mkWorld m ∅ None log0 (replicate k Done ++ Start c :: (Start <$> choices)))
                k c m1 evs1) as [n Hn]; [|done..|].
    { cbn. rewrite lookup_app_r by by rewrite length_replicate.
      by rewrite length_replicate, Nat.sub_diag. }
    cbn [log threads] in Hn.
    rewrite insert_app_r_alt in Hn by by rewrite length_replicate.
    rewrite length_replicate, Nat.sub_diag in Hn. cbn [insert list_insert] in Hn.
    rewrite (cons_middle Done), app_assoc, <-replicate_S_end in Hn.
    destruct (IH (S k) m1 (log0 ++ by_attempt k evs1) evs2 Hops)
      as (schedule & log' & Hexec & Hlog).
    exists (replicate n k ++ schedule), log'. rewrite exec_app, Hn, Hexec.
    split; [f_equal; f_equal; cbn; lia|].
    rewrite Hlog. pose proof (printed_by_attempt k evs1) as Hk.
    unfold printed in *. by rewrite fmap_app, !omap_app, Hk, app_assoc.
Qed.

Lemma run_sequential_is_a_schedule m rnd m' evs :
  run_sequential m rnd = Some (m', evs) →
  ∃ schedule,
    finished (exec (init_world m rnd) schedule)
    ∧ machine (exec (init_world m rnd) schedule) = m'
    ∧ output (exec (init_world m rnd) schedule) = printed evs.
Proof.
  intros Hrun.
  destruct (sequential_schedule _ 0 m [] m' evs Hrun)
    as (schedule & log' & Hexec & Hlog).
  exists schedule. unfold init_world. cbn [replicate app] in Hexec.
  rewrite Hexec. split_and!; [|done..].
  unfold finished. cbn. by apply Forall_replicate.
Qed.

End ConcFacts.

(** ** One attempt of a concurrent run *)

Lemma line_prepared_not_not_available (b : Beverage.t) : line_prepared b ≠ line_not_available b.
Proof.
  unfold line_prepared, line_not_available. intros H.
  apply String.app_inj in H. discriminate.
Qed.

Lemma line_prepared_not_insufficient (b : Beverage.t) (n : string) :
  line_prepared b ≠ line_insufficient b n.
Proof.
  unfold line_prepared, line_insufficient. intros H.
  apply String.app_inj in H. discriminate.
Qed.

Lemma exec_beverages (w : Conc.World) (schedule : list nat) :
  Machine.beverages (Conc.machine (Conc.exec w schedule))
  = Machine.beverages (Conc.machine w).
Proof.
  revert w. induction schedule as [|t schedule IH]; intros w; [done|].
  cbn. rewrite IH. destruct (Conc.step w t) as [w'|] eqn:Hstep; [|done].
  apply ConcFacts.step_Some in Hstep as (p & p' & w1 & _ & Hstep & ->).
  by destruct (ConcFacts.thread_step_fuel _ _ _ _ _ Hstep).
Qed.

Module ConcHistFacts.
Import Conc ConcInv ConcFacts ConcHist.

Lemma world_at_snoc_le w0 s t' k :
  (k ≤ length s)%nat → world_at w0 (s ++ [t']) k = world_at w0 s k.
Proof. intros Hk. unfold world_at. by rewrite take_app_le. Qed.

Lemma world_at_ge w0 s k : (length s ≤ k)%nat → world_at w0 s k = exec w0 s.
Proof. intros Hk. unfold world_at. by rewrite take_ge. Qed.

Lemma world_at_snoc w0 s t' k :
  ∃ k', world_at w0 (s ++ [t']) k' = world_at w0 s k.
Proof.
  destruct (decide (k ≤ length s)%nat) as [Hk|Hk].
  - exists k. by apply world_at_snoc_le.
  - exists (length s). rewrite world_at_snoc_le by done.
    rewrite !world_at_ge by lia. done.
Qed.

Lemma takes_at_snoc w0 s t' t b k i :
  takes_at w0 s t b k i → takes_at w0 (s ++ [t']) t b k i.
Proof.
  intros [Hk Hdec]. pose proof (lookup_lt_Some _ _ _ Hk) as Hlt. split.
  - by rewrite lookup_app_l.
  - rewrite !world_at_snoc_le by lia. done.
Qed.

Lemma failed_check_snoc w0 s t' t b i :
  failed_check w0 s t b i → failed_check w0 (s ++ [t']) t b i.
Proof.
  intros (k & a & rest & Hk & Hlt).
  destruct (world_at_snoc w0 s t' k) as [k' Hk'].
  exists k', a, rest. by rewrite Hk'.
Qed.

(** A move that is not a move of [t], or that leaves the machine as it
    was. *)
Lemma taken_by_snoc_frame w0 s t' t b done_keys ks :
  taken_by w0 s t b done_keys ks →
  (t' = t → machine (exec w0 (s ++ [t'])) = machine (exec w0 s)) →
  taken_by w0 (s ++ [t']) t b done_keys ks.
Proof.
  intros [Hmoves Hsorted Hframe] Hsame. constructor; [|done|].
  - eapply Forall2_impl; [done|]. intros k i. apply takes_at_snoc.
  - intros k Hk Hnot. pose proof (lookup_lt_Some _ _ _ Hk) as Hlt.
    rewrite length_app in Hlt. cbn in Hlt.
    destruct (decide (k < length s)%nat) as [Hks|Hks].
    + rewrite lookup_app_l in Hk by done.
      rewrite !world_at_snoc_le by lia. by apply Hframe.
    + assert (k = length s) as -> by lia.
      rewrite lookup_app_r, Nat.sub_diag in Hk by lia. injection Hk as ->.
      rewrite (world_at_snoc_le w0 s t (length s)) by lia.
      rewrite (world_at_ge w0 (s ++ [t])) by (rewrite length_app; cbn; lia).
      rewrite world_at_ge by lia. by apply Hsame.
Qed.

(** A move of [t] that takes [i]. *)
Lemma taken_by_snoc_take w0 s t b done_keys ks i :
  taken_by w0 s t b done_keys ks →
  decrements (machine (exec w0 s)) (machine (exec w0 (s ++ [t]))) i (required b i) →
  taken_by w0 (s ++ [t]) t b (done_keys ++ [i]) (ks ++ [length s]).
Proof.
  intros [Hmoves Hsorted Hframe] Hdec.
  assert (∀ k, k ∈ ks → (k < length s)%nat) as Hbound.
  { intros k Hk. apply list_elem_of_lookup in Hk as [n Hn].
    destruct (Forall2_lookup_l _ _ _ _ _ Hmoves Hn) as (j & _ & Hk & _).
    by eapply lookup_lt_Some. }
  constructor.
  - apply Forall2_app.
    + eapply Forall2_impl; [done|]. intros k j. apply takes_at_snoc.
    + constructor; [|constructor]. split.
      * by rewrite lookup_app_r, Nat.sub_diag by lia.
      * rewrite (world_at_snoc_le w0 s t (length s)) by lia.
        rewrite (world_at_ge w0 (s ++ [t])) by (rewrite length_app; cbn; lia).
        by rewrite world_at_ge by lia.
  - apply StronglySorted_app_2; [|done|repeat constructor].
    intros k1 k2 Hk1 ->%list_elem_of_singleton. by apply Hbound.
  - intros k Hk Hnot. pose proof (lookup_lt_Some _ _ _ Hk) as Hlt.
    rewrite length_app in Hlt. cbn in Hlt.
    apply not_elem_of_app in Hnot as [Hnot Hne].
    rewrite list_elem_of_singleton in Hne.
    rewrite lookup_app_l in Hk by lia.
    rewrite !world_at_snoc_le by lia. by apply Hframe.
Qed.

Lemma output_of_snoc (w : World) t t0 evs log' :
  log' = log w ++ by_attempt t evs →
  printed (filter (λ te : nat * Event, te.1 = t0) log').*2
  = output_of w t0 ++ (if decide (t0 = t) then printed evs else []).
Proof.
  intros ->. unfold output_of. rewrite filter_app.
  unfold printed. rewrite fmap_app, omap_app. f_equal.
  case_decide as Ht.
  - subst. rewrite filter_by_attempt_eq. apply printed_by_attempt.
  - by rewrite filter_by_attempt_ne.
Qed.

Lemma print_block_events w t s line s' w1 :
  print_block t w s line = Some (s', w1) →
  machine w1 = machine w
  ∧ s' = match s with
         | Waiting => Some Printing
         | Printing => Some Printed
         | Printed => None
         end
  ∧ ∃ evs, log w1 = log w ++ by_attempt t evs
         ∧ printed evs = match s with Printing => [line] | _ => [] end.
Proof.
  destruct s; cbn; [destruct (print_lock w); [done|]|..]; intros [= <- <-];
    (split; [done|]); (split; [done|]); eexists [_]; by split.
Qed.

(** One statement of an attempt: what it adds to the log, what it does to
    the machine, and where the attempt stands afterwards. *)
Lemma thread_step_log t p w p' w1 :
  thread_step t p w = Some (p', w1) → ∃ evs, log w1 = log w ++ by_attempt t evs.
Proof.
  intros Hstep.
  destruct p as [c|b s|b [|i rest]|b i rest|b i a rest|b i rest|b i s|b i|b s|];
    cbn in Hstep.
  - destruct (Machine.beverages _ !! c) as [[??]|]; [|done]. cbn in Hstep.
    exists []. rewrite app_nil_r.
    by destruct (Beverage.isAvailable _); injection Hstep as <- <-.
  - destruct (print_block t _ s _) as [[s' w']|] eqn:Hpb; [|done].
    injection Hstep as <- <-.
    destruct (print_block_events _ _ _ _ _ _ Hpb) as (_ & _ & evs & ? & _).
    by exists evs.
  - injection Hstep as <- <-. exists []. by rewrite app_nil_r.
  - destruct (locks _ !! i); [done|]. injection Hstep as <- <-.
    by exists [Acquire i].
  - destruct (Machine.ingredients _ !! i); [|done].
    injection Hstep as <- <-. exists []. by rewrite app_nil_r.
  - destruct (Beverage.getRequiredIngredientQuantity b i); [|done].
    cbn in Hstep. exists []. rewrite app_nil_r. case_bool_decide.
    + destruct (Machine.ingredients _ !! i); [|done].
      by injection Hstep as <- <-.
    + by injection Hstep as <- <-.
  - injection Hstep as <- <-. by exists [Release i].
  - destruct (Machine.ingredients _ !! i); [|done]. cbn in Hstep.
    destruct (print_block t _ s _) as [[s' w']|] eqn:Hpb; [|done].
    injection Hstep as <- <-.
    destruct (print_block_events _ _ _ _ _ _ Hpb) as (_ & _ & evs & ? & _).
    by exists evs.
  - injection Hstep as <- <-. by exists [Release i].
  - destruct (print_block t _ s _) as [[s' w']|] eqn:Hpb; [|done].
    injection Hstep as <- <-.
    destruct (print_block_events _ _ _ _ _ _ Hpb) as (_ & _ & evs & ? & _).
    by exists evs.
  - done.
Qed.

Ltac no_event :=
  exists []; split; [by cbn; rewrite ?app_nil_r|];
  change (printed []) with (@nil string); rewrite ?app_nil_r.

Ltac one_event e :=
  exists [e]; split; [done|];
  change (printed [e]) with (@nil string); rewrite ?app_nil_r.

Lemma thread_step_attempt w t choice bn b done_keys out failed p p' w1 :
  inv w →
  Machine.beverages (machine w) !! choice = Some (bn, b) →
  threads w !! t = Some p →
  attempt_state choice b done_keys out failed p →
  thread_step t p w = Some (p', w1) →
  ∃ evs,
    log w1 = log w ++ by_attempt t evs
    ∧ ((machine w1 = machine w
        ∧ attempt_state choice b done_keys (out ++ printed evs)
            (λ i, failed i ∨ ∃ a rest, p = Checked b i a rest ∧ a < required b i)
            p')
       ∨ (∃ i, decrements (machine w) (machine w1) i (required b i)
             ∧ attempt_state choice b (done_keys ++ [i]) (out ++ printed evs)
                 failed p')).
Proof.
  intros Hinv Hb Ht Hst Hstep.
  destruct p as [c|b' s|b' [|i rest]|b' i rest|b' i a rest|b' i rest|b' i s|b' i|b' s|];
    cbn in Hstep, Hst.
  - destruct Hst as (-> & -> & ->). rewrite Hb in Hstep. cbn in Hstep.
    destruct (Beverage.isAvailable b) eqn:Hav; injection Hstep as <- <-;
      no_event; left; (split; [done|]); cbn; by rewrite ?Hav.
  - destruct Hst as (-> & Hav & -> & ->).
    destruct (print_block t w s _) as [[s' w']|] eqn:Hpb; [|done].
    injection Hstep as <- <-.
    destruct (print_block_events _ _ _ _ _ _ Hpb) as (Hm & -> & evs & Hlog & Hpr).
    exists evs. split; [done|]. left. split; [done|]. rewrite Hpr.
    destruct s; cbn; auto.
  - destruct Hst as (-> & Hav & Hkeys & ->). injection Hstep as <- <-.
    no_event. left. split; [done|].
    cbn. rewrite app_nil_r in Hkeys. done.
  - destruct Hst as (-> & Hav & Hkeys & ->).
    destruct (locks w !! i); [done|]. injection Hstep as <- <-.
    one_event (Acquire i). left. split; [done|]. by cbn.
  - destruct Hst as (-> & Hav & Hkeys & ->).
    destruct (Machine.ingredients (machine w) !! i); [|done].
    injection Hstep as <- <-.
    no_event. left. split; [done|]. by cbn.
  - destruct Hst as (-> & Hav & Hkeys & ->).
    destruct (Beverage.getRequiredIngredientQuantity b i) as [q|] eqn:Hq; [|done].
    assert (required b i = q) as Hreq by (unfold required; by rewrite Hq).
    cbn in Hstep. case_bool_decide as Hle.
    + destruct (Machine.ingredients (machine w) !! i) as [obj|] eqn:Hobj; [|done].
      injection Hstep as <- <-.
      no_event. right. exists i.
      pose proof (inv_checked w Hinv _ _ _ _ _ Ht) as Ha.
      unfold quantity in Ha. rewrite Hobj in Ha. injection Ha as Ha.
      split.
      * exists obj. rewrite Hreq, Ha. split_and!; [done|lia|done].
      * cbn. split_and!; [done|done| |by exists done_keys|done].
        by rewrite <-app_assoc.
    + injection Hstep as <- <-.
      no_event. left. split; [done|].
      cbn. split_and!; [done|by exists rest| |done].
      right. exists a, rest. split; [done|lia].
  - destruct Hst as (-> & Hav & Hkeys & Hpre & ->). injection Hstep as <- <-.
    one_event (Release i). left. split; [done|]. by cbn.
  - destruct Hst as (-> & Hpost & Hfailed & ->).
    destruct (Machine.ingredients (machine w) !! i) as [obj|] eqn:Hobj; [|done].
    cbn in Hstep.
    destruct (print_block t w s _) as [[s' w']|] eqn:Hpb; [|done].
    injection Hstep as <- <-.
    destruct (print_block_events _ _ _ _ _ _ Hpb) as (Hm & -> & evs & Hlog & Hpr).
    exists evs. split; [done|]. left. split; [done|]. rewrite Hpr.
    unfold Ingredient.getName. rewrite (wf_name _ (inv_wf w Hinv) i obj Hobj).
    destruct s; cbn; auto.
  - destruct Hst as (-> & Hpost & Hfailed & ->). injection Hstep as <- <-.
    one_event (Release i). left. split; [done|]. cbn.
    right. right. destruct Hpost as [post Hpost]. exists i, post. auto.
  - destruct Hst as (-> & Hav & -> & ->).
    destruct (print_block t w s _) as [[s' w']|] eqn:Hpb; [|done].
    injection Hstep as <- <-.
    destruct (print_block_events _ _ _ _ _ _ Hpb) as (Hm & -> & evs & Hlog & Hpr).
    exists evs. split; [done|]. left. split; [done|]. rewrite Hpr.
    destruct s; cbn; auto.
  - done.
Qed.

Lemma attempt_state_failed choice b done_keys out (failed failed' : string → Prop) p :
  (∀ i, failed i → failed' i) →
  attempt_state choice b done_keys out failed p →
  attempt_state choice b done_keys out failed' p.
Proof.
  intros Himp.
  destruct p as [c|b' s|b' rest|b' i rest|b' i a rest|b' i rest|b' i s|b' i|b' s|];
    cbn; try done.
  - intros (? & ? & ? & ?). auto.
  - intros (? & ? & ? & ?). auto.
  - intros [?|[?|(i & post & ? & ? & ?)]]; [by left|by right; left|].
    right. right. exists i, post. auto.
Qed.

(** Where an attempt of a run stands, and what it has done to the machine
    so far. *)
Lemma attempt_history m rnd schedule t bn b p :
  wf m →
  (∀ index, (rnd index < length (Machine.beverages m))%nat) →
  Machine.beverages m !! rnd t = Some (bn, b) →
  threads (exec (init_world m rnd) schedule) !! t = Some p →
  ∃ done_keys ks,
    taken_by (init_world m rnd) schedule t b done_keys ks
    ∧ attempt_state (rnd t) b done_keys
        (output_of (exec (init_world m rnd) schedule) t)
        (failed_check (init_world m rnd) schedule t b) p.
Proof.
  intros Hwf Hrnd Hb. revert p.
  induction schedule as [|t' s IH] using rev_ind; intros p Hp.
  - exists [], []. split.
    + constructor; [constructor|constructor|]. intros k. by rewrite lookup_nil.
    + cbn in Hp. rewrite !list_lookup_fmap in Hp.
      destruct (seq _ _ !! t) as [c|] eqn:Hc; [|done]. injection Hp as <-.
      apply lookup_seq in Hc as [-> _]. by cbn.
  - set (w0 := init_world m rnd) in *.
    pose proof (exec_inv w0 s (init_world_inv m rnd Hwf Hrnd)) as Hinv.
    assert (Machine.beverages (machine (exec w0 s)) = Machine.beverages m) as Hbevs.
    { apply (exec_beverages w0 s). }
    rewrite exec_app in Hp |- *. cbn [exec] in Hp |- *.
    destruct (step (exec w0 s) t') as [w'|] eqn:Hstep; cbn [default from_option id] in Hp |- *.
    2:{ destruct (IH p Hp) as (done_keys & ks & Htaken & Hst).
        exists done_keys, ks. split.
        - apply taken_by_snoc_frame; [done|]. intros _.
          rewrite exec_app. cbn. by rewrite Hstep.
        - eapply attempt_state_failed; [|done].
          intros i. apply failed_check_snoc. }
    apply step_Some in Hstep as (p0 & p0' & w1 & Ht' & Hstep & ->).
    pose proof (thread_step_threads _ _ _ _ _ Hstep) as Hths.
    cbn [threads] in Hp. rewrite Hths in Hp.
    destruct (decide (t' = t)) as [->|Hne].
    + rewrite (lookup_moved_eq _ _ _ _ Ht') in Hp. injection Hp as <-.
      destruct (IH p0 Ht') as (done_keys & ks & Htaken & Hst).
      rewrite <-Hbevs in Hb.
      destruct (thread_step_attempt _ _ _ _ _ _ _ _ _ _ _ Hinv Hb Ht' Hst Hstep)
        as (evs & Hlog & [[Hm Hst']|(i & Hdec & Hst')]).
      * exists done_keys, ks. split.
        -- apply taken_by_snoc_frame; [done|]. intros _.
           rewrite exec_app. cbn [exec]. unfold step. rewrite Ht'. cbn.
           rewrite Hstep. by cbn.
        -- unfold output_of at 1. cbn [log].
           rewrite (output_of_snoc _ t t evs _ Hlog), decide_True by done.
           eapply attempt_state_failed; [|done]. cbn.
           intros i [Hf|(a & rest & -> & Hlt)]; [by apply failed_check_snoc|].
           exists (length s), a, rest.
           by rewrite world_at_snoc_le, world_at_ge by lia.
      * exists (done_keys ++ [i]), (ks ++ [length s]). split.
        -- apply taken_by_snoc_take; [done|].
           rewrite exec_app. cbn [exec]. unfold step. rewrite Ht'. cbn.
           rewrite Hstep. by cbn.
        -- unfold output_of at 1. cbn [log].
           rewrite (output_of_snoc _ t t evs _ Hlog), decide_True by done.
           eapply attempt_state_failed; [|done].
           intros j. apply failed_check_snoc.
    + rewrite list_lookup_insert_ne in Hp by done.
      destruct (IH p Hp) as (done_keys & ks & Htaken & Hst).
      exists done_keys, ks. split.
      * apply taken_by_snoc_frame; [done|]. by intros ->.
      * destruct (thread_step_log _ _ _ _ _ Hstep) as [evs Hlog].
        unfold output_of at 1. cbn [log].
        rewrite (output_of_snoc _ t' t evs _ Hlog), decide_False, app_nil_r by done.
        eapply attempt_state_failed; [|done].
        intros j. apply failed_check_snoc.
Qed.

(** An attempt that has read less than required stops for it. *)
Lemma doomed_snoc m rnd s t' t bn b :
  wf m →
  (∀ index, (rnd index < length (Machine.beverages m))%nat) →
  Machine.beverages m !! rnd t = Some (bn, b) →
  doomed (exec (init_world m rnd) s) t b →
  doomed (exec (init_world m rnd) (s ++ [t'])) t b.
Proof.
  intros Hwf Hrnd Hb Hd. set (w0 := init_world m rnd) in *.
  rewrite exec_app. cbn [exec].
  destruct (step (exec w0 s) t') as [w'|] eqn:Hstep; [|done].
  cbn [default from_option id].
  apply step_Some in Hstep as (p0 & p0' & w1 & Ht' & Hstep & ->).
  pose proof (thread_step_threads _ _ _ _ _ Hstep) as Hths.
  destruct (thread_step_log _ _ _ _ _ Hstep) as [evs Hlog].
  unfold doomed in Hd |- *. cbn [threads]. rewrite Hths.
  destruct (decide (t' = t)) as [->|Hne].
  - rewrite (lookup_moved_eq _ _ _ _ Ht'). rewrite Ht' in Hd.
    destruct (attempt_history m rnd s t bn b p0 Hwf Hrnd Hb Ht')
      as (done_keys & ks & _ & Hst).
    destruct p0 as [c|b' s0|b' rest|b' i rest|b' i a rest|b' i rest
                   |b' i s0|b' i|b' s0|]; try done; cbn in Hstep, Hst.
    + destruct (Beverage.getRequiredIngredientQuantity b' i) as [q|] eqn:Hq;
        [|done].
      assert (required b' i = q) as Hreq by (unfold required; by rewrite Hq).
      cbn in Hstep. rewrite bool_decide_eq_false_2 in Hstep by lia.
      by injection Hstep as <- <-.
    + destruct (Machine.ingredients _ !! i); [|done]. cbn in Hstep.
      destruct (print_block t _ s0 _) as [[[s'|] w']|]; [| |done];
        by injection Hstep as <- <-.
    + destruct Hst as (-> & _ & _ & Hout).
      injection Hstep as <- <-. exists i.
      unfold output_of at 1. cbn [log release].
      rewrite (output_of_snoc _ t t [Release i] _ eq_refl), decide_True by done.
      cbn. by rewrite app_nil_r.
  - rewrite list_lookup_insert_ne by done.
    destruct (threads (exec w0 s) !! t) as [[]|]; try done.
    destruct Hd as [i Hi]. exists i.
    unfold output_of at 1. cbn [log].
    by rewrite (output_of_snoc _ t' t evs _ Hlog), decide_False, app_nil_r.
Qed.

Lemma doomed_exec m rnd s rest t bn b :
  wf m →
  (∀ index, (rnd index < length (Machine.beverages m))%nat) →
  Machine.beverages m !! rnd t = Some (bn, b) →
  doomed (exec (init_world m rnd) s) t b →
  doomed (exec (init_world m rnd) (s ++ rest)) t b.
Proof.
  intros Hwf Hrnd Hb Hd. induction rest as [|t' rest IH] using rev_ind.
  - by rewrite app_nil_r.
  - rewrite app_assoc. by eapply doomed_snoc.
Qed.

(** The attempts that have returned and printed the line of a prepared
    beverage are those on an available beverage all of whose checks
    passed. *)
Lemma returned_prepared_iff m rnd schedule t bn b :
  wf m →
  (∀ index, (rnd index < length (Machine.beverages m))%nat) →
  Machine.beverages m !! rnd t = Some (bn, b) →
  threads (exec (init_world m rnd) schedule) !! t = Some Done →
  output_of (exec (init_world m rnd) schedule) t = [line_prepared b] ↔
  Beverage.isAvailable b = true ∧ checks_pass (init_world m rnd) schedule t.
Proof.
  intros Hwf Hrnd Hb Hdone.
  destruct (attempt_history m rnd schedule t bn b _ Hwf Hrnd Hb Hdone)
    as (done_keys & ks & Htaken & Hst).
  cbn in Hst. split.
  - intros Hout. rewrite Hout in Hst.
    assert (Beverage.isAvailable b = true) as Hav.
    { destruct Hst as [(_ & _ & [= Hl])|[(? & _)|(i & post & _ & _ & [= Hl])]];
        [|done|].
      - by apply line_prepared_not_not_available in Hl.
      - by apply line_prepared_not_insufficient in Hl. }
    split; [done|]. intros k.
    destruct (threads (world_at _ schedule k) !! t) as [p|] eqn:Hp; [|done].
    cbn. destruct p as [| | | |b' i a rest| | | | |]; try done. cbn.
    apply bool_decide_eq_true. destruct (decide (required b' i ≤ a)); [done|].
    exfalso.
    assert (doomed (exec (init_world m rnd) (take k schedule ++ drop k schedule)) t b)
      as Hd.
    { apply (doomed_exec m rnd _ _ t bn b Hwf Hrnd Hb).
      unfold doomed. unfold world_at in Hp. rewrite Hp. lia. }
    rewrite take_drop in Hd. unfold doomed in Hd. rewrite Hdone in Hd.
    destruct Hd as [j Hj]. rewrite Hout in Hj. injection Hj as Hj.
    by apply line_prepared_not_insufficient in Hj.
  - intros [Hav Hpass].
    destruct Hst as [(Hno & _)|[(_ & _ & Hout)|(i & post & _ & Hfail & _)]].
    + congruence.
    + done.
    + destruct Hfail as (k & a & rest & Hk & Hlt). specialize (Hpass k).
      rewrite Hk in Hpass. cbn in Hpass. apply bool_decide_eq_true in Hpass. lia.
Qed.

Lemma string_length_app (s1 s2 : string) :
  String.length (s1 +:+ s2) = (String.length s1 + String.length s2)%nat.
Proof.
  induction s1 as [|c s1 IH]; [done|].
  change (String c s1 +:+ s2) with (String c (s1 +:+ s2)). cbn. by f_equal.
Qed.

Lemma string_app_inv_tail (s1 s2 suffix : string) :
  s1 +:+ suffix = s2 +:+ suffix → s1 = s2.
Proof.
  revert s2. induction s1 as [|c s1 IH]; intros [|c' s2] H.
  - done.
  - apply (f_equal String.length) in H.
    rewrite !string_length_app in H. cbn in H. lia.
  - apply (f_equal String.length) in H.
    rewrite !string_length_app in H. cbn in H. lia.
  - change (String c (s1 +:+ suffix) = String c' (s2 +:+ suffix)) in H.
    injection H as -> H. f_equal. by apply IH.
Qed.

Lemma line_insufficient_inj b i j :
  line_insufficient b i = line_insufficient b j → i = j.
Proof.
  unfold line_insufficient. intros H.
  apply String.app_inj in H. apply (String.app_inj " cannot be prepared as ") in H.
  by apply string_app_inv_tail in H.
Qed.

Lemma line_insufficient_not_not_available b i :
  line_insufficient b i ≠ line_not_available b.
Proof.
  unfold line_insufficient, line_not_available. intros H.
  apply String.app_inj in H. discriminate.
Qed.

Lemma checks_pass_bounded w0 schedule t :
  forallb (λ k, from_option check_passes true
                  (threads (world_at w0 schedule k) !! t))
    (seq 0 (S (length schedule))) = true →
  checks_pass w0 schedule t.
Proof.
  intros H k. rewrite forallb_forall in H.
  destruct (decide (k ≤ length schedule)%nat) as [Hk|Hk].
  - apply H. apply in_seq. lia.
  - rewrite world_at_ge by lia. rewrite <-(world_at_ge w0 schedule (length schedule)) by lia.
    apply H. apply in_seq. lia.
Qed.
End ConcHistFacts.

(** ** The example machines *)

Lemma tea_machine_init : Machine.init tea_data = inr tea_machine.
Proof. vm_compute. reflexivity. Qed.

Lemma low_milk_machine_init : Machine.init low_milk_data = inr low_milk_machine.
Proof. vm_compute. reflexivity. Qed.

Lemma green_tea_machine_init : Machine.init green_tea_data = inr green_tea_machine.
Proof. vm_compute. reflexivity. Qed.

Lemma tea_machine_wf : wf tea_machine.
Proof. exact (proj1 (Machine_init_inr _ _ tea_machine_init)). Qed.

Lemma low_milk_machine_wf : wf low_milk_machine.
Proof. exact (proj1 (Machine_init_inr _ _ low_milk_machine_init)). Qed.

Lemma green_tea_machine_wf : wf green_tea_machine.
Proof. exact (proj1 (Machine_init_inr _ _ green_tea_machine_init)). Qed.

(** Two attempts at a tea, one after the other: the first is prepared, the
    second takes the remaining water and then finds no milk. *)
Example tea_run_sequential :
  ∃ m',
    run_sequential tea_machine (λ _, 0%nat)
    = Some (m',
            [Acquire "hot_water"; Release "hot_water";
             Acquire "hot_milk"; Release "hot_milk";
             AcquirePrint; Print "tea has been prepared"; ReleasePrint;
             Acquire "hot_water"; Release "hot_water";
             Acquire "hot_milk"; AcquirePrint;
             Print "tea cannot be prepared as hot_milk is not sufficiennt";
             ReleasePrint; Release "hot_milk"])
    ∧ quantity m' "hot_water" = Some 0
    ∧ quantity m' "hot_milk" = Some 0.
Proof. eexists. split_and!; vm_compute; reflexivity. Qed.

(** The two attempts in turn, three moves each: the first is inside the
    lock of the water and has read 100, the second waits at the loop. *)
Example tea_run_interleaved :
  let w := Conc.exec (Conc.init_world tea_machine (λ _, 0%nat))
             [0; 1; 0; 1; 0; 1]%nat in
  Conc.threads w
  = [Conc.Checked tea "hot_water" 100 ["hot_milk"];
     Conc.Loop tea ["hot_water"; "hot_milk"]]
  ∧ Conc.locks w !! "hot_water" = Some 0%nat
  ∧ Conc.locks w !! "hot_milk" = None
  ∧ Conc.log w = [(0%nat, Acquire "hot_water")].
Proof. split_and!; vm_compute; reflexivity. Qed.

(** The first attempt alone, then the second: a finished run. *)
Example tea_run_finished :
  let w := Conc.exec (Conc.init_world tea_machine (λ _, 0%nat))
             (replicate 13 0 ++ replicate 12 1)%nat in
  Conc.threads w = [Conc.Done; Conc.Done]
  ∧ Conc.output w
    = ["tea has been prepared";
       "tea cannot be prepared as hot_milk is not sufficiennt"]
  ∧ quantity (Conc.machine w) "hot_water" = Some 0
  ∧ quantity (Conc.machine w) "hot_milk" = Some 0.
Proof. split_and!; vm_compute; reflexivity. Qed.

(** ** The attempt *)

Section attempt_claims.
Implicit Types (m : Machine.t) (b : Beverage.t).

Lemma sufficient_of_quantities m bn b (keys : list string) :
  wf m → (bn, b) ∈ Machine.beverages m →
  (∀ i, i ∈ keys → i ∈ PyDict.keys (Beverage.ingredients b)) →
  (∀ i q a, i ∈ keys → (i, q) ∈ Beverage.ingredients b →
     quantity m i = Some a → q ≤ a) →
  ∀ i, i ∈ keys → sufficient (Machine.ingredients m) b i.
Proof.
  intros Hwf Hin Hkeys Hsuff i Hi.
  destruct (wf_refs m Hwf bn b i Hin (Hkeys i Hi)) as [obj Hobj].
  destruct (proj2 (get_is_Some (Beverage.ingredients b) i) (Hkeys i Hi)) as [q Hq].
  exists obj, q. split_and!; [done..|].
  apply (Hsuff i q); [done|by apply get_elem_of|].
  apply quantity_Some. eauto.
Qed.

Lemma decremented_quantity m m' bn b i q :
  wf m → (bn, b) ∈ Machine.beverages m → (i, q) ∈ Beverage.ingredients b →
  (∀ obj q0, Machine.ingredients m !! i = Some obj →
     PyDict.get (Beverage.ingredients b) i = Some q0 →
     Machine.ingredients m' !! i = Some (decremented obj q0)) →
  ∃ a, quantity m i = Some a ∧ quantity m' i = Some (a - q).
Proof.
  intros Hwf Hin Hiq Hdec.
  assert (i ∈ PyDict.keys (Beverage.ingredients b)) as Hi.
  { apply list_elem_of_fmap. by exists (i, q). }
  destruct (wf_refs m Hwf bn b i Hin Hi) as [obj Hobj].
  pose proof (elem_of_get _ _ _ (wf_nodup m Hwf bn b Hin) Hiq) as Hq.
  exists (Ingredient.available_quantity obj). unfold quantity.
  by rewrite Hobj, (Hdec obj q Hobj Hq).
Qed.
End attempt_claims.

(** A call that runs alone, on an available beverage all of whose
    ingredients are there in at least the required quantity when it begins:
    every ingredient is taken under its lock in the order fixed at
    construction, its quantity goes down by exactly the required quantity,
    no other quantity changes, and the one line printed is
    "<beverage name> has been prepared".  A beverage names each ingredient
    once, so for such a call the quantity an ingredient has when it is
    checked is the one it had when the call began. *)
Lemma prepared_alone (m : Machine.t) (choice : nat)
    (bn : string) (b : Beverage.t) :
  wf m →
  Machine.beverages m !! choice = Some (bn, b) →
  Beverage.isAvailable b = true →
  (∀ i q a, (i, q) ∈ Beverage.ingredients b → quantity m i = Some a → q ≤ a) →
  ∃ m' evs,
    Machine.make_beverage m choice = Some (m', evs)
    ∧ evs = (PyDict.keys (Beverage.ingredients b) ≫= taken)
            ++ [AcquirePrint; Print (bn +:+ " has been prepared"); ReleasePrint]
    ∧ printed evs = [bn +:+ " has been prepared"]
    ∧ (∀ i q, (i, q) ∈ Beverage.ingredients b →
         ∃ a, quantity m i = Some a ∧ quantity m' i = Some (a - q))
    ∧ (∀ i, i ∉ PyDict.keys (Beverage.ingredients b) →
         Machine.ingredients m' !! i = Machine.ingredients m !! i).
Proof.
  intros Hwf Hb Havail Hsuff.
  assert ((bn, b) ∈ Machine.beverages m) as Hin by by eapply list_elem_of_lookup_2.
  pose proof (wf_beverage_name m Hwf bn b Hin) as Hname.
  destruct (make_loop_prefix b (PyDict.keys (Beverage.ingredients b)) []
              (Machine.ingredients m)) as (store1 & Hother & Hpre & Hloop).
  { by eapply wf_nodup. }
  { eapply sufficient_of_quantities; eauto. }
  rewrite app_nil_r in Hloop. cbn in Hloop.
  unfold Machine.make_beverage. rewrite Hb. cbn [mbind option_bind].
  rewrite Havail. cbn [negb]. unfold Beverage.getIngredients. rewrite Hloop.
  cbn [mbind option_bind]. unfold Beverage.getName. rewrite Hname.
  eexists _, _. split; [reflexivity|]. rewrite app_nil_r. split_and!; [done| |..].
  - unfold printed. rewrite omap_app. fold (printed (PyDict.keys (Beverage.ingredients b) ≫= taken)).
    by rewrite printed_taken.
  - intros i q Hiq. eapply decremented_quantity; [done..|]. cbn.
    intros obj q0 Hobj Hq0. apply Hpre; [|done..].
    apply list_elem_of_fmap. by exists (i, q).
  - intros i Hi. cbn. by apply Hother.
Qed.

(** C1: an available beverage each of whose ingredients is there in at
    least the required quantity at the time it is checked is prepared.  For a
    call that runs alone the quantities checked are those the call starts
    from: every ingredient is taken in the order fixed at construction, its
    quantity goes down by exactly the required quantity, no other quantity
    changes, and the one line printed is "<beverage name> has been prepared".
    For an attempt of a concurrent run, however the attempts are
    interleaved, that has returned and has read, whenever it read a
    quantity, at least the required one: the one line it has printed is
    "<beverage name> has been prepared", it has taken every ingredient of
    the beverage in that order, each at a move of its own that lowered the
    quantity then in the machine by exactly the required quantity and
    changed nothing else, and no other move of it has changed the
    machine. *)
Theorem make_beverage_prepared (m : Machine.t) (rnd : nat → nat) :
  wf m →
  (∀ index, (rnd index < length (Machine.beverages m))%nat) →
  (∀ choice bn b,
     Machine.beverages m !! choice = Some (bn, b) →
     Beverage.isAvailable b = true →
     (∀ i q a, (i, q) ∈ Beverage.ingredients b → quantity m i = Some a → q ≤ a) →
     ∃ m' evs,
       Machine.make_beverage m choice = Some (m', evs)
       ∧ evs = (PyDict.keys (Beverage.ingredients b) ≫= taken)
               ++ [AcquirePrint; Print (bn +:+ " has been prepared"); ReleasePrint]
       ∧ printed evs = [bn +:+ " has been prepared"]
       ∧ (∀ i q, (i, q) ∈ Beverage.ingredients b →
            ∃ a, quantity m i = Some a ∧ quantity m' i = Some (a - q))
       ∧ (∀ i, i ∉ PyDict.keys (Beverage.ingredients b) →
            Machine.ingredients m' !! i = Machine.ingredients m !! i))
  ∧ (∀ schedule t bn b,
       Machine.beverages m !! rnd t = Some (bn, b) →
       Beverage.isAvailable b = true →
       Conc.threads (Conc.exec (Conc.init_world m rnd) schedule) !! t
       = Some Conc.Done →
       ConcHist.checks_pass (Conc.init_world m rnd) schedule t →
       ConcInv.output_of (Conc.exec (Conc.init_world m rnd) schedule) t
       = [bn +:+ " has been prepared"]
       ∧ ∃ ks,
           ConcHist.taken_by (Conc.init_world m rnd) schedule t b
             (PyDict.keys (Beverage.ingredients b)) ks).
Proof.
  intros Hwf Hrnd. split.
  - intros choice bn b. by apply prepared_alone.
  - intros schedule t bn b Hb Hav Hdone Hpass.
    destruct (ConcHistFacts.attempt_history m rnd schedule t bn b _ Hwf Hrnd Hb Hdone)
      as (done_keys & ks & Htaken & Hst).
    cbn in Hst.
    destruct Hst as [(Hno & _)|[(_ & -> & Hout)|(i & post & _ & Hfail & _)]].
    + congruence.
    + split; [|by exists ks]. rewrite Hout. unfold line_prepared.
      by rewrite (wf_beverage_name m Hwf bn b (list_elem_of_lookup_2 _ _ _ Hb)).
    + destruct Hfail as (k & a & rest & Hk & Hlt). specialize (Hpass k).
      rewrite Hk in Hpass. cbn in Hpass. apply bool_decide_eq_true in Hpass. lia.
Qed.

(** C1, on the tea machine: alone, 50 of 100 water and 50 of 50 milk are
    taken; and in a run of two attempts at a tea, interleaved, the first
    takes both and reports the tea. *)
Lemma make_beverage_prepared_witness :
  (∃ m' evs,
     Machine.make_beverage tea_machine 0 = Some (m', evs)
     ∧ evs = (PyDict.keys (Beverage.ingredients tea) ≫= taken)
             ++ [AcquirePrint; Print ("tea" +:+ " has been prepared"); ReleasePrint]
     ∧ printed evs = ["tea" +:+ " has been prepared"]
     ∧ (∀ i q, (i, q) ∈ Beverage.ingredients tea →
          ∃ a, quantity tea_machine i = Some a ∧ quantity m' i = Some (a - q))
     ∧ (∀ i, i ∉ PyDict.keys (Beverage.ingredients tea) →
          Machine.ingredients m' !! i = Machine.ingredients tea_machine !! i))
  ∧ (ConcInv.output_of
       (Conc.exec (Conc.init_world tea_machine (λ _, 0%nat)) tea_schedule) 0
     = ["tea" +:+ " has been prepared"]
     ∧ ∃ ks,
         ConcHist.taken_by (Conc.init_world tea_machine (λ _, 0%nat))
           tea_schedule 0 tea (PyDict.keys (Beverage.ingredients tea)) ks).
Proof.
  destruct (make_beverage_prepared tea_machine (λ _, 0%nat)) as [Halone Hrun].
  - exact tea_machine_wf.
  - intros _. cbn. lia.
  - split.
    + apply (Halone 0%nat "tea" tea).
      * reflexivity.
      * reflexivity.
      * intros i q a Hin.
        repeat (apply elem_of_cons in Hin as [[= -> ->]|Hin]);
          [vm_compute; intros [= <-]; discriminate..|].
        by apply elem_of_nil in Hin.
    + apply (Hrun tea_schedule 0%nat "tea" tea).
      * reflexivity.
      * reflexivity.
      * vm_compute. reflexivity.
      * apply ConcHistFacts.checks_pass_bounded. vm_compute. reflexivity.
Defined.

(** A call that runs alone and stops at an ingredient that is not there in
    sufficient quantity: the ingredients visited before it stay decremented
    by their required quantities, and the quantity of the ingredient it stops
    at and of those after it is what it was. *)
Lemma no_rollback_alone (m : Machine.t) (choice : nat)
    (bn : string) (b : Beverage.t)
    (pre : list string) (i : string) (post : list string) (q a : Z) :
  wf m →
  Machine.beverages m !! choice = Some (bn, b) →
  Beverage.isAvailable b = true →
  PyDict.keys (Beverage.ingredients b) = pre ++ i :: post →
  (∀ j qj aj, j ∈ pre → (j, qj) ∈ Beverage.ingredients b →
     quantity m j = Some aj → qj ≤ aj) →
  (i, q) ∈ Beverage.ingredients b → quantity m i = Some a → a < q →
  ∃ m' evs,
    Machine.make_beverage m choice = Some (m', evs)
    ∧ printed evs = [line_insufficient b i]
    ∧ (∀ j qj, j ∈ pre → (j, qj) ∈ Beverage.ingredients b →
         ∃ aj, quantity m j = Some aj ∧ quantity m' j = Some (aj - qj))
    ∧ quantity m' i = Some a
    ∧ (∀ j, j ∈ post → quantity m' j = quantity m j).
Proof.
  intros Hwf Hb Havail Hkeys Hsuff Hiq Ha Hlt.
  assert ((bn, b) ∈ Machine.beverages m) as Hin by by eapply list_elem_of_lookup_2.
  pose proof (wf_nodup m Hwf bn b Hin) as Hnd. rewrite Hkeys in Hnd.
  apply NoDup_app in Hnd as (Hnd_pre & Hdisj & [Hi_post _]%NoDup_cons).
  assert (i ∉ pre) as Hi_pre.
  { intros Hi. apply (Hdisj i Hi). left. }
  destruct (make_loop_prefix b pre (i :: post) (Machine.ingredients m))
    as (store1 & Hother & Hpre & Hloop); [done| |].
  { eapply sufficient_of_quantities; eauto.
    intros j Hj. rewrite Hkeys. apply elem_of_app. by left. }
  apply quantity_Some in Ha as (obj & Hobj & <-).
  assert (PyDict.get (Beverage.ingredients b) i = Some q) as Hq.
  { apply elem_of_get; [|done]. by eapply wf_nodup. }
  rewrite (make_loop_insufficient b i post store1 obj q) in Hloop;
    [|by rewrite Hother|done..].
  cbn [mbind option_bind] in Hloop.
  unfold Machine.make_beverage. rewrite Hb. cbn [mbind option_bind].
  rewrite Havail. cbn [negb]. unfold Beverage.getIngredients.
  rewrite Hkeys, Hloop. cbn [mbind option_bind].
  eexists _, _. split; [reflexivity|]. rewrite app_nil_r. split_and!.
  - unfold printed. rewrite omap_app. fold (printed (pre ≫= taken)).
    rewrite printed_taken. cbn. unfold line_insufficient.
    by rewrite (wf_name m Hwf i obj Hobj).
  - intros j qj Hj Hjq. eapply decremented_quantity; [done..|]. cbn.
    intros objj q0 Hobjj Hq0. by apply Hpre.
  - unfold quantity. cbn. by rewrite Hother, Hobj.
  - intros j Hj. unfold quantity. cbn. rewrite Hother; [done|].
    intros Hjpre. apply (Hdisj j Hjpre). by right.
Qed.

(** C6: when an attempt stops at an ingredient that is not there in
    sufficient quantity, the ingredients visited before it stay decremented
    by their required quantities, and the ingredient it stops at and those
    after it are not changed by the attempt.  For a call that runs alone
    the quantities afterwards are given outright.  For an attempt of a
    concurrent run, however the attempts are interleaved, that has stopped
    at an ingredient: it read of that ingredient less than required, it has
    taken the ingredients before it, in order, each at a move of its own
    that lowered the quantity then in the machine by exactly the required
    quantity and changed nothing else, and no other move of it, before or
    after it stopped, has changed the machine. *)
Theorem make_beverage_no_rollback (m : Machine.t) (rnd : nat → nat) :
  wf m →
  (∀ index, (rnd index < length (Machine.beverages m))%nat) →
  (∀ choice bn b pre i post q a,
     Machine.beverages m !! choice = Some (bn, b) →
     Beverage.isAvailable b = true →
     PyDict.keys (Beverage.ingredients b) = pre ++ i :: post →
     (∀ j qj aj, j ∈ pre → (j, qj) ∈ Beverage.ingredients b →
        quantity m j = Some aj → qj ≤ aj) →
     (i, q) ∈ Beverage.ingredients b → quantity m i = Some a → a < q →
     ∃ m' evs,
       Machine.make_beverage m choice = Some (m', evs)
       ∧ printed evs = [line_insufficient b i]
       ∧ (∀ j qj, j ∈ pre → (j, qj) ∈ Beverage.ingredients b →
            ∃ aj, quantity m j = Some aj ∧ quantity m' j = Some (aj - qj))
       ∧ quantity m' i = Some a
       ∧ (∀ j, j ∈ post → quantity m' j = quantity m j))
  ∧ (∀ schedule t bn b i,
       Machine.beverages m !! rnd t = Some (bn, b) →
       ConcHist.aborted_at (Conc.exec (Conc.init_world m rnd) schedule) t b i →
       ∃ pre post ks,
         PyDict.keys (Beverage.ingredients b) = pre ++ i :: post
         ∧ NoDup (pre ++ i :: post)
         ∧ ConcHist.failed_check (Conc.init_world m rnd) schedule t b i
         ∧ ConcHist.taken_by (Conc.init_world m rnd) schedule t b pre ks).
Proof.
  intros Hwf Hrnd. split.
  - intros choice bn b pre i post q a. by apply no_rollback_alone.
  - intros schedule t bn b i Hb Habort. unfold ConcHist.aborted_at in Habort.
    destruct (Conc.threads _ !! t) as [p|] eqn:Hp; [|done].
    destruct (ConcHistFacts.attempt_history m rnd schedule t bn b p Hwf Hrnd Hb Hp)
      as (done_keys & ks & Htaken & Hst).
    pose proof (wf_nodup m Hwf bn b (list_elem_of_lookup_2 _ _ _ Hb)) as Hnd.
    destruct p; try done; cbn in Hst.
    + destruct Habort as [-> ->]. destruct Hst as (_ & [post Hkeys] & Hfail & _).
      exists done_keys, post, ks. by rewrite <-Hkeys.
    + destruct Habort as [-> ->]. destruct Hst as (_ & [post Hkeys] & Hfail & _).
      exists done_keys, post, ks. by rewrite <-Hkeys.
    + rewrite Habort in Hst.
      destruct Hst as [(_ & _ & [= Hl])|[(_ & _ & [= Hl])
                      |(j & post & Hkeys & Hfail & [= Hl])]].
      * by apply ConcHistFacts.line_insufficient_not_not_available in Hl.
      * symmetry in Hl. by apply line_prepared_not_insufficient in Hl.
      * apply ConcHistFacts.line_insufficient_inj in Hl as ->.
        exists done_keys, post, ks. by rewrite <-Hkeys.
Qed.

(** C6, on the machine with too little milk: alone, the water taken for
    the tea stays taken, the milk is what it was; and on the tea machine,
    in a run of two attempts at a tea, interleaved, the second takes the
    water and stops at the milk, which the first has taken. *)
Lemma make_beverage_no_rollback_witness :
  (∃ m' evs,
     Machine.make_beverage low_milk_machine 0 = Some (m', evs)
     ∧ printed evs = [line_insufficient tea "hot_milk"]
     ∧ (∀ j qj, j ∈ ["hot_water"] → (j, qj) ∈ Beverage.ingredients tea →
          ∃ aj, quantity low_milk_machine j = Some aj
              ∧ quantity m' j = Some (aj - qj))
     ∧ quantity m' "hot_milk" = Some 10
     ∧ (∀ j, j ∈ [] → quantity m' j = quantity low_milk_machine j))
  ∧ (∃ pre post ks,
       PyDict.keys (Beverage.ingredients tea) = pre ++ "hot_milk" :: post
       ∧ NoDup (pre ++ "hot_milk" :: post)
       ∧ ConcHist.failed_check (Conc.init_world tea_machine (λ _, 0%nat))
           tea_schedule 1 tea "hot_milk"
       ∧ ConcHist.taken_by (Conc.init_world tea_machine (λ _, 0%nat))
           tea_schedule 1 tea pre ks).
Proof.
  split.
  - destruct (make_beverage_no_rollback low_milk_machine (λ _, 0%nat))
      as [Halone _].
    + exact low_milk_machine_wf.
    + intros _. cbn. lia.
    + apply (Halone 0%nat "tea" tea ["hot_water"] "hot_milk" [] 50 10).
      * reflexivity.
      * reflexivity.
      * reflexivity.
      * intros j qj aj ->%list_elem_of_singleton Hin.
        repeat (apply elem_of_cons in Hin as [[= ->]|Hin]);
          [vm_compute; intros [= <-]; discriminate|by apply elem_of_nil in Hin].
      * right. left.
      * reflexivity.
      * lia.
  - destruct (make_beverage_no_rollback tea_machine (λ _, 0%nat))
      as [_ Hrun].
    + exact tea_machine_wf.
    + intros _. cbn. lia.
    + apply (Hrun tea_schedule 1%nat "tea" tea "hot_milk").
      * reflexivity.
      * vm_compute. reflexivity.
Defined.

(** The line of an insufficient ingredient is not the line with the word
    "sufficient", whatever the beverage and the ingredient. *)
Lemma line_insufficient_misspelt (b : Beverage.t) (i : string) :
  line_insufficient b i
  ≠ Beverage.name b +:+ " cannot be prepared as " +:+ i +:+ " is not sufficient".
Proof.
  unfold line_insufficient. intros H.
  apply String.app_inj in H. apply (String.app_inj " cannot be prepared as ") in H.
  apply String.app_inj in H. discriminate.
Qed.

(** C2: with 10 of the 50 milk a tea requires, the attempt takes the water,
    stops at the milk, leaves the milk's lock, visits nothing further, and
    prints one line; the line ends in "is not sufficiennt", not in
    "is not sufficient". *)
Theorem make_beverage_insufficient_line :
  ∃ m',
    Machine.make_beverage low_milk_machine 0
      = Some (m',
              [Acquire "hot_water"; Release "hot_water";
               Acquire "hot_milk"; AcquirePrint;
               Print "tea cannot be prepared as hot_milk is not sufficiennt";
               ReleasePrint; Release "hot_milk"])
    ∧ "tea cannot be prepared as hot_milk is not sufficiennt"
      ≠ "tea cannot be prepared as hot_milk is not sufficient".
Proof. eexists. split; [vm_compute; reflexivity | discriminate]. Qed.

(** ** Construction and refill *)

Lemma Machine_init_store (data : Input.Data) (section : Input.MachineSection)
    (input_items : list (string * Z)) (m : Machine.t) :
  Input.machine data = Some section →
  Input.total_items_quantity section = Some input_items →
  Machine.init data = inr m →
  ∀ i, Machine.ingredients m !! i = Ingredient.init i <$> PyDict.get input_items i.
Proof.
  intros Hsec Hitems Hinit.
  destruct (Machine_init_inr data m Hinit) as [_ (items' & bevs' & Hbuilt)].
  destruct (built_items _ _ _ _ Hbuilt) as (section' & Hsec' & Hitems' & _).
  assert (items' = input_items) as <- by congruence.
  apply (built_store _ _ _ _ Hbuilt).
Qed.

Lemma Machine_init_beverage (data : Input.Data) (section : Input.MachineSection)
    (input_items : list (string * Z))
    (beverage_items : list (string * list (string * Z)))
    (m : Machine.t) (bn : string) (b : Beverage.t) :
  Input.machine data = Some section →
  Input.total_items_quantity section = Some input_items →
  Input.beverages section = Some beverage_items →
  Machine.init data = inr m →
  (bn, b) ∈ Machine.beverages m →
  ∃ recipe,
    PyDict.get beverage_items bn = Some recipe
    ∧ Beverage.name b = bn
    ∧ Beverage.unavailable_ingredients b
        = filter (λ i, i ∉ PyDict.keys input_items) (PyDict.keys recipe).
Proof.
  intros Hsec Hitems Hbevs Hinit Hin.
  pose proof (Machine_init_store data section input_items m Hsec Hitems Hinit)
    as Hstore.
  destruct (Machine_init_inr data m Hinit) as [_ (items' & bevs' & Hbuilt)].
  destruct (built_items _ _ _ _ Hbuilt) as (section' & Hsec' & _ & Hbevs').
  assert (bevs' = beverage_items) as -> by congruence.
  pose proof (proj1 (Forall_forall _ _) (built_beverages _ _ _ _ Hbuilt) _ Hin)
    as (recipe & Hrecipe & Hb). cbn in Hrecipe, Hb.
  destruct (Beverage_init_spec bn recipe (Machine.ingredients m))
    as (b' & Hb' & Hname & Hun & _).
  assert (b' = b) as -> by congruence.
  exists recipe. split_and!; [done..|]. rewrite Hun. unfold missing_from.
  apply list_filter_iff. intros i. rewrite Hstore, <-get_is_Some.
  by rewrite fmap_is_Some.
Qed.

(** C3, as stated, fails: a refill with a negative quantity leaves that
    quantity in a machine all of whose quantities were non-negative. *)
Lemma refill_negative_quantity :
  Machine.init tea_data = inr tea_machine
  ∧ nonnegative tea_machine
  ∧ quantity (Machine.refill tea_machine "hot_water" (-1)).1 "hot_water"
    = Some (-1)
  ∧ ¬ nonnegative (Machine.refill tea_machine "hot_water" (-1)).1.
Proof.
  split_and!.
  - exact tea_machine_init.
  - intros i a (obj & Hobj & <-)%quantity_Some.
    unfold tea_machine in Hobj. cbn in Hobj.
    apply lookup_insert_Some in Hobj as [[_ <-]|[_ Hobj]]; [cbn; lia|].
    apply lookup_singleton_Some in Hobj as [_ <-]. cbn. lia.
  - reflexivity.
  - intros Hnn. specialize (Hnn "hot_water" (-1) eq_refl). lia.
Qed.

(** C3, amended: when the quantities of the input are non-negative and no
    refill is given a negative quantity, no quantity is negative after
    construction, after any sequence of attempts, refills and queries, and in
    any world of a concurrent run started after such a sequence. *)
Theorem quantities_stay_nonnegative (data : Input.Data)
    (section : Input.MachineSection) (input_items : list (string * Z))
    (m : Machine.t) (ops : list Op) :
  Input.machine data = Some section →
  Input.total_items_quantity section = Some input_items →
  (∀ i v, (i, v) ∈ input_items → 0 ≤ v) →
  Machine.init data = inr m →
  Forall (valid_op m) ops →
  Forall refills_nonnegative ops →
  nonnegative m
  ∧ ∃ m' evs,
      apply_ops m ops = Some (m', evs)
      ∧ nonnegative m'
      ∧ ∀ rnd schedule,
          nonnegative (Conc.machine (Conc.exec (Conc.init_world m' rnd) schedule)).
Proof.
  intros Hsec Hitems Hnn Hinit Hvalid Hrefills.
  assert (nonnegative m) as Hm.
  { intros i a (obj & Hobj & <-)%quantity_Some.
    rewrite (Machine_init_store data section input_items m Hsec Hitems Hinit)
      in Hobj.
    destruct (PyDict.get input_items i) as [v|] eqn:Hv; [|done].
    injection Hobj as <-. cbn. apply (Hnn i). by apply get_elem_of. }
  split; [done|].
  destruct (apply_ops_total m ops (proj1 (Machine_init_inr _ _ Hinit)) Hvalid)
    as (m' & evs & Hops & _ & Hnn' & _).
  exists m', evs. split_and!; [done|by apply Hnn'|].
  intros rnd schedule. apply ConcFacts.exec_nonnegative. cbn. by apply Hnn'.
Qed.

(** C3, amended, on the tea machine: two attempts, a refill and a query. *)
Lemma quantities_stay_nonnegative_witness :
  nonnegative tea_machine
  ∧ ∃ m' evs,
      apply_ops tea_machine
        [OpMake 0; OpMake 0; OpRefill "hot_milk" 500; OpQuery "hot_milk"]
        = Some (m', evs)
      ∧ nonnegative m'
      ∧ ∀ rnd schedule,
          nonnegative (Conc.machine (Conc.exec (Conc.init_world m' rnd) schedule)).
Proof.
  apply (quantities_stay_nonnegative tea_data tea_section
           [("hot_water", 100); ("hot_milk", 50)]).
  - reflexivity.
  - reflexivity.
  - intros i v Hin.
    repeat (apply elem_of_cons in Hin as [[= -> ->]|Hin]); [lia..|].
    by apply elem_of_nil in Hin.
  - exact tea_machine_init.
  - repeat (apply Forall_cons_2; [cbn; first [lia | exact I]|]). apply Forall_nil_2.
  - repeat (apply Forall_cons_2; [cbn; first [lia | exact I]|]). apply Forall_nil_2.
Defined.

(** C4, as stated, fails: with no outlet and no beverage the failure is the
    one for the outlets, not the one for the beverages. *)
Lemma init_no_outlet_no_beverage :
  (∃ section, Input.machine no_outlet_no_beverage_data = Some section
            ∧ Input.beverages section = Some [])
  ∧ Machine.init no_outlet_no_beverage_data = inl InvalidNumOutletsError
  ∧ Machine.init no_outlet_no_beverage_data ≠ inl NoBeverageError.
Proof. split_and!; [by eexists|reflexivity|discriminate]. Qed.

(** C4, amended: an outlet count that is not positive fails with
    [InvalidNumOutletsError] whatever the other fields are, present or not; a
    positive outlet count with an empty beverage mapping fails with
    [NoBeverageError] whatever the quantities are; the two errors differ. *)
Theorem init_errors (data : Input.Data) (section : Input.MachineSection)
    (o : Input.Outlets) (n : Z) :
  Input.machine data = Some section →
  Input.outlets section = Some o →
  Input.count_n o = Some n →
  (n ≤ 0 → Machine.init data = inl InvalidNumOutletsError)
  ∧ (0 < n →
     ∀ input_items,
       Input.total_items_quantity section = Some input_items →
       Input.beverages section = Some [] →
       Machine.init data = inl NoBeverageError)
  ∧ InvalidNumOutletsError ≠ NoBeverageError.
Proof.
  intros Hsec Hout Hn. unfold Machine.init, field. rewrite Hsec.
  cbn [mbind Error_bind]. rewrite Hout. cbn [mbind Error_bind]. rewrite Hn.
  cbn [mbind Error_bind]. split_and!; [| |done].
  - intros Hle. by rewrite bool_decide_true.
  - intros Hlt input_items Hitems Hbevs. rewrite bool_decide_false by lia.
    rewrite Hitems. cbn [mbind Error_bind].
    destruct (getIngredients_spec input_items) as (store & -> & _).
    cbn [mbind Error_bind]. by rewrite Hbevs.
Qed.

(** C4, amended, on the two inputs without a beverage. *)
Lemma init_errors_witness :
  Machine.init no_outlet_no_beverage_data = inl InvalidNumOutletsError
  ∧ Machine.init no_beverage_data = inl NoBeverageError.
Proof.
  split.
  - refine (proj1 (init_errors no_outlet_no_beverage_data
                     no_outlet_no_beverage_section {| Input.count_n := Some 0 |} 0
                     eq_refl eq_refl eq_refl) _). lia.
  - refine (proj1 (proj2 (init_errors no_beverage_data
                            no_beverage_section {| Input.count_n := Some 1 |} 1
                            eq_refl eq_refl eq_refl)) _ _ eq_refl eq_refl). lia.
Defined.

(** C5: a beverage whose recipe names an ingredient that the input does not
    list reports, at every attempt made after any sequence of operations, the
    line "<name> cannot be prepared because <names> not available", the names
    being those of the recipe that the input does not list, in the order of
    the recipe and joined by ", "; the attempt changes nothing in the machine
    and enters no ingredient's lock. *)
Theorem make_beverage_not_available (data : Input.Data)
    (section : Input.MachineSection) (input_items : list (string * Z))
    (beverage_items : list (string * list (string * Z)))
    (m : Machine.t) (ops : list Op) (m1 : Machine.t) (evs1 : list Event)
    (choice : nat) (bn : string) (b : Beverage.t) (recipe : list (string * Z)) :
  Input.machine data = Some section →
  Input.total_items_quantity section = Some input_items →
  Input.beverages section = Some beverage_items →
  Machine.init data = inr m →
  apply_ops m ops = Some (m1, evs1) →
  Machine.beverages m1 !! choice = Some (bn, b) →
  PyDict.get beverage_items bn = Some recipe →
  (∃ i, i ∈ PyDict.keys recipe ∧ i ∉ PyDict.keys input_items) →
  ∃ evs,
    Machine.make_beverage m1 choice = Some (m1, evs)
    ∧ evs = [AcquirePrint;
             Print (bn +:+ " cannot be prepared because "
                    +:+ String.concat ", "
                          (filter (λ i, i ∉ PyDict.keys input_items)
                             (PyDict.keys recipe))
                    +:+ " not available");
             ReleasePrint]
    ∧ Forall (λ e, is_Acquire e = false) evs.
Proof.
  intros Hsec Hitems Hbevs Hinit Hops Hb Hrecipe (i & Hi & Hmissing).
  pose proof (proj1 (Machine_init_inr _ _ Hinit)) as Hwf.
  pose proof (apply_ops_same_shape m ops m1 evs1 Hwf Hops) as Hshape.
  assert ((bn, b) ∈ Machine.beverages m) as Hin.
  { rewrite <-(shape_beverages _ _ Hshape). by eapply list_elem_of_lookup_2. }
  destruct (Machine_init_beverage data section input_items beverage_items m bn b
              Hsec Hitems Hbevs Hinit Hin) as (recipe' & Hrecipe' & Hname & Hun).
  assert (recipe' = recipe) as -> by congruence.
  assert (Beverage.isAvailable b = false) as Havail.
  { unfold Beverage.isAvailable. apply bool_decide_eq_false. rewrite Hun.
    intros Hlen. apply length_zero_iff_nil in Hlen.
    assert (i ∈ filter (λ i, i ∉ PyDict.keys input_items) (PyDict.keys recipe))
      as Hf by by apply list_elem_of_filter.
    rewrite Hlen in Hf. by apply elem_of_nil in Hf. }
  unfold Machine.make_beverage. rewrite Hb. cbn [mbind option_bind].
  rewrite Havail. cbn [negb].
  unfold Beverage.getName, Beverage.getUnavailableIngredients.
  rewrite Hname, Hun. eexists. split_and!; [reflexivity..|].
  by repeat constructor.
Qed.

(** C5, on the machine without ginger syrup and green mixture. *)
Lemma make_beverage_not_available_witness :
  ∃ evs,
    Machine.make_beverage green_tea_machine 0 = Some (green_tea_machine, evs)
    ∧ evs = [AcquirePrint;
             Print ("green_tea" +:+ " cannot be prepared because "
                    +:+ String.concat ", "
                          (filter (λ i, i ∉ PyDict.keys [("hot_water", 500)])
                             (PyDict.keys
                                [("ginger_syrup", 30); ("hot_water", 100);
                                 ("green_mixture", 30)]))
                    +:+ " not available");
             ReleasePrint]
    ∧ Forall (λ e, is_Acquire e = false) evs.
Proof.
  apply (make_beverage_not_available green_tea_data green_tea_section
           [("hot_water", 500)]
           [("green_tea",
             [("ginger_syrup", 30); ("hot_water", 100); ("green_mixture", 30)])]
           green_tea_machine [] green_tea_machine [] 0 "green_tea" green_tea).
  - reflexivity.
  - reflexivity.
  - reflexivity.
  - exact green_tea_machine_init.
  - reflexivity.
  - reflexivity.
  - reflexivity.
  - exists "ginger_syrup". split; [left|].
    intros Hin. apply list_elem_of_singleton in Hin. discriminate.
Defined.

(** C8: a refill of an ingredient the machine has sets its quantity to the
    given one, whatever it was: the availability read next is that quantity,
    and every other ingredient is what it was. *)
Theorem refill_overwrites (m : Machine.t) (ingredient_name : string) (q : Z) :
  is_Some (Machine.ingredients m !! ingredient_name) →
  (Machine.getIngredientAvailability
     (Machine.refill m ingredient_name q).1 ingredient_name).1 = Some q
  ∧ quantity (Machine.refill m ingredient_name q).1 ingredient_name = Some q
  ∧ (∀ other, other ≠ ingredient_name →
       Machine.ingredients (Machine.refill m ingredient_name q).1 !! other
       = Machine.ingredients m !! other)
  ∧ Machine.beverages (Machine.refill m ingredient_name q).1 = Machine.beverages m
  ∧ printed (Machine.refill m ingredient_name q).2
    = ["Updated " +:+ ingredient_name +:+ "'s available quantity to " +:+ pretty q].
Proof.
  intros [obj Hobj]. unfold Machine.refill, Machine.getIngredientAvailability,
    quantity. rewrite Hobj. cbn. rewrite lookup_insert_eq. cbn.
  split_and!; [done..| |done|done].
  intros other Hne. by rewrite lookup_insert_ne.
Qed.

(** C8, on the tea machine: the 50 of milk become 1000, not 1050. *)
Lemma refill_overwrites_witness :
  (Machine.getIngredientAvailability
     (Machine.refill tea_machine "hot_milk" 1000).1 "hot_milk").1 = Some 1000
  ∧ quantity (Machine.refill tea_machine "hot_milk" 1000).1 "hot_milk" = Some 1000
  ∧ (∀ other, other ≠ "hot_milk" →
       Machine.ingredients (Machine.refill tea_machine "hot_milk" 1000).1 !! other
       = Machine.ingredients tea_machine !! other)
  ∧ Machine.beverages (Machine.refill tea_machine "hot_milk" 1000).1
    = Machine.beverages tea_machine
  ∧ printed (Machine.refill tea_machine "hot_milk" 1000).2
    = ["Updated " +:+ "hot_milk" +:+ "'s available quantity to " +:+ pretty 1000].
Proof.
  apply (refill_overwrites tea_machine "hot_milk" 1000).
  vm_compute. eexists. reflexivity.
Defined.

(** C10: a refill of an ingredient the machine does not have returns without
    an error, leaves the machine as it is and prints
    "<name> cannot be refilled as it is not available". *)
Theorem refill_unknown (m : Machine.t) (ingredient_name : string) (q : Z) :
  Machine.ingredients m !! ingredient_name = None →
  Machine.refill m ingredient_name q
  = (m, [Print (ingredient_name +:+ " cannot be refilled as it is not available")]).
Proof. intros Hnone. unfold Machine.refill. by rewrite Hnone. Qed.

(** C10, on the tea machine, which has no sugar. *)
Lemma refill_unknown_witness :
  Machine.refill tea_machine "sugar" 10
  = (tea_machine, [Print ("sugar" +:+ " cannot be refilled as it is not available")]).
Proof. apply (refill_unknown tea_machine "sugar" 10). reflexivity. Defined.

(** ** Runs *)

(** C7: every attempt returns having printed exactly one line, which is the
    line of an unavailable beverage, of an insufficient ingredient or of a
    prepared beverage; a run starts one attempt per outlet; executed one
    after the other the attempts print as many lines as there are outlets;
    however the attempts are interleaved they can all be brought to return,
    and when all have returned as many lines as there are outlets have been
    printed, one by each attempt. *)
Theorem one_line_per_outlet (m : Machine.t) (rnd : nat → nat) :
  wf m →
  (∀ index, (rnd index < length (Machine.beverages m))%nat) →
  (∀ choice, (choice < length (Machine.beverages m))%nat →
     ∃ bn b m' evs line,
       Machine.beverages m !! choice = Some (bn, b)
       ∧ Machine.make_beverage m choice = Some (m', evs)
       ∧ printed evs = [line]
       ∧ outcome b line)
  ∧ Z.of_nat (length (Conc.threads (Conc.init_world m rnd)))
    = Machine.num_outlets m
  ∧ (∃ m' evs,
       run_sequential m rnd = Some (m', evs)
       ∧ Z.of_nat (length (printed evs)) = Machine.num_outlets m)
  ∧ (∀ schedule, ∃ more,
       Conc.finished (Conc.exec (Conc.init_world m rnd) (schedule ++ more)))
  ∧ (∀ schedule,
       Conc.finished (Conc.exec (Conc.init_world m rnd) schedule) →
       Z.of_nat (length (Conc.output (Conc.exec (Conc.init_world m rnd) schedule)))
       = Machine.num_outlets m
       ∧ ∀ t, Z.of_nat t < Machine.num_outlets m →
           length (ConcInv.output_of
                     (Conc.exec (Conc.init_world m rnd) schedule) t) = 1%nat).
Proof.
  intros Hwf Hrnd. pose proof (wf_outlets m Hwf) as Hpos.
  assert (length (Conc.threads (Conc.init_world m rnd))
          = Z.to_nat (Machine.num_outlets m)) as Hlen.
  { cbn. by rewrite !length_fmap, length_seq. }
  pose proof (ConcFacts.init_world_inv m rnd Hwf Hrnd) as Hinv.
  split_and!.
  - intros choice Hchoice.
    destruct (make_beverage_total m choice Hwf Hchoice)
      as (bn & b & m' & evs & line & ? & ? & ? & ? & _).
    by exists bn, b, m', evs, line.
  - rewrite Hlen. lia.
  - unfold run_sequential.
    destruct (apply_ops_total m
                (OpMake <$> (rnd <$> seq 0 (Z.to_nat (Machine.num_outlets m))))
                Hwf) as (m' & evs & Hops & _ & _ & Hpr).
    { apply Forall_fmap, Forall_fmap, Forall_forall. intros index _. apply Hrnd. }
    exists m', evs. split; [done|]. rewrite Hpr.
    + rewrite !length_fmap, length_seq. lia.
    + intros op (choice & -> & _)%list_elem_of_fmap. by exists choice.
  - intros schedule.
    destruct (ConcFacts.can_finish (Conc.exec (Conc.init_world m rnd) schedule))
      as [more Hfin]; [by apply ConcFacts.exec_inv|].
    exists more. by rewrite ConcFacts.exec_app.
  - intros schedule Hfin.
    pose proof (ConcFacts.exec_inv _ schedule Hinv) as Hinv'. split.
    + rewrite (ConcFacts.finished_output _ Hinv' Hfin).
      rewrite ConcFacts.exec_threads_length, Hlen. lia.
    + intros t Ht. apply ConcFacts.finished_output_of; [done..|].
      rewrite ConcFacts.exec_threads_length, Hlen. lia.
Qed.

(** C7, on the tea machine with its two outlets. *)
Lemma one_line_per_outlet_witness :
  (∀ choice, (choice < length (Machine.beverages tea_machine))%nat →
     ∃ bn b m' evs line,
       Machine.beverages tea_machine !! choice = Some (bn, b)
       ∧ Machine.make_beverage tea_machine choice = Some (m', evs)
       ∧ printed evs = [line]
       ∧ outcome b line)
  ∧ Z.of_nat (length (Conc.threads (Conc.init_world tea_machine (λ _, 0%nat))))
    = Machine.num_outlets tea_machine
  ∧ (∃ m' evs,
       run_sequential tea_machine (λ _, 0%nat) = Some (m', evs)
       ∧ Z.of_nat (length (printed evs)) = Machine.num_outlets tea_machine)
  ∧ (∀ schedule, ∃ more,
       Conc.finished
         (Conc.exec (Conc.init_world tea_machine (λ _, 0%nat)) (schedule ++ more)))
  ∧ (∀ schedule,
       Conc.finished (Conc.exec (Conc.init_world tea_machine (λ _, 0%nat)) schedule) →
       Z.of_nat (length (Conc.output
                           (Conc.exec (Conc.init_world tea_machine (λ _, 0%nat))
                              schedule)))
       = Machine.num_outlets tea_machine
       ∧ ∀ t, Z.of_nat t < Machine.num_outlets tea_machine →
           length (ConcInv.output_of
                     (Conc.exec (Conc.init_world tea_machine (λ _, 0%nat))
                        schedule) t) = 1%nat).
Proof.
  apply (one_line_per_outlet tea_machine (λ _, 0%nat)).
  - exact tea_machine_wf.
  - intros _. cbn. lia.
Defined.

(** C9: in every world of a concurrent run, whatever the schedule,
    - no attempt is inside the locks of two ingredients;
    - an attempt that is inside an ingredient's block holds its lock, so no
      two attempts are inside the block of one ingredient;
    - an attempt that has read a quantity and not yet updated it holds the
      lock, the quantity is still the one it read, and no move of another
      attempt changes that quantity or reads it;
    - the update then sets the quantity to the current one less the required
      one, still under the same lock. *)
Theorem one_guard_atomic_check_and_decrement (m : Machine.t) (rnd : nat → nat)
    (schedule : list nat) :
  wf m →
  (∀ index, (rnd index < length (Machine.beverages m))%nat) →
  let w := Conc.exec (Conc.init_world m rnd) schedule in
  (∀ t i j, Conc.locks w !! i = Some t → Conc.locks w !! j = Some t → i = j)
  ∧ (∀ t p i,
       Conc.threads w !! t = Some p → Conc.holding p = Some i →
       Conc.locks w !! i = Some t)
  ∧ (∀ t b i a rest,
       Conc.threads w !! t = Some (Conc.Checked b i a rest) →
       Conc.locks w !! i = Some t
       ∧ quantity (Conc.machine w) i = Some a
       ∧ ∀ t' w', t' ≠ t → Conc.step w t' = Some w' →
           quantity (Conc.machine w') i = Some a
           ∧ Conc.locks w' !! i = Some t
           ∧ ∀ b' rest', Conc.threads w !! t' ≠ Some (Conc.Locked b' i rest'))
  ∧ (∀ t b i a rest q,
       Conc.threads w !! t = Some (Conc.Checked b i a rest) →
       Beverage.getRequiredIngredientQuantity b i = Some q → q ≤ a →
       ∃ w', Conc.step w t = Some w'
           ∧ quantity (Conc.machine w) i = Some a
           ∧ quantity (Conc.machine w') i = Some (a - q)
           ∧ Conc.locks w' !! i = Some t).
Proof.
  intros Hwf Hrnd w.
  assert (ConcInv.inv w) as Hinv.
  { apply ConcFacts.exec_inv. by apply ConcFacts.init_world_inv. }
  assert (∀ t p i, Conc.threads w !! t = Some p → Conc.holding p = Some i →
            Conc.locks w !! i = Some t) as Hheld.
  { intros t p i Ht Hp. apply (ConcInv.inv_locks w Hinv). eauto. }
  split_and!.
  - intros t i j. by apply ConcFacts.inv_one_lock.
  - done.
  - intros t b i a rest Ht. split_and!.
    + by eapply Hheld.
    + by eapply (ConcInv.inv_checked w Hinv).
    + intros t' w' Hne Hstep.
      pose proof (ConcFacts.step_inv w t' w' Hinv Hstep) as Hinv'.
      assert (Conc.threads w' !! t = Some (Conc.Checked b i a rest)) as Ht'.
      { apply ConcFacts.step_Some in Hstep as (p & p' & w1 & _ & Hstep & ->).
        cbn. rewrite (ConcFacts.thread_step_threads _ _ _ _ _ Hstep).
        by rewrite list_lookup_insert_ne. }
      split_and!.
      * by eapply (ConcInv.inv_checked w' Hinv').
      * apply (ConcInv.inv_locks w' Hinv'). eauto.
      * intros b' rest' Hlocked.
        pose proof (Hheld t _ i Ht eq_refl) as H1.
        pose proof (Hheld t' _ i Hlocked eq_refl) as H2. congruence.
  - intros t b i a rest q Ht Hq Hle. by eapply ConcFacts.checked_step.
Qed.

(** C9, on the tea machine: both attempts have chosen the tea, the first
    has entered the lock of the water and read its quantity, the second is
    waiting for it. *)
Lemma one_guard_atomic_check_and_decrement_witness :
  let w := Conc.exec (Conc.init_world tea_machine (λ _, 0%nat))
             [0; 1; 0; 1; 0; 1]%nat in
  (∀ t i j, Conc.locks w !! i = Some t → Conc.locks w !! j = Some t → i = j)
  ∧ (∀ t p i,
       Conc.threads w !! t = Some p → Conc.holding p = Some i →
       Conc.locks w !! i = Some t)
  ∧ (∀ t b i a rest,
       Conc.threads w !! t = Some (Conc.Checked b i a rest) →
       Conc.locks w !! i = Some t
       ∧ quantity (Conc.machine w) i = Some a
       ∧ ∀ t' w', t' ≠ t → Conc.step w t' = Some w' →
           quantity (Conc.machine w') i = Some a
           ∧ Conc.locks w' !! i = Some t
           ∧ ∀ b' rest', Conc.threads w !! t' ≠ Some (Conc.Locked b' i rest'))
  ∧ (∀ t b i a rest q,
       Conc.threads w !! t = Some (Conc.Checked b i a rest) →
       Beverage.getRequiredIngredientQuantity b i = Some q → q ≤ a →
       ∃ w', Conc.step w t = Some w'
           ∧ quantity (Conc.machine w) i = Some a
           ∧ quantity (Conc.machine w') i = Some (a - q)
           ∧ Conc.locks w' !! i = Some t).
Proof.
  apply (one_guard_atomic_check_and_decrement tea_machine (λ _, 0%nat)
           [0; 1; 0; 1; 0; 1]%nat).
  - exact tea_machine_wf.
  - intros _. cbn. lia.
Defined.

(** * Part IV: more of the program *)

(** ** Construction *)

Section construction_extras.
Implicit Types (store : gmap string Ingredient.t).

Lemma get_app_fresh {V : Type} (d1 d2 : list (string * V)) (k : string) :
  k ∉ PyDict.keys d1 → PyDict.get (d1 ++ d2) k = PyDict.get d2 k.
Proof.
  unfold PyDict.keys. induction d1 as [|[k' v'] d1 IH]; [done|].
  rewrite fmap_cons, not_elem_of_cons. intros [Hne Hnin]. cbn.
  rewrite decide_False by done. by apply IH.
Qed.

Lemma set_fresh {V : Type} (d : list (string * V)) (k : string) (v : V) :
  k ∉ PyDict.keys d → PyDict.set d k v = d ++ [(k, v)].
Proof.
  unfold PyDict.keys. induction d as [|[k' v'] d IH]; [done|].
  rewrite fmap_cons, not_elem_of_cons. intros [Hne Hnin]. cbn.
  rewrite decide_False by done. by rewrite IH.
Qed.

(** The loop of [Beverage.__init__] over the entries [r2] that remain of a
    dictionary [r1 ++ r2]. *)
Lemma Beverage_init_loop_filter store (r1 r2 ings : list (string * Z)) un :
  NoDup (PyDict.keys (r1 ++ r2)) →
  (∀ i, i ∈ PyDict.keys ings → i ∈ PyDict.keys r1) →
  Beverage.init_loop (PyDict.keys r2) (r1 ++ r2) store ings un
  = inr (ings ++ filter (λ kv, is_Some (store !! kv.1)) r2,
         un ++ filter (λ i, ¬ is_Some (store !! i)) (PyDict.keys r2)).
Proof.
  revert r1 ings un. induction r2 as [|[k v] r2 IH]; intros r1 ings un Hnd Hsub.
  - cbn. by rewrite !app_nil_r.
  - assert (k ∉ PyDict.keys r1) as Hk.
    { unfold PyDict.keys in *. rewrite fmap_app, fmap_cons in Hnd.
      apply NoDup_app in Hnd as (_ & Hdisj & _). intros Hin.
      apply (Hdisj k Hin). left. }
    assert (NoDup (PyDict.keys ((r1 ++ [(k, v)]) ++ r2))) as Hnd'.
    { by rewrite <-app_assoc. }
    assert (filter (λ kv : string * Z, is_Some (store !! kv.1)) ((k, v) :: r2)
            = (match store !! k with Some _ => [(k, v)] | None => [] end)
              ++ filter (λ kv : string * Z, is_Some (store !! kv.1)) r2) as ->.
    { rewrite filter_cons. cbn [fst]. destruct (store !! k); [done|].
      by rewrite decide_False by (by intros [? ?]). }
    assert (filter (λ i, ¬ is_Some (store !! i)) (PyDict.keys ((k, v) :: r2))
            = (match store !! k with Some _ => [] | None => [k] end)
              ++ filter (λ i, ¬ is_Some (store !! i)) (PyDict.keys r2)) as ->.
    { unfold PyDict.keys. rewrite fmap_cons, filter_cons. cbn [fst].
      destruct (store !! k); [|done].
      by rewrite decide_False by (intros Hn; apply Hn; done). }
    unfold PyDict.keys at 1. rewrite fmap_cons. cbn [fst Beverage.init_loop].
    fold (PyDict.keys r2).
    destruct (store !! k) as [obj|] eqn:Hobj.
    + unfold getitem. rewrite get_app_fresh by done. cbn [PyDict.get].
      rewrite decide_True by done. cbn [mbind Error_bind].
      rewrite set_fresh by (intros Hin; by apply Hk, Hsub).
      rewrite (cons_middle (k, v) r1 r2), app_assoc.
      rewrite IH; [by rewrite <-app_assoc|done|].
      intros i. unfold PyDict.keys. rewrite !fmap_app, !elem_of_app.
      intros [?|?]; [left; by apply Hsub | by right].
    + rewrite (cons_middle (k, v) r1 r2), app_assoc.
      rewrite IH; [by rewrite <-app_assoc|done|].
      intros i Hi. unfold PyDict.keys. rewrite fmap_app, elem_of_app.
      left. by apply Hsub.
Qed.
End construction_extras.

(** X1: [Beverage.__init__] on a dictionary: the ingredients are the entries of
    the recipe whose name the store has, with the quantity of the recipe and
    in its order; the unavailable names are the other names, in its order. *)
Theorem Beverage_init_partition (name : string) (recipe : list (string * Z))
    (store : gmap string Ingredient.t) :
  NoDup (PyDict.keys recipe) →
  Beverage.init name recipe store
  = inr (Beverage.mk name
           (filter (λ kv, is_Some (store !! kv.1)) recipe)
           (filter (λ i, ¬ is_Some (store !! i)) (PyDict.keys recipe))).
Proof.
  intros Hnd. unfold Beverage.init.
  pose proof (Beverage_init_loop_filter store [] recipe [] [] Hnd) as Hloop.
  cbn [app] in Hloop. by rewrite Hloop.
Qed.

(** The loop of [getBeverages] over the entries [r2] that remain of a
    dictionary [r1 ++ r2]. *)
Lemma getBeverages_loop_dict (store : gmap string Ingredient.t)
    (r1 r2 : list (string * list (string * Z)))
    (bevs : list (string * Beverage.t)) :
  NoDup (PyDict.keys (r1 ++ r2)) →
  (∀ i, i ∈ PyDict.keys bevs → i ∈ PyDict.keys r1) →
  ∃ new,
    Machine.getBeverages_loop (PyDict.keys r2) (r1 ++ r2) store bevs
    = inr (bevs ++ new)
    ∧ Forall2 (λ entry item,
                 entry.1 = item.1
                 ∧ Beverage.init item.1 item.2 store = inr entry.2) new r2.
Proof.
  revert r1 bevs. induction r2 as [|[k recipe] r2 IH]; intros r1 bevs Hnd Hsub.
  - exists []. cbn. by rewrite app_nil_r.
  - assert (k ∉ PyDict.keys r1) as Hk.
    { unfold PyDict.keys in *. rewrite fmap_app, fmap_cons in Hnd.
      apply NoDup_app in Hnd as (_ & Hdisj & _). intros Hin.
      apply (Hdisj k Hin). left. }
    unfold PyDict.keys at 1. rewrite fmap_cons.
    cbn [fst Machine.getBeverages_loop]. fold (PyDict.keys r2).
    unfold getitem. rewrite get_app_fresh by done. cbn [PyDict.get].
    rewrite decide_True by done. cbn [mbind Error_bind].
    destruct (Beverage_init_spec k recipe store) as (b & Hb & _). rewrite Hb.
    cbn [mbind Error_bind].
    rewrite set_fresh by (intros Hin; by apply Hk, Hsub).
    rewrite (cons_middle (k, recipe) r1 r2), app_assoc.
    destruct (IH (r1 ++ [(k, recipe)]) (bevs ++ [(k, b)])) as (new & -> & Hnew).
    { by rewrite <-app_assoc. }
    { intros i. unfold PyDict.keys. rewrite !fmap_app, !elem_of_app.
      intros [?|?]; [left; by apply Hsub | by right]. }
    exists ((k, b) :: new). split; [by rewrite <-app_assoc|].
    by constructor.
Qed.

(** X2: [getBeverages] on a dictionary: one beverage per recipe, under the name
    of the recipe and in the order of the dictionary, each built by
    [Beverage.__init__] from its recipe and the store. *)
Theorem getBeverages_dict (store : gmap string Ingredient.t)
    (beverage_items : list (string * list (string * Z))) :
  NoDup (PyDict.keys beverage_items) →
  ∃ bevs,
    Machine.getBeverages store beverage_items = inr bevs
    ∧ Forall2 (λ entry item,
                 entry.1 = item.1
                 ∧ Beverage.init item.1 item.2 store = inr entry.2)
        bevs beverage_items.
Proof.
  intros Hnd. unfold Machine.getBeverages.
  destruct (getBeverages_loop_dict store [] beverage_items [] Hnd)
    as (new & Hloop & Hnew); [by intros i ?%elem_of_nil|].
  cbn [app] in Hloop. by exists new.
Qed.

(** X3: [Machine.__init__] returns a machine exactly when the three fields are
    there, the outlet count is positive and there is a recipe. *)
Theorem init_succeeds_iff (data : Input.Data) :
  (∃ m, Machine.init data = inr m) ↔
  ∃ section o n input_items beverage_items,
    Input.machine data = Some section
    ∧ Input.outlets section = Some o
    ∧ Input.count_n o = Some n
    ∧ 0 < n
    ∧ Input.total_items_quantity section = Some input_items
    ∧ Input.beverages section = Some beverage_items
    ∧ beverage_items ≠ [].
Proof.
  unfold Machine.init, field. split.
  - intros [m Hinit]. destruct data as [[section|]]; [|done].
    cbn [Input.machine mbind Error_bind] in Hinit.
    destruct (Input.outlets section) as [o|] eqn:Hout; [|done].
    cbn [mbind Error_bind] in Hinit.
    destruct (Input.count_n o) as [n|] eqn:Hn; [|done].
    cbn [mbind Error_bind] in Hinit. case_bool_decide as Hpos; [done|].
    destruct (Input.total_items_quantity section) as [input_items|] eqn:Hitems;
      [|done].
    cbn [mbind Error_bind] in Hinit.
    destruct (Machine.getIngredients input_items) as [|store]; [done|].
    cbn [mbind Error_bind] in Hinit.
    destruct (Input.beverages section) as [beverage_items|] eqn:Hbevs; [|done].
    cbn [mbind Error_bind] in Hinit.
    exists section, o, n, input_items, beverage_items.
    split_and!; [done..|lia|done|done|]. intros ->. cbn in Hinit. done.
  - intros (section & o & n & input_items & beverage_items
            & Hsec & Hout & Hn & Hpos & Hitems & Hbevs & Hne).
    rewrite Hsec. cbn [mbind Error_bind]. rewrite Hout. cbn [mbind Error_bind].
    rewrite Hn. cbn [mbind Error_bind]. rewrite bool_decide_false by lia.
    rewrite Hitems. cbn [mbind Error_bind].
    destruct (getIngredients_spec input_items) as (store & -> & _).
    cbn [mbind Error_bind]. rewrite Hbevs. cbn [mbind Error_bind].
    destruct (getBeverages_loop_spec beverage_items store
                (PyDict.keys beverage_items) []) as (bevs & Hb & _ & Hnonempty);
      [done | constructor |].
    unfold Machine.getBeverages. rewrite Hb. cbn [mbind Error_bind].
    rewrite bool_decide_false; [by eexists|].
    intros Hlen. apply length_zero_iff_nil, fmap_nil_inv in Hlen.
    apply Hnonempty; [|done]. left. destruct beverage_items; done.
Qed.

(** X4: after construction the availability of a name is the quantity the input
    gives it; for a name the input does not list nothing is returned and one
    line is printed. *)
Theorem availability_after_init (data : Input.Data)
    (section : Input.MachineSection) (input_items : list (string * Z))
    (m : Machine.t) (ingredient_name : string) :
  Input.machine data = Some section →
  Input.total_items_quantity section = Some input_items →
  Machine.init data = inr m →
  Machine.getIngredientAvailability m ingredient_name
  = match PyDict.get input_items ingredient_name with
    | Some quantity => (Some quantity, [])
    | None => (None, [Print "Ingredient not available in the machine"])
    end.
Proof.
  intros Hsec Hitems Hinit. unfold Machine.getIngredientAvailability.
  rewrite (Machine_init_store data section input_items m Hsec Hitems Hinit).
  by destruct (PyDict.get input_items ingredient_name).
Qed.

(** X5: a beverage of the machine is available exactly when the input lists
    every ingredient its recipe names; the quantities play no part. *)
Theorem isAvailable_iff (data : Input.Data) (section : Input.MachineSection)
    (input_items : list (string * Z))
    (beverage_items : list (string * list (string * Z)))
    (m : Machine.t) (bn : string) (b : Beverage.t) :
  Input.machine data = Some section →
  Input.total_items_quantity section = Some input_items →
  Input.beverages section = Some beverage_items →
  Machine.init data = inr m →
  (bn, b) ∈ Machine.beverages m →
  ∃ recipe,
    PyDict.get beverage_items bn = Some recipe
    ∧ (Beverage.isAvailable b = true ↔
       ∀ i, i ∈ PyDict.keys recipe → i ∈ PyDict.keys input_items).
Proof.
  intros Hsec Hitems Hbevs Hinit Hin.
  destruct (Machine_init_beverage data section input_items beverage_items m bn b
              Hsec Hitems Hbevs Hinit Hin) as (recipe & Hrecipe & _ & Hun).
  exists recipe. split; [done|]. unfold Beverage.isAvailable.
  rewrite bool_decide_eq_true, Hun, length_zero_iff_nil. split.
  - intros Hnil i Hi. destruct (decide (i ∈ PyDict.keys input_items)); [done|].
    assert (i ∈ filter (λ i, i ∉ PyDict.keys input_items) (PyDict.keys recipe))
      as Hf by by apply list_elem_of_filter.
    rewrite Hnil in Hf. by apply elem_of_nil in Hf.
  - intros Hall. apply elem_of_nil_inv. intros i [Hni Hi]%list_elem_of_filter.
    by apply Hni, Hall.
Qed.

(** ** What an attempt does to the quantities *)

Section attempt_extras.
Implicit Types (m : Machine.t) (b : Beverage.t) (store : gmap string Ingredient.t).

(** What the loop has done when it returns: it has touched only the
    ingredients it was given, each at most once and by taking off what the
    beverage requires; when it returns with [made] every one of them was
    there in sufficient quantity and has been taken; it prints nothing then,
    and one line otherwise. *)
Lemma make_loop_effects b keys store store' evs made :
  NoDup keys →
  Machine.make_loop b keys store = Some (store', evs, made) →
  (∀ i, i ∉ keys → store' !! i = store !! i)
  ∧ (∀ i obj, store !! i = Some obj →
       store' !! i = Some obj
       ∨ ∃ q, i ∈ keys ∧ PyDict.get (Beverage.ingredients b) i = Some q
            ∧ q ≤ Ingredient.available_quantity obj
            ∧ store' !! i = Some (decremented obj q))
  ∧ (made = true →
       printed evs = []
       ∧ ∀ i, i ∈ keys →
           ∃ obj q, store !! i = Some obj
                  ∧ PyDict.get (Beverage.ingredients b) i = Some q
                  ∧ q ≤ Ingredient.available_quantity obj
                  ∧ store' !! i = Some (decremented obj q))
  ∧ (made = false →
       ∃ i obj q, i ∈ keys ∧ store !! i = Some obj
                ∧ PyDict.get (Beverage.ingredients b) i = Some q
                ∧ Ingredient.available_quantity obj < q
                ∧ printed evs = [line_insufficient b (Ingredient.name obj)]).
Proof.
  revert store store' evs made.
  induction keys as [|k keys IH]; intros store store' evs made Hnd.
  - cbn. intros [= <- <- <-]. split_and!; [done|by left| |done].
    intros _. split; [done|]. by intros i ?%elem_of_nil.
  - apply NoDup_cons in Hnd as [Hk Hnd]. cbn [Machine.make_loop].
    destruct (store !! k) as [objk|] eqn:Hobjk; [|done]. cbn [mbind option_bind].
    unfold Beverage.getRequiredIngredientQuantity.
    destruct (PyDict.get (Beverage.ingredients b) k) as [qk|] eqn:Hqk; [|done].
    cbn [mbind option_bind]. unfold Ingredient.getAvailableQuantity.
    case_bool_decide as Hge.
    + fold (Ingredient.getAvailableQuantity objk). fold (decremented objk qk).
      destruct (Machine.make_loop b keys _) as [[[store2 evs2] made2]|] eqn:Hrest;
        [|done].
      cbn [mbind option_bind]. intros [= <- <- <-].
      destruct (IH _ _ _ _ Hnd Hrest) as (Hframe & Hchange & Hmade & Hnot).
      assert (store2 !! k = Some (decremented objk qk)) as Hk2.
      { by rewrite (Hframe k Hk), lookup_insert_eq. }
      split_and!.
      * intros i [Hne Hi]%not_elem_of_cons. rewrite (Hframe i Hi).
        by rewrite lookup_insert_ne.
      * intros i obj Hobj. destruct (decide (i = k)) as [->|Hne].
        -- right. exists qk. assert (obj = objk) as -> by congruence.
           split_and!; [left|done|lia|done].
        -- destruct (Hchange i obj) as [?|(q & ? & ? & ? & ?)].
           { by rewrite lookup_insert_ne. }
           { by left. }
           right. exists q. split_and!; [by right|done..].
      * intros ->. destruct (Hmade eq_refl) as [Hpr Hall]. split; [done|].
        intros i [->|Hi]%elem_of_cons.
        -- exists objk, qk. split_and!; [done..|lia|done].
        -- destruct (Hall i Hi) as (obj & q & Hobj & ? & ? & ?).
           rewrite lookup_insert_ne in Hobj by (by intros ->).
           by exists obj, q.
      * intros ->. destruct (Hnot eq_refl) as (i & obj & q & Hi & Hobj & ? & ? & ?).
        rewrite lookup_insert_ne in Hobj by (by intros ->).
        exists i, obj, q. split_and!; [by right|done..].
    + intros [= <- <- <-]. split_and!; [done|by left|done|].
      intros _. exists k, objk, qk. split_and!; [left|done..|lia|done].
Qed.
End attempt_extras.

(** What [Machine.make_beverage] has done when it returns, by the loop. *)
Lemma make_beverage_inv (m : Machine.t) (choice : nat) (bn : string)
    (b : Beverage.t) (m' : Machine.t) (evs : list Event) :
  Machine.beverages m !! choice = Some (bn, b) →
  Machine.make_beverage m choice = Some (m', evs) →
  (Beverage.isAvailable b = false ∧ m' = m ∧ printed evs = [line_not_available b])
  ∨ (Beverage.isAvailable b = true
     ∧ ∃ store' evs1 made,
         Machine.make_loop b (PyDict.keys (Beverage.ingredients b))
           (Machine.ingredients m) = Some (store', evs1, made)
         ∧ m' = Machine.mk (Machine.num_outlets m) store' (Machine.beverages m)
         ∧ printed evs
           = printed evs1 ++ (if made then [line_prepared b] else [])).
Proof.
  intros Hb. unfold Machine.make_beverage. rewrite Hb. cbn [mbind option_bind].
  destruct (Beverage.isAvailable b); cbn [negb].
  - destruct (Machine.make_loop b _ _) as [[[store' evs1] made]|] eqn:Hloop;
      [|done].
    cbn [mbind option_bind]. intros [= <- <-]. right. split; [done|].
    exists store', evs1, made. split_and!; [done..|].
    unfold printed. rewrite omap_app. by destruct made.
  - intros [= <- <-]. by left.
Qed.

(** A call of [make_beverage] that runs alone prints the line
    "<name> has been prepared" exactly when the beverage is available and
    every ingredient it names is there in at least the required quantity
    when the call begins. *)
Lemma prepared_iff_sufficient_alone (m : Machine.t) (choice : nat) (bn : string)
    (b : Beverage.t) (m' : Machine.t) (evs : list Event) :
  wf m →
  Machine.beverages m !! choice = Some (bn, b) →
  Machine.make_beverage m choice = Some (m', evs) →
  printed evs = [line_prepared b] ↔
  Beverage.isAvailable b = true
  ∧ ∀ i q a, (i, q) ∈ Beverage.ingredients b → quantity m i = Some a → q ≤ a.
Proof.
  intros Hwf Hb Hmake.
  assert ((bn, b) ∈ Machine.beverages m) as Hin by by eapply list_elem_of_lookup_2.
  pose proof (wf_nodup m Hwf bn b Hin) as Hnd.
  destruct (make_beverage_inv m choice bn b m' evs Hb Hmake)
    as [(Hav & _ & Hpr)|(Hav & store' & evs1 & made & Hloop & _ & Hpr)].
  - rewrite Hpr, Hav. split; [|by intros [? _]].
    intros [= H]. symmetry in H. by apply line_prepared_not_not_available in H.
  - destruct (make_loop_effects b _ _ _ _ _ Hnd Hloop) as (_ & _ & Hmade & Hnot).
    rewrite Hpr. destruct made.
    + destruct (Hmade eq_refl) as [-> Hall]. split; [|done]. intros _.
      split; [done|]. intros i q a Hiq (obj & Hobj & <-)%quantity_Some.
      destruct (Hall i) as (obj' & q' & Hobj' & Hq' & Hle & _).
      { apply list_elem_of_fmap. by exists (i, q). }
      rewrite (elem_of_get _ _ _ Hnd Hiq) in Hq'. congruence.
    + destruct (Hnot eq_refl) as (i & obj & q & Hi & Hobj & Hq & Hlt & ->).
      rewrite app_nil_r. split.
      * intros [= H]. symmetry in H. by apply line_prepared_not_insufficient in H.
      * intros [_ Hall]. exfalso.
        assert (q ≤ Ingredient.available_quantity obj); [|lia].
        apply (Hall i); [by apply get_elem_of|]. apply quantity_Some. eauto.
Qed.

(** X6: the line "<name> has been prepared" is printed exactly when the
    beverage is available and every ingredient it names is found in at
    least the required quantity.  For a call of [make_beverage] that runs
    alone, nothing else changing the machine between its start and its
    return, the quantities found are those there when the call begins.  For
    an attempt of a concurrent run that has returned, however the attempts
    are interleaved, they are those it read, each under the ingredient's
    lock; such an attempt may find less than there was when it began. *)
Theorem prepared_iff_sufficient (m : Machine.t) (rnd : nat → nat) :
  wf m →
  (∀ index, (rnd index < length (Machine.beverages m))%nat) →
  (∀ choice bn b m' evs,
     Machine.beverages m !! choice = Some (bn, b) →
     Machine.make_beverage m choice = Some (m', evs) →
     printed evs = [line_prepared b] ↔
     Beverage.isAvailable b = true
     ∧ ∀ i q a, (i, q) ∈ Beverage.ingredients b → quantity m i = Some a → q ≤ a)
  ∧ (∀ schedule t bn b,
       Machine.beverages m !! rnd t = Some (bn, b) →
       Conc.threads (Conc.exec (Conc.init_world m rnd) schedule) !! t
       = Some Conc.Done →
       ConcInv.output_of (Conc.exec (Conc.init_world m rnd) schedule) t
       = [line_prepared b] ↔
       Beverage.isAvailable b = true
       ∧ ConcHist.checks_pass (Conc.init_world m rnd) schedule t).
Proof.
  intros Hwf Hrnd. split.
  - intros choice bn b m' evs. by apply prepared_iff_sufficient_alone.
  - intros schedule t bn b. by apply ConcHistFacts.returned_prepared_iff.
Qed.

(** X7: whatever the outcome, an attempt leaves alone every ingredient the
    chosen beverage does not name, and leaves each ingredient it names either
    as it was or with exactly the required quantity taken off; so with
    recipes that require no negative quantity it raises no quantity. *)
Theorem attempt_takes_at_most_required (m : Machine.t) (choice : nat)
    (bn : string) (b : Beverage.t) (m' : Machine.t) (evs : list Event) :
  wf m →
  Machine.beverages m !! choice = Some (bn, b) →
  Machine.make_beverage m choice = Some (m', evs) →
  (∀ i, i ∉ PyDict.keys (Beverage.ingredients b) →
     Machine.ingredients m' !! i = Machine.ingredients m !! i)
  ∧ (∀ i a, quantity m i = Some a →
       quantity m' i = Some a
       ∨ (quantity m' i = Some (a - required b i) ∧ required b i ≤ a))
  ∧ (recipes_nonnegative m →
     ∀ i a, quantity m i = Some a → ∃ a', quantity m' i = Some a' ∧ a' ≤ a).
Proof.
  intros Hwf Hb Hmake.
  assert ((bn, b) ∈ Machine.beverages m) as Hin by by eapply list_elem_of_lookup_2.
  pose proof (wf_nodup m Hwf bn b Hin) as Hnd.
  assert (∀ i a, quantity m i = Some a →
            quantity m' i = Some a
            ∨ (quantity m' i = Some (a - required b i) ∧ required b i ≤ a)
              ∧ i ∈ PyDict.keys (Beverage.ingredients b)) as Hchange.
  { destruct (make_beverage_inv m choice bn b m' evs Hb Hmake)
      as [(_ & -> & _)|(_ & store' & evs1 & made & Hloop & -> & _)]; [by left|].
    destruct (make_loop_effects b _ _ _ _ _ Hnd Hloop) as (_ & Hch & _ & _).
    intros i a (obj & Hobj & <-)%quantity_Some.
    destruct (Hch i obj Hobj) as [Hsame|(q & Hi & Hq & Hle & Hdec)].
    - left. unfold quantity. cbn. by rewrite Hsame.
    - right. unfold quantity, required, Beverage.getRequiredIngredientQuantity.
      cbn. by rewrite Hdec, Hq. }
  split_and!.
  - destruct (make_beverage_inv m choice bn b m' evs Hb Hmake)
      as [(_ & -> & _)|(_ & store' & evs1 & made & Hloop & -> & _)]; [done|].
    destruct (make_loop_effects b _ _ _ _ _ Hnd Hloop) as (Hframe & _). done.
  - intros i a Ha. destruct (Hchange i a Ha) as [?|[? _]]; [by left | by right].
  - intros Hnn i a Ha. destruct (Hchange i a Ha) as [?|[[? ?] Hi]].
    + exists a. split; [done | lia].
    + exists (a - required b i). split; [done|].
      apply get_is_Some in Hi as [q Hq].
      assert (0 ≤ q) by (eapply Hnn; [done | by apply get_elem_of]).
      unfold required, Beverage.getRequiredIngredientQuantity. rewrite Hq. cbn. lia.
Qed.

Lemma required_not_named (b : Beverage.t) (i : string) :
  i ∉ PyDict.keys (Beverage.ingredients b) → required b i = 0.
Proof.
  intros Hi. unfold required, Beverage.getRequiredIngredientQuantity.
  by rewrite (proj2 (get_None _ _) Hi).
Qed.

(** One attempt: the line it prints, and what the quantities are after it
    at most. *)
Lemma attempt_spends (m : Machine.t) (choice : nat) (bn : string)
    (b : Beverage.t) (m' : Machine.t) (evs : list Event) :
  wf m → recipes_nonnegative m →
  Machine.beverages m !! choice = Some (bn, b) →
  Machine.make_beverage m choice = Some (m', evs) →
  ∃ line,
    printed evs = [line]
    ∧ ∀ i a, quantity m i = Some a →
        ∃ a', quantity m' i = Some a'
            ∧ a' ≤ a - (if decide (line = line_prepared b) then required b i else 0).
Proof.
  intros Hwf Hnn Hb Hmake.
  assert ((bn, b) ∈ Machine.beverages m) as Hin by by eapply list_elem_of_lookup_2.
  pose proof (wf_nodup m Hwf bn b Hin) as Hnd.
  destruct (make_beverage_inv m choice bn b m' evs Hb Hmake)
    as [(_ & -> & Hpr)|(_ & store' & evs1 & made & Hloop & -> & Hpr)].
  - exists (line_not_available b). split; [done|]. intros i a Ha. exists a.
    split; [done|]. rewrite decide_False; [lia|].
    intros H. symmetry in H. by apply line_prepared_not_not_available in H.
  - destruct (make_loop_effects b _ _ _ _ _ Hnd Hloop)
      as (Hframe & Hch & Hmade & Hnot).
    destruct made.
    + destruct (Hmade eq_refl) as [Hnil Hall]. rewrite Hnil in Hpr.
      exists (line_prepared b). split; [done|].
      intros i a (obj & Hobj & <-)%quantity_Some. rewrite decide_True by done.
      destruct (decide (i ∈ PyDict.keys (Beverage.ingredients b))) as [Hi|Hi].
      * destruct (Hall i Hi) as (obj' & q & Hobj' & Hq & Hle & Hdec).
        assert (obj' = obj) as -> by congruence.
        exists (Ingredient.available_quantity obj - q). unfold quantity. cbn.
        rewrite Hdec. split; [done|].
        unfold required, Beverage.getRequiredIngredientQuantity. rewrite Hq.
        cbn. lia.
      * exists (Ingredient.available_quantity obj). unfold quantity. cbn.
        rewrite (Hframe i Hi), Hobj. split; [done|].
        rewrite required_not_named by done. lia.
    + destruct (Hnot eq_refl) as (k & objk & qk & _ & _ & _ & _ & Hline).
      rewrite Hline in Hpr. eexists. split; [done|].
      intros i a (obj & Hobj & <-)%quantity_Some.
      rewrite decide_False
        by (intros H; symmetry in H; by apply line_prepared_not_insufficient in H).
      destruct (Hch i obj Hobj) as [Hsame|(q & Hi & Hq & Hle & Hdec)].
      * exists (Ingredient.available_quantity obj). unfold quantity. cbn.
        rewrite Hsame. split; [done | lia].
      * exists (Ingredient.available_quantity obj - q). unfold quantity. cbn.
        rewrite Hdec. split; [done|].
        assert (0 ≤ q) by (eapply Hnn; [done | by apply get_elem_of]). lia.
Qed.

Lemma recipes_nonnegative_shape (m m' : Machine.t) :
  same_shape m m' → recipes_nonnegative m → recipes_nonnegative m'.
Proof.
  intros Hs Hnn bn b i q. rewrite (shape_beverages _ _ Hs). apply Hnn.
Qed.

(** X8: after any number of attempts, with recipes that require no negative
    quantity, each quantity is at most what it was less what the attempts
    that printed "<name> has been prepared" required of it: what a prepared
    beverage requires has been taken, and a failed attempt gives nothing
    back. *)
Theorem prepared_beverages_are_paid_for (m : Machine.t) (choices : list nat) :
  wf m → recipes_nonnegative m →
  Forall (λ choice, (choice < length (Machine.beverages m))%nat) choices →
  ∃ m' evs outs,
    apply_ops m (OpMake <$> choices) = Some (m', evs)
    ∧ printed evs = outs.*2
    ∧ Forall2 (λ choice out,
                 ∃ bn, Machine.beverages m !! choice = Some (bn, out.1))
        choices outs
    ∧ ∀ i a, quantity m i = Some a →
        ∃ a', quantity m' i = Some a' ∧ a' ≤ a - used outs i.
Proof.
  intros Hwf Hnn Hvalid. revert m Hwf Hnn Hvalid.
  induction choices as [|c choices IH]; intros m Hwf Hnn Hvalid.
  - exists m, [], []. split_and!; [done..|constructor|].
    intros i a Ha. exists a. split; [done | cbn; lia].
  - apply Forall_cons in Hvalid as [Hc Hvalid].
    destruct (make_beverage_total m c Hwf Hc)
      as (bn & b & m1 & evs1 & line0 & Hb & Hmake & _ & _ & Hshape & _).
    destruct (attempt_spends m c bn b m1 evs1 Hwf Hnn Hb Hmake)
      as (line & Hpr1 & Hq1).
    destruct (IH m1) as (m2 & evs2 & outs & Hops & Hpr2 & Hall & Hq2).
    { by eapply same_shape_wf. }
    { by eapply recipes_nonnegative_shape. }
    { by rewrite (shape_beverages _ _ Hshape). }
    exists m2, (evs1 ++ evs2), ((b, line) :: outs).
    cbn [fmap list_fmap apply_ops apply_op]. rewrite Hmake. cbn [mbind option_bind].
    fold (fmap (M:=list) OpMake choices). rewrite Hops. cbn [mbind option_bind].
    split_and!; [done| | |].
    + unfold printed in *. by rewrite omap_app, Hpr1, Hpr2.
    + constructor; [by exists bn|].
      eapply Forall2_impl; [done|]. intros c' out [bn' Hb'].
      exists bn'. by rewrite <-(shape_beverages _ _ Hshape).
    + intros i a Ha. destruct (Hq1 i a Ha) as (a1 & Ha1 & Hle1).
      destruct (Hq2 i a1 Ha1) as (a2 & Ha2 & Hle2). exists a2. split; [done|].
      cbn [used foldr fst snd] in *. fold (used outs i). lia.
Qed.

(** X9: with no ingredient in the input, and recipes that each name at least one,
    no attempt ever prepares anything: each prints the line of an unavailable
    beverage with every name of its recipe, and the machine stays as built. *)
Theorem empty_store_prepares_nothing (data : Input.Data)
    (section : Input.MachineSection)
    (beverage_items : list (string * list (string * Z)))
    (m : Machine.t) (choices : list nat) :
  Input.machine data = Some section →
  Input.total_items_quantity section = Some [] →
  Input.beverages section = Some beverage_items →
  (∀ bn recipe, (bn, recipe) ∈ beverage_items → recipe ≠ []) →
  Machine.init data = inr m →
  Forall (λ choice, (choice < length (Machine.beverages m))%nat) choices →
  ∃ evs,
    apply_ops m (OpMake <$> choices) = Some (m, evs)
    ∧ Forall2 (λ choice line,
                 ∃ bn b recipe,
                   Machine.beverages m !! choice = Some (bn, b)
                   ∧ PyDict.get beverage_items bn = Some recipe
                   ∧ line = bn +:+ " cannot be prepared because "
                            +:+ String.concat ", " (PyDict.keys recipe)
                            +:+ " not available")
        choices (printed evs).
Proof.
  intros Hsec Hitems Hbevs Hnonempty Hinit Hvalid.
  induction Hvalid as [|c choices Hc _ IH].
  - exists []. split; [done | constructor].
  - destruct IH as (evs & Hops & Hall).
    destruct (lookup_lt_is_Some_2 _ _ Hc) as [[bn b] Hb].
    destruct (Machine_init_beverage data section [] beverage_items m bn b
                Hsec Hitems Hbevs Hinit) as (recipe & Hrecipe & Hname & Hun).
    { by eapply list_elem_of_lookup_2. }
    assert (Beverage.unavailable_ingredients b = PyDict.keys recipe) as Hall_missing.
    { rewrite Hun. clear. induction (PyDict.keys recipe) as [|i l IHl]; [done|].
      rewrite filter_cons_True by apply not_elem_of_nil. by rewrite IHl. }
    assert (Beverage.isAvailable b = false) as Hav.
    { unfold Beverage.isAvailable. apply bool_decide_eq_false.
      rewrite Hall_missing. unfold PyDict.keys. rewrite length_fmap.
      intros Hlen%length_zero_iff_nil.
      by apply (Hnonempty bn recipe); [apply get_elem_of|]. }
    eexists. cbn [fmap list_fmap apply_ops apply_op].
    unfold Machine.make_beverage. rewrite Hb. cbn [mbind option_bind].
    rewrite Hav. cbn [negb mbind option_bind].
    fold (fmap (M:=list) OpMake choices). rewrite Hops. cbn [mbind option_bind].
    split; [reflexivity|]. cbn. constructor; [|done].
    exists bn, b, recipe. split_and!; [done..|].
    unfold Beverage.getName, Beverage.getUnavailableIngredients.
    by rewrite Hname, Hall_missing.
Qed.

(** An attempt leaves alone the ingredients its beverage does not name. *)
Lemma attempt_frame_only (m : Machine.t) (choice : nat) (bn : string)
    (b : Beverage.t) (m' : Machine.t) (evs : list Event) :
  NoDup (PyDict.keys (Beverage.ingredients b)) →
  Machine.beverages m !! choice = Some (bn, b) →
  Machine.make_beverage m choice = Some (m', evs) →
  ∀ i, i ∉ PyDict.keys (Beverage.ingredients b) →
    Machine.ingredients m' !! i = Machine.ingredients m !! i.
Proof.
  intros Hnd Hb Hmake.
  destruct (make_beverage_inv m choice bn b m' evs Hb Hmake)
    as [(_ & -> & _)|(_ & store' & evs1 & made & Hloop & -> & _)]; [done|].
  by destruct (make_loop_effects b _ _ _ _ _ Hnd Hloop) as (Hframe & _).
Qed.

(** The loop on two stores that agree on the ingredients it visits: the
    same events, the same flag, the same quantities of those ingredients. *)
Lemma make_loop_agree (b : Beverage.t) (keys : list string)
    (s1 s2 s1' : gmap string Ingredient.t) (evs : list Event) (made : bool) :
  NoDup keys →
  (∀ i, i ∈ keys → s2 !! i = s1 !! i) →
  Machine.make_loop b keys s1 = Some (s1', evs, made) →
  ∃ s2', Machine.make_loop b keys s2 = Some (s2', evs, made)
       ∧ (∀ i, i ∈ keys → s2' !! i = s1' !! i)
       ∧ (∀ i, i ∉ keys → s2' !! i = s2 !! i).
Proof.
  revert s1 s2 s1' evs made.
  induction keys as [|k keys IH]; intros s1 s2 s1' evs made Hnd Hagree.
  - cbn. intros [= <- <- <-]. exists s2. split_and!; [done| |done].
    by intros i ?%elem_of_nil.
  - apply NoDup_cons in Hnd as [Hk Hnd].
    cbn [Machine.make_loop]. rewrite (Hagree k) by left.
    destruct (s1 !! k) as [obj|] eqn:Hobj; [|done]. cbn [mbind option_bind].
    destruct (Beverage.getRequiredIngredientQuantity b k) as [q|]; [|done].
    cbn [mbind option_bind]. case_bool_decide as Hge.
    + set (obj' := Ingredient.setAvailableQuantity obj
                     (Ingredient.getAvailableQuantity obj - q)).
      destruct (Machine.make_loop b keys (<[k := obj']> s1))
        as [[[s1'' evs1] made1]|] eqn:Hrest; [|done].
      cbn [mbind option_bind]. intros [= <- <- <-].
      assert (∀ i, i ∈ keys → <[k := obj']> s2 !! i = <[k := obj']> s1 !! i)
        as Hagree'.
      { intros i Hi. rewrite !lookup_insert_ne by (by intros ->).
        apply Hagree. by right. }
      destruct (IH _ _ _ _ _ Hnd Hagree' Hrest) as (s2' & -> & Hin & Hout).
      destruct (make_loop_effects b _ _ _ _ _ Hnd Hrest) as (Hframe & _).
      eexists. split; [reflexivity|]. split.
      * intros i [->|Hi]%elem_of_cons; [|by apply Hin].
        by rewrite (Hout k Hk), (Hframe k Hk), !lookup_insert_eq.
      * intros i [Hne Hi]%not_elem_of_cons. rewrite (Hout i Hi).
        by rewrite lookup_insert_ne.
    + intros [= <- <- <-]. eexists. split; [reflexivity|]. split; [|done].
      intros i Hi. by apply Hagree.
Qed.

(** The same for [Machine.make_beverage]. *)
Lemma make_beverage_agree (m1 m2 m1' : Machine.t) (choice : nat) (bn : string)
    (b : Beverage.t) (evs : list Event) :
  NoDup (PyDict.keys (Beverage.ingredients b)) →
  Machine.beverages m1 !! choice = Some (bn, b) →
  Machine.beverages m2 = Machine.beverages m1 →
  Machine.num_outlets m2 = Machine.num_outlets m1 →
  (∀ i, i ∈ PyDict.keys (Beverage.ingredients b) →
     Machine.ingredients m2 !! i = Machine.ingredients m1 !! i) →
  Machine.make_beverage m1 choice = Some (m1', evs) →
  ∃ m2', Machine.make_beverage m2 choice = Some (m2', evs)
       ∧ Machine.beverages m2' = Machine.beverages m1
       ∧ Machine.num_outlets m2' = Machine.num_outlets m1
       ∧ (∀ i, i ∈ PyDict.keys (Beverage.ingredients b) →
            Machine.ingredients m2' !! i = Machine.ingredients m1' !! i)
       ∧ (∀ i, i ∉ PyDict.keys (Beverage.ingredients b) →
            Machine.ingredients m2' !! i = Machine.ingredients m2 !! i).
Proof.
  intros Hnd Hb Hbevs Houtlets Hagree.
  unfold Machine.make_beverage, Beverage.getIngredients.
  rewrite Hbevs, Hb. cbn [mbind option_bind].
  destruct (Beverage.isAvailable b); cbn [negb].
  - destruct (Machine.make_loop b _ (Machine.ingredients m1))
      as [[[s1' evs1] made]|] eqn:Hloop; [|done].
    cbn [mbind option_bind]. intros [= <- <-].
    destruct (make_loop_agree b _ _ (Machine.ingredients m2) _ _ _ Hnd Hagree Hloop)
      as (s2' & -> & Hin & Hout).
    cbn [mbind option_bind]. eexists. split; [reflexivity|]. by cbn.
  - intros [= <- <-]. exists m2. by split_and!.
Qed.

(** X10: two attempts on beverages that share no ingredient do not see each
    other: in either order each prints what it prints alone, and the machine
    is the same afterwards. *)
Theorem attempts_on_disjoint_beverages_commute (m : Machine.t)
    (c1 c2 : nat) (bn1 bn2 : string) (b1 b2 : Beverage.t) :
  wf m →
  Machine.beverages m !! c1 = Some (bn1, b1) →
  Machine.beverages m !! c2 = Some (bn2, b2) →
  (∀ i, i ∈ PyDict.keys (Beverage.ingredients b1) →
        i ∉ PyDict.keys (Beverage.ingredients b2)) →
  ∃ m1 m2 m' evs1 evs2,
    Machine.make_beverage m c1 = Some (m1, evs1)
    ∧ Machine.make_beverage m c2 = Some (m2, evs2)
    ∧ apply_ops m [OpMake c1; OpMake c2] = Some (m', evs1 ++ evs2)
    ∧ apply_ops m [OpMake c2; OpMake c1] = Some (m', evs2 ++ evs1).
Proof.
  intros Hwf Hb1 Hb2 Hdisj.
  assert ((bn1, b1) ∈ Machine.beverages m) as Hin1 by by eapply list_elem_of_lookup_2.
  assert ((bn2, b2) ∈ Machine.beverages m) as Hin2 by by eapply list_elem_of_lookup_2.
  pose proof (wf_nodup m Hwf _ _ Hin1) as Hnd1.
  pose proof (wf_nodup m Hwf _ _ Hin2) as Hnd2.
  destruct (make_beverage_total m c1 Hwf (lookup_lt_Some _ _ _ Hb1))
    as (? & ? & m1 & evs1 & ? & _ & Hm1 & _ & _ & Hs1 & _).
  destruct (make_beverage_total m c2 Hwf (lookup_lt_Some _ _ _ Hb2))
    as (? & ? & m2 & evs2 & ? & _ & Hm2 & _ & _ & Hs2 & _).
  pose proof (attempt_frame_only m c1 bn1 b1 m1 evs1 Hnd1 Hb1 Hm1) as Hf1.
  pose proof (attempt_frame_only m c2 bn2 b2 m2 evs2 Hnd2 Hb2 Hm2) as Hf2.
  (* the second attempt after the first, and the first after the second *)
  destruct (make_beverage_agree m m1 m2 c2 bn2 b2 evs2 Hnd2 Hb2
              (shape_beverages _ _ Hs1) (shape_outlets _ _ Hs1))
    as (m12 & Hm12 & Hb12 & Ho12 & Hin12 & Hout12); [|done|].
  { intros i Hi. apply Hf1. intros Hi1. by apply (Hdisj i Hi1). }
  destruct (make_beverage_agree m m2 m1 c1 bn1 b1 evs1 Hnd1 Hb1
              (shape_beverages _ _ Hs2) (shape_outlets _ _ Hs2))
    as (m21 & Hm21 & Hb21 & Ho21 & Hin21 & Hout21); [|done|].
  { intros i Hi. apply Hf2. by apply Hdisj. }
  assert (m21 = m12) as Heq.
  { destruct m12 as [o12 s12 bv12], m21 as [o21 s21 bv21]. cbn in *.
    f_equal; [congruence| |congruence]. apply map_eq. intros i.
    destruct (decide (i ∈ PyDict.keys (Beverage.ingredients b1))) as [Hi1|Hi1].
    - rewrite (Hin21 i Hi1), (Hout12 i (Hdisj i Hi1)). done.
    - rewrite (Hout21 i Hi1).
      destruct (decide (i ∈ PyDict.keys (Beverage.ingredients b2))) as [Hi2|Hi2].
      + by rewrite (Hin12 i Hi2).
      + by rewrite (Hout12 i Hi2), (Hf1 i Hi1), (Hf2 i Hi2). }
  exists m1, m2, m12, evs1, evs2. split_and!; [done..| |].
  - cbn [apply_ops apply_op]. rewrite Hm1. cbn [mbind option_bind].
    rewrite Hm12. cbn [mbind option_bind]. by rewrite app_nil_r.
  - cbn [apply_ops apply_op]. rewrite Hm2. cbn [mbind option_bind].
    rewrite Hm21. cbn [mbind option_bind]. by rewrite app_nil_r, Heq.
Qed.

(** ** Refills and the catalogue *)

(** X11: of two refills of one ingredient the second is the one that counts. *)
Theorem refill_last_wins (m : Machine.t) (ingredient_name : string) (q1 q2 : Z) :
  (Machine.refill (Machine.refill m ingredient_name q1).1 ingredient_name q2).1
  = (Machine.refill m ingredient_name q2).1.
Proof.
  unfold Machine.refill.
  destruct (Machine.ingredients m !! ingredient_name) as [obj|] eqn:Hobj; cbn.
  - rewrite lookup_insert_eq. cbn. by rewrite insert_insert_eq.
  - by rewrite Hobj.
Qed.

(** X12: refills of two different ingredients can be made in either order. *)
Theorem refill_commute (m : Machine.t) (n1 n2 : string) (q1 q2 : Z) :
  n1 ≠ n2 →
  (Machine.refill (Machine.refill m n1 q1).1 n2 q2).1
  = (Machine.refill (Machine.refill m n2 q2).1 n1 q1).1.
Proof.
  intros Hne. unfold Machine.refill.
  destruct (Machine.ingredients m !! n1) as [obj1|] eqn:Hobj1;
    destruct (Machine.ingredients m !! n2) as [obj2|] eqn:Hobj2; cbn;
    rewrite ?lookup_insert_ne, ?Hobj1, ?Hobj2 by done; cbn; [|done..].
  f_equal. by apply insert_insert_ne.
Qed.

(** X13: any sequence of attempts, refills and queries runs to its end without
    raising, and adds or removes no ingredient and changes no beverage: the
    names of the store, the outlet count and the beverages, with what each
    requires and what each lacks, are those of the machine it started
    from. *)
Theorem operations_keep_catalogue (m : Machine.t) (ops : list Op) :
  wf m →
  Forall (valid_op m) ops →
  ∃ m' evs,
    apply_ops m ops = Some (m', evs)
    ∧ Machine.beverages m' = Machine.beverages m
    ∧ Machine.num_outlets m' = Machine.num_outlets m
    ∧ dom (Machine.ingredients m') = dom (Machine.ingredients m)
    ∧ (∀ i obj', Machine.ingredients m' !! i = Some obj' → Ingredient.name obj' = i)
    ∧ wf m'.
Proof.
  intros Hwf Hvalid.
  destruct (apply_ops_total m ops Hwf Hvalid) as (m' & evs & Hops & Hs & _).
  exists m', evs.
  pose proof (same_shape_wf m m' Hwf Hs) as Hwf'.
  split_and!; [done|apply Hs|apply Hs| |apply Hwf'|done].
  apply set_eq. intros i. rewrite !elem_of_dom.
  pose proof (shape_names _ _ Hs i) as Hn.
  destruct (Machine.ingredients m' !! i), (Machine.ingredients m !! i);
    try done; split; by intros [? ?] || eauto.
Qed.

(** ** More on concurrent runs *)

Module ConcCatFacts.
Import Conc ConcInv ConcFacts ConcCat.

Lemma print_block_output w t s line s' w1 :
  print_block t w s line = Some (s', w1) →
  output w1 = output w ++ match s with Printing => [line] | _ => [] end.
Proof.
  destruct s; cbn; [destruct (print_lock w); [done|]|..]; intros [= <- <-];
    unfold output; cbn; by rewrite output_snoc.
Qed.

Lemma named_by_tail b i rest : named_by b (i :: rest) → named_by b rest.
Proof. intros H j Hj. apply H. by right. Qed.

Lemma named_by_head b i rest : named_by b (i :: rest) → named_by b [i].
Proof. intros H j ->%list_elem_of_singleton. apply H. left. Qed.

(** A statement keeps the attempt on a beverage of the catalogue, and what it
    prints, if anything, is a line of that beverage. *)
Lemma thread_step_cat t p w p' w1 :
  wf (machine w) →
  pc_cat (Machine.beverages (machine w)) p →
  thread_step t p w = Some (p', w1) →
  pc_cat (Machine.beverages (machine w)) p'
  ∧ (output w1 = output w
     ∨ ∃ line, output w1 = output w ++ [line]
             ∧ line_of (Machine.beverages (machine w)) line).
Proof.
  intros Hwf Hcat Hstep.
  destruct p as [choice|b s|b [|i rest]|b i rest|b i a rest|b i rest|b i s|b i|b s|];
    cbn in Hstep, Hcat.
  - destruct (Machine.beverages (machine w) !! choice) as [[bn b]|] eqn:Hb;
      [|done]. cbn in Hstep.
    assert (in_catalogue (Machine.beverages (machine w)) b) as Hin.
    { exists bn. by eapply list_elem_of_lookup_2. }
    destruct (Beverage.isAvailable b) eqn:Hav; injection Hstep as <- <-.
    + split; [|by left]. cbn. split; [done|]. by intros i Hi.
    + split; [|by left]. by cbn.
  - destruct Hcat as [Hin Hav].
    destruct (print_block t w s _) as [[s' w']|] eqn:Hpb; [|done].
    injection Hstep as <- <-. apply print_block_output in Hpb.
    split; [by destruct s'|]. destruct s; rewrite Hpb, ?app_nil_r; [by left| |by left].
    right. eexists. split; [done|]. exists b. split; [done|].
    by apply outcome_not_available.
  - injection Hstep as <- <-. split; [|by left]. by destruct Hcat.
  - destruct (locks w !! i); [done|]. injection Hstep as <- <-.
    split; [done|]. left. unfold output. cbn. by rewrite output_snoc, app_nil_r.
  - destruct (Machine.ingredients (machine w) !! i); [|done].
    injection Hstep as <- <-. split; [done | by left].
  - destruct Hcat as [Hin Hnamed].
    destruct (Beverage.getRequiredIngredientQuantity b i); [|done].
    cbn in Hstep. case_bool_decide.
    + destruct (Machine.ingredients (machine w) !! i); [|done].
      injection Hstep as <- <-. split; [done | by left].
    + injection Hstep as <- <-. split; [|by left]. cbn. split; [done|].
      by eapply named_by_head.
  - destruct Hcat as [Hin Hnamed]. injection Hstep as <- <-. split.
    + cbn. split; [done|]. by eapply named_by_tail.
    + left. unfold output. cbn. by rewrite output_snoc, app_nil_r.
  - destruct Hcat as [Hin Hnamed].
    destruct (Machine.ingredients (machine w) !! i) as [obj|] eqn:Hobj; [|done].
    cbn in Hstep.
    destruct (print_block t w s _) as [[s' w']|] eqn:Hpb; [|done].
    injection Hstep as <- <-. apply print_block_output in Hpb.
    split; [by destruct s'|]. destruct s; rewrite Hpb, ?app_nil_r; [by left| |by left].
    right. eexists. split; [done|]. exists b. split; [done|].
    apply (outcome_insufficient _ _ i); [apply Hnamed; left|].
    unfold Ingredient.getName. by rewrite (wf_name _ Hwf i obj Hobj).
  - injection Hstep as <- <-. split; [done|].
    left. unfold output. cbn. by rewrite output_snoc, app_nil_r.
  - destruct (print_block t w s _) as [[s' w']|] eqn:Hpb; [|done].
    injection Hstep as <- <-. apply print_block_output in Hpb.
    split; [by destruct s'|]. destruct s; rewrite Hpb, ?app_nil_r; [by left| |by left].
    right. eexists. split; [done|]. exists b. split; [done|].
    by apply outcome_prepared.
  - done.
Qed.

Lemma step_inv_cat w t w' : inv_cat w → step w t = Some w' → inv_cat w'.
Proof.
  intros [Hinv Hpc Hlines] Hstep.
  pose proof (step_inv w t w' Hinv Hstep) as Hinv'.
  apply step_Some in Hstep as (p & p' & w1 & Ht & Hstep & ->).
  destruct (thread_step_fuel _ _ _ _ _ Hstep) as [Hbevs _].
  destruct (thread_step_cat t p w p' w1 (inv_wf w Hinv) (Hpc t p Ht) Hstep)
    as [Hp' Hout].
  constructor; [done|..]; cbn; rewrite Hbevs.
  - rewrite (thread_step_threads _ _ _ _ _ Hstep).
    intros t0 q [[-> ->]|[Hne Hq]]%lookup_moved; [done|]. by eapply Hpc.
  - change (Forall (line_of (Machine.beverages (machine w))) (output w1)).
    destruct Hout as [->|(line & -> & Hline)]; [done|].
    apply Forall_app. split; [done|]. by constructor.
Qed.

Lemma exec_inv_cat w schedule : inv_cat w → inv_cat (exec w schedule).
Proof.
  revert w. induction schedule as [|t schedule IH]; intros w Hinv; [done|].
  cbn. apply IH. destruct (step w t) as [w'|] eqn:Hstep; [|done].
  by eapply step_inv_cat.
Qed.

Lemma init_world_inv_cat m rnd :
  wf m → (∀ index, (rnd index < length (Machine.beverages m))%nat) →
  inv_cat (init_world m rnd).
Proof.
  intros Hwf Hrnd. constructor; [by apply init_world_inv| |by constructor].
  intros t p. cbn. rewrite !list_lookup_fmap.
  destruct (seq _ _ !! t) as [c|]; [|done]. by intros [= <-].
Qed.

End ConcCatFacts.

(** X14: in every world of a concurrent run every line printed so far is one of
    the three lines of a beverage of the machine: the line of an unavailable
    beverage, of an ingredient it names that was insufficient, or of its
    preparation. *)
Theorem concurrent_lines_are_outcomes (m : Machine.t) (rnd : nat → nat)
    (schedule : list nat) :
  wf m →
  (∀ index, (rnd index < length (Machine.beverages m))%nat) →
  Forall (λ line, ∃ bn b, (bn, b) ∈ Machine.beverages m ∧ outcome b line)
    (Conc.output (Conc.exec (Conc.init_world m rnd) schedule)).
Proof.
  intros Hwf Hrnd.
  pose proof (ConcCatFacts.exec_inv_cat _ schedule
                (ConcCatFacts.init_world_inv_cat m rnd Hwf Hrnd)) as Hinv.
  pose proof (ConcCat.cat_lines _ Hinv) as Hlines.
  rewrite exec_beverages in Hlines. cbn in Hlines.
  eapply Forall_impl; [done|]. intros line (b & [bn Hin] & Hout). by exists bn, b.
Qed.

(** X15: in every world of a concurrent run at most one attempt is inside
    [print_lock], whether it is about to print or has just printed. *)
Theorem one_attempt_prints_at_a_time (m : Machine.t) (rnd : nat → nat)
    (schedule : list nat) :
  wf m →
  (∀ index, (rnd index < length (Machine.beverages m))%nat) →
  ∀ t t' p p',
    Conc.threads (Conc.exec (Conc.init_world m rnd) schedule) !! t = Some p →
    Conc.threads (Conc.exec (Conc.init_world m rnd) schedule) !! t' = Some p' →
    Conc.printing p = true → Conc.printing p' = true → t = t'.
Proof.
  intros Hwf Hrnd t t' p p' Ht Ht' Hp Hp'.
  pose proof (ConcFacts.exec_inv _ schedule
                (ConcFacts.init_world_inv m rnd Hwf Hrnd)) as Hinv.
  assert (Conc.print_lock (Conc.exec (Conc.init_world m rnd) schedule) = Some t)
    as H1 by (apply (ConcInv.inv_print _ Hinv); eauto).
  assert (Conc.print_lock (Conc.exec (Conc.init_world m rnd) schedule) = Some t')
    as H2 by (apply (ConcInv.inv_print _ Hinv); eauto).
  congruence.
Qed.

(** X16: when every attempt of a concurrent run has returned, no lock is held:
    neither an ingredient's nor the one for printing. *)
Theorem finished_run_holds_no_lock (m : Machine.t) (rnd : nat → nat)
    (schedule : list nat) :
  wf m →
  (∀ index, (rnd index < length (Machine.beverages m))%nat) →
  Conc.finished (Conc.exec (Conc.init_world m rnd) schedule) →
  Conc.locks (Conc.exec (Conc.init_world m rnd) schedule) = ∅
  ∧ Conc.print_lock (Conc.exec (Conc.init_world m rnd) schedule) = None.
Proof.
  intros Hwf Hrnd Hfin.
  pose proof (ConcFacts.exec_inv _ schedule
                (ConcFacts.init_world_inv m rnd Hwf Hrnd)) as Hinv.
  split.
  - apply map_empty. intros i.
    destruct (Conc.locks _ !! i) as [t|] eqn:Hl; [|done]. exfalso.
    apply (ConcInv.inv_locks _ Hinv) in Hl as (p & Hp & Hh).
    by rewrite (proj1 (Forall_lookup _ _) Hfin t p Hp) in Hh.
  - destruct (Conc.print_lock _) as [t|] eqn:Hl; [|done]. exfalso.
    apply (ConcInv.inv_print _ Hinv) in Hl as (p & Hp & Hh).
    by rewrite (proj1 (Forall_lookup _ _) Hfin t p Hp) in Hh.
Qed.

(** ** What a concurrent run has taken *)

Module ConcPaidFacts.
Import Conc ConcInv ConcFacts ConcCat ConcPaid.

Lemma used_app outs1 outs2 j : used (outs1 ++ outs2) j = used outs1 j + used outs2 j.
Proof.
  unfold used. induction outs1 as [|out outs1 IH]; cbn [app foldr]; [lia|].
  rewrite IH. lia.
Qed.

Lemma outs_snoc m rnd log t e :
  outs m rnd (log ++ [(t, e)])
  = outs m rnd log
    ++ match e with
       | Print line =>
           match beverage_of m rnd t with Some b => [(b, line)] | None => [] end
       | _ => []
       end.
Proof.
  unfold outs. rewrite omap_app. f_equal. cbn.
  destruct e; try done. by destruct (beverage_of m rnd t).
Qed.

Lemma spent_all_moved threads t p p' j :
  threads !! t = Some p →
  spent_all (<[t := p']> threads) j = spent_all threads j - spent p j + spent p' j.
Proof.
  unfold spent_all.
  revert t. induction threads as [|q threads IH]; intros [|t] Ht; try done.
  - injection Ht as ->.
    change (<[0%nat:=p']> (p :: threads)) with (p' :: threads).
    cbn [foldr]. lia.
  - change (<[S t:=p']> (q :: threads)) with (q :: <[t:=p']> threads).
    cbn [foldr]. rewrite (IH t Ht). lia.
Qed.

Lemma required_nonnegative m b j :
  recipes_nonnegative m → in_catalogue (Machine.beverages m) b → 0 ≤ required b j.
Proof.
  intros Hnn [bn Hin]. unfold required.
  destruct (Beverage.getRequiredIngredientQuantity b j) as [q|] eqn:Hq; [|done].
  cbn. eapply Hnn; [done|]. by apply get_elem_of.
Qed.

Lemma spent_nonnegative m p j :
  recipes_nonnegative m → pc_cat (Machine.beverages m) p → 0 ≤ spent p j.
Proof.
  intros Hnn Hcat.
  destruct p as [choice|b s|b rest|b i rest|b i a rest|b i rest|b i s|b i|b s|];
    cbn in *; try done;
    try (destruct Hcat as [Hin _]; case_decide; [done|];
         by eapply required_nonnegative).
  destruct s; try done; by eapply required_nonnegative.
Qed.

Lemma spent_all_nonnegative m threads j :
  recipes_nonnegative m →
  (∀ t p, threads !! t = Some p → pc_cat (Machine.beverages m) p) →
  0 ≤ spent_all threads j.
Proof.
  intros Hnn. induction threads as [|p threads IH]; intros Hcat; [done|].
  pose proof (spent_nonnegative m p j Hnn (Hcat 0%nat p eq_refl)).
  change (0 ≤ spent p j + spent_all threads j).
  assert (0 ≤ spent_all threads j); [|lia].
  apply IH. intros t q Hq. by apply (Hcat (S t)).
Qed.

Lemma print_block_log w t s line s' w1 :
  print_block t w s line = Some (s', w1) →
  machine w1 = machine w
  ∧ log w1 = log w ++ [(t, match s with
                           | Waiting => AcquirePrint
                           | Printing => Print line
                           | Printed => ReleasePrint
                           end)]
  ∧ s' = match s with
         | Waiting => Some Printing
         | Printing => Some Printed
         | Printed => None
         end.
Proof.
  destruct s; cbn; [destruct (print_lock w); [done|]|..]; by intros [= <- <-].
Qed.

(** One statement of an attempt: the lines it adds to the report, and what
    it takes. *)
Lemma thread_step_paid m rnd t p w p' w1 :
  inv_cat w →
  recipes_nonnegative (machine w) →
  Machine.beverages (machine w) = Machine.beverages m →
  threads w !! t = Some p →
  pc_paid m rnd t p →
  thread_step t p w = Some (p', w1) →
  pc_paid m rnd t p'
  ∧ ∃ new,
      outs m rnd (log w1) = outs m rnd (log w) ++ new
      ∧ output w1 = output w ++ new.*2
      ∧ ∀ j a, quantity (machine w) j = Some a →
          ∃ a', quantity (machine w1) j = Some a'
              ∧ a' + used new j + spent p' j ≤ a + spent p j.
Proof.
  intros [Hinv Hpc _] Hnn Hbevs Ht Hpaid Hstep.
  pose proof (Hpc t p Ht) as Hcat.
  assert (∀ (w0 : World) j a, machine w0 = machine w → log w0 = log w →
            ∀ p0, spent p0 j ≤ spent p j →
            quantity (machine w) j = Some a →
            ∃ a', quantity (machine w0) j = Some a'
                ∧ a' + used [] j + spent p0 j ≤ a + spent p j) as Hsame.
  { intros w0 j a -> _ p0 Hle Ha. exists a. split; [done|]. cbn. lia. }
  destruct p as [choice|b s|b [|i rest]|b i rest|b i a rest|b i rest|b i s|b i|b s|];
    cbn in Hstep, Hpaid, Hcat.
  - destruct (Machine.beverages (machine w) !! choice) as [[bn b]|] eqn:Hb;
      [|done]. cbn in Hstep.
    assert (beverage_of m rnd t = Some b) as Hof.
    { unfold beverage_of. by rewrite <-Hbevs, <-Hpaid, Hb. }
    assert (NoDup (PyDict.keys (Beverage.ingredients b))) as Hnd.
    { eapply (wf_nodup _ (inv_wf w Hinv)). by eapply list_elem_of_lookup_2. }
    destruct (Beverage.isAvailable b) eqn:Hav; injection Hstep as <- <-.
    + split; [done|]. exists []. rewrite !app_nil_r. split_and!; [done..|].
      intros j a Ha. exists a. split; [done|]. cbn.
      unfold Beverage.getIngredients. case_decide as Hj; [lia|].
      rewrite (required_not_named b j Hj). lia.
    + split; [done|]. exists []. rewrite !app_nil_r. split_and!; [done..|].
      intros j a Ha. exists a. split; [done|]. cbn. lia.
  - destruct (print_block t w s _) as [[s' w']|] eqn:Hpb; [|done].
    injection Hstep as <- <-.
    destruct (print_block_log _ _ _ _ _ _ Hpb) as (Hm & Hlog & ->).
    split; [by destruct s|].
    exists (match s with Printing => [(b, line_not_available b)] | _ => [] end).
    split_and!.
    + rewrite Hlog, outs_snoc. f_equal. destruct s; try done. by rewrite Hpaid.
    + unfold output. rewrite Hlog, output_snoc. f_equal. by destruct s.
    + intros j a Ha. exists a. rewrite Hm. split; [done|].
      destruct s; cbn; try lia.
      rewrite decide_False; [lia|]. cbn. intros H.
      by apply (line_prepared_not_not_available b).
  - injection Hstep as <- <-. split; [by destruct Hpaid|].
    exists []. rewrite !app_nil_r. split_and!; [done..|].
    intros j a Ha. exists a. split; [done|]. cbn.
    rewrite decide_False by apply not_elem_of_nil. lia.
  - destruct (locks w !! i); [done|]. injection Hstep as <- <-.
    split; [done|]. exists []. rewrite !app_nil_r. split_and!.
    + unfold release. cbn [log]. by rewrite outs_snoc, app_nil_r.
    + unfold output, release. cbn [log]. by rewrite output_snoc, app_nil_r.
    + intros j a Ha. exists a. split; [done|]. cbn. lia.
  - destruct (Machine.ingredients (machine w) !! i); [|done].
    injection Hstep as <- <-. split; [done|].
    exists []. rewrite !app_nil_r. split_and!; [done..|].
    intros j a0 Ha. exists a0. split; [done|]. cbn. lia.
  - destruct Hcat as [Hin Hnamed]. destruct Hpaid as [Hof Hnd].
    destruct (Beverage.getRequiredIngredientQuantity b i) as [q|] eqn:Hq; [|done].
    cbn in Hstep. case_bool_decide as Hle.
    + destruct (Machine.ingredients (machine w) !! i) as [obj|] eqn:Hobj; [|done].
      injection Hstep as <- <-. split; [done|].
      exists []. rewrite !app_nil_r. split_and!; [done..|].
      intros j aj Haj. cbn [machine spent used foldr].
      apply NoDup_cons in Hnd as [Hi Hnd].
      destruct (decide (j = i)) as [->|Hne].
      * pose proof (inv_checked w Hinv _ _ _ _ _ Ht) as Ha.
        assert (aj = a) as -> by congruence.
        exists (a - q). unfold quantity, set_store. cbn.
        rewrite lookup_insert_eq. split; [done|].
        rewrite decide_False by done. rewrite decide_True by left.
        unfold required. rewrite Hq. cbn. lia.
      * exists aj. unfold quantity, set_store in *. cbn.
        rewrite lookup_insert_ne by done. split; [done|].
        destruct (decide (j ∈ rest)) as [Hj|Hj].
        -- rewrite decide_True by by right. lia.
        -- rewrite decide_False; [lia|]. by intros [?|?]%elem_of_cons.
    + injection Hstep as <- <-. split; [done|].
      exists []. rewrite !app_nil_r. split_and!; [done..|].
      intros j aj Haj. exists aj. split; [done|]. cbn.
      case_decide; [lia|].
      pose proof (required_nonnegative _ b j Hnn Hin). lia.
  - injection Hstep as <- <-. destruct Hpaid as [Hof Hnd].
    apply NoDup_cons in Hnd as [Hi Hnd]. split; [done|].
    exists []. rewrite !app_nil_r. split_and!.
    + unfold release. cbn [log]. by rewrite outs_snoc, app_nil_r.
    + unfold output, release. cbn [log]. by rewrite output_snoc, app_nil_r.
    + intros j a Ha. exists a. split; [done|]. cbn. lia.
  - destruct (Machine.ingredients (machine w) !! i) as [obj|] eqn:Hobj; [|done].
    cbn in Hstep.
    destruct (print_block t w s _) as [[s' w']|] eqn:Hpb; [|done].
    injection Hstep as <- <-.
    destruct (print_block_log _ _ _ _ _ _ Hpb) as (Hm & Hlog & ->).
    split; [by destruct s|].
    exists (match s with
            | Printing => [(b, line_insufficient b (Ingredient.getName obj))]
            | _ => []
            end).
    split_and!.
    + rewrite Hlog, outs_snoc. f_equal. destruct s; try done. by rewrite Hpaid.
    + unfold output. rewrite Hlog, output_snoc. f_equal. by destruct s.
    + intros j a Ha. exists a. rewrite Hm. split; [done|].
      destruct s; cbn; try lia.
      rewrite decide_False; [lia|]. cbn. intros H.
      by apply (line_prepared_not_insufficient b (Ingredient.getName obj)).
  - injection Hstep as <- <-. split; [done|].
    exists []. rewrite !app_nil_r. split_and!.
    + unfold release. cbn [log]. by rewrite outs_snoc, app_nil_r.
    + unfold output, release. cbn [log]. by rewrite output_snoc, app_nil_r.
    + intros j a Ha. exists a. split; [done|]. cbn. lia.
  - destruct (print_block t w s _) as [[s' w']|] eqn:Hpb; [|done].
    injection Hstep as <- <-.
    destruct (print_block_log _ _ _ _ _ _ Hpb) as (Hm & Hlog & ->).
    split; [by destruct s|].
    exists (match s with Printing => [(b, line_prepared b)] | _ => [] end).
    split_and!.
    + rewrite Hlog, outs_snoc. f_equal. destruct s; try done. by rewrite Hpaid.
    + unfold output. rewrite Hlog, output_snoc. f_equal. by destruct s.
    + intros j a Ha. exists a. rewrite Hm. split; [done|].
      destruct s; cbn; try lia.
      rewrite decide_True by done. lia.
  - done.
Qed.

Lemma step_inv_paid m rnd w t w' :
  recipes_nonnegative m →
  inv_paid m rnd w → step w t = Some w' → inv_paid m rnd w'.
Proof.
  intros Hnn [Hcat Hbevs Hpc Hout Hq] Hstep.
  pose proof (ConcCatFacts.step_inv_cat w t w' Hcat Hstep) as Hcat'.
  apply step_Some in Hstep as (p & p' & w1 & Ht & Hstep & ->).
  destruct (thread_step_fuel _ _ _ _ _ Hstep) as [Hbevs1 _].
  assert (recipes_nonnegative (machine w)) as Hnnw.
  { intros bn b i q. rewrite Hbevs. apply Hnn. }
  destruct (thread_step_paid m rnd t p w p' w1 Hcat Hnnw Hbevs Ht (Hpc t p Ht) Hstep)
    as (Hp' & new & Houts & Houtput & Hquant).
  constructor; cbn [machine log threads].
  - done.
  - by rewrite Hbevs1.
  - rewrite (thread_step_threads _ _ _ _ _ Hstep).
    intros t0 q [[-> ->]|[Hne Hq0]]%lookup_moved; [done|]. by eapply Hpc.
  - change (output _) with (output w1). by rewrite Houts, Houtput, fmap_app, Hout.
  - intros j a0 Ha0. destruct (Hq j a0 Ha0) as (a & Ha & Hle).
    destruct (Hquant j a Ha) as (a' & Ha' & Hle'). exists a'. split; [done|].
    rewrite (thread_step_threads _ _ _ _ _ Hstep).
    rewrite (spent_all_moved _ _ p p' j Ht), Houts, used_app. lia.
Qed.

Lemma exec_inv_paid m rnd w schedule :
  recipes_nonnegative m → inv_paid m rnd w → inv_paid m rnd (exec w schedule).
Proof.
  intros Hnn. revert w. induction schedule as [|t schedule IH]; intros w Hinv; [done|].
  cbn. apply IH. destruct (step w t) as [w'|] eqn:Hstep; [|done].
  by eapply step_inv_paid.
Qed.

Lemma spent_all_Start choices j : spent_all (Start <$> choices) j = 0.
Proof.
  unfold spent_all. induction choices as [|c choices IH]; cbn; [done|].
  by rewrite IH.
Qed.

Lemma init_world_inv_paid m rnd :
  wf m → (∀ index, (rnd index < length (Machine.beverages m))%nat) →
  inv_paid m rnd (init_world m rnd).
Proof.
  intros Hwf Hrnd. constructor; [by apply ConcCatFacts.init_world_inv_cat|done| |done|].
  - intros t p. cbn. rewrite !list_lookup_fmap.
    destruct (seq _ _ !! t) as [c|] eqn:Hc; [|done]. intros [= <-]. cbn.
    apply lookup_seq in Hc as [-> _]. done.
  - intros j a0 Ha0. exists a0. split; [done|]. cbn [init_world log threads].
    rewrite spent_all_Start. cbn. lia.
Qed.
End ConcPaidFacts.

(** X17: in every world of a concurrent run, with recipes that require no
    negative quantity, each quantity is at most what it was when the run
    began less what the beverages reported as prepared so far require of it;
    the lines are those printed, each taken with the beverage of the attempt
    that printed it. *)
Theorem concurrent_prepared_beverages_are_paid_for (m : Machine.t)
    (rnd : nat → nat) (schedule : list nat) :
  wf m →
  (∀ index, (rnd index < length (Machine.beverages m))%nat) →
  recipes_nonnegative m →
  (ConcPaid.outs m rnd (Conc.log (Conc.exec (Conc.init_world m rnd) schedule))).*2
  = Conc.output (Conc.exec (Conc.init_world m rnd) schedule)
  ∧ ∀ i a, quantity m i = Some a →
      ∃ a', quantity (Conc.machine (Conc.exec (Conc.init_world m rnd) schedule)) i
            = Some a'
          ∧ a' ≤ a - used (ConcPaid.outs m rnd
                             (Conc.log (Conc.exec (Conc.init_world m rnd) schedule))) i.
Proof.
  intros Hwf Hrnd Hnn.
  destruct (ConcPaidFacts.exec_inv_paid m rnd _ schedule Hnn
              (ConcPaidFacts.init_world_inv_paid m rnd Hwf Hrnd))
    as [Hcat Hbevs _ Hout Hq].
  split; [done|]. intros i a Ha. destruct (Hq i a Ha) as (a' & Ha' & Hle).
  exists a'. split; [done|].
  assert (0 ≤ ConcPaid.spent_all
                (Conc.threads (Conc.exec (Conc.init_world m rnd) schedule)) i);
    [|lia].
  apply (ConcPaidFacts.spent_all_nonnegative
           (Conc.machine (Conc.exec (Conc.init_world m rnd) schedule))).
  - intros bn b j q. rewrite Hbevs. apply Hnn.
  - apply (ConcCat.cat_pc _ Hcat).
Qed.

(** ** Runs of a machine whose beverages are all unavailable *)

Module ConcUnavailableFacts.
Import Conc ConcInv ConcFacts ConcUnavailable.

Lemma print_block_locks w t s line s' w1 :
  print_block t w s line = Some (s', w1) → locks w1 = locks w.
Proof.
  destruct s; cbn; [destruct (print_lock w); [done|]|..]; by intros [= <- <-].
Qed.

Lemma step_inv_unavailable m w t w' :
  (∀ bn b, (bn, b) ∈ Machine.beverages m → Beverage.isAvailable b = false) →
  inv_unavailable m w → step w t = Some w' → inv_unavailable m w'.
Proof.
  intros Hun [Hm Hlocks Hpc Hout] (p & p' & w1 & Ht & Hstep & ->)%step_Some.
  pose proof (Hpc t p Ht) as Hp.
  pose proof (thread_step_threads _ _ _ _ _ Hstep) as Hths.
  assert (machine w1 = m ∧ locks w1 = ∅
          ∧ pc_unavailable (Machine.beverages m) p'
          ∧ Forall (reports_unavailable (Machine.beverages m)) (output w1))
    as (Hm1 & Hlocks1 & Hp' & Hout1).
  { destruct p as [choice|b s| | | | | | | |]; cbn in Hstep, Hp; try done.
    - rewrite Hm in Hstep.
      destruct (Machine.beverages m !! choice) as [[bn b]|] eqn:Hb; [|done].
      cbn in Hstep. apply list_elem_of_lookup_2 in Hb.
      rewrite (Hun bn b Hb) in Hstep. injection Hstep as <- <-.
      split_and!; [done..| |done]. by exists bn.
    - destruct (print_block t w s _) as [[s' w']|] eqn:Hpb; [|done].
      injection Hstep as <- <-.
      rewrite (print_block_machine _ _ _ _ _ _ Hpb),
        (print_block_locks _ _ _ _ _ _ Hpb).
      split_and!; [done..|by destruct s'|].
      rewrite (ConcCatFacts.print_block_output _ _ _ _ _ _ Hpb).
      apply Forall_app. split; [done|]. destruct s; [done| |done].
      constructor; [|done]. destruct Hp as [bn Hin]. by exists bn, b. }
  constructor; cbn [machine locks threads]; [done..| |done].
  rewrite Hths. intros t0 q [[-> ->]|[Hne Hq]]%lookup_moved; [done|].
  by eapply Hpc.
Qed.

Lemma exec_inv_unavailable m w schedule :
  (∀ bn b, (bn, b) ∈ Machine.beverages m → Beverage.isAvailable b = false) →
  inv_unavailable m w → inv_unavailable m (exec w schedule).
Proof.
  intros Hun. revert w.
  induction schedule as [|t schedule IH]; intros w Hinv; [done|].
  cbn. apply IH. destruct (step w t) as [w'|] eqn:Hstep; [|done].
  by eapply step_inv_unavailable.
Qed.

Lemma init_world_inv_unavailable m rnd : inv_unavailable m (init_world m rnd).
Proof.
  constructor; [done..| |by constructor].
  intros t p. cbn. rewrite !list_lookup_fmap.
  destruct (seq _ _ !! t) as [c|]; [|done]. by intros [= <-].
Qed.
End ConcUnavailableFacts.

(** X18: when every beverage of the machine lacks an ingredient, a concurrent
    run takes nothing and enters no ingredient's lock, however its attempts
    are interleaved: in every world the machine is as it was, no ingredient
    lock is held, and every line printed reports a beverage as
    unavailable. *)
Theorem unavailable_beverages_take_nothing (m : Machine.t) (rnd : nat → nat)
    (schedule : list nat) :
  (∀ bn b, (bn, b) ∈ Machine.beverages m → Beverage.isAvailable b = false) →
  Conc.machine (Conc.exec (Conc.init_world m rnd) schedule) = m
  ∧ Conc.locks (Conc.exec (Conc.init_world m rnd) schedule) = ∅
  ∧ Forall (λ line, ∃ bn b,
              (bn, b) ∈ Machine.beverages m ∧ line = line_not_available b)
      (Conc.output (Conc.exec (Conc.init_world m rnd) schedule)).
Proof.
  intros Hun.
  by destruct (ConcUnavailableFacts.exec_inv_unavailable m _ schedule Hun
                 (ConcUnavailableFacts.init_world_inv_unavailable m rnd)).
Qed.

(** X19: the attempts of a run executed one after the other, each to its end
    before the next begins, are one of the interleavings of the run: what
    successive calls of [make_beverage] leave and print is what that
    interleaving leaves and prints. *)
Theorem sequential_run_is_an_interleaving (m : Machine.t) (rnd : nat → nat)
    (m' : Machine.t) (evs : list Event) :
  run_sequential m rnd = Some (m', evs) →
  ∃ schedule,
    Conc.finished (Conc.exec (Conc.init_world m rnd) schedule)
    ∧ Conc.machine (Conc.exec (Conc.init_world m rnd) schedule) = m'
    ∧ Conc.output (Conc.exec (Conc.init_world m rnd) schedule) = printed evs.
Proof.
  intros Hrun.
  destruct (ConcFacts.sequential_schedule _ 0 m [] m' evs Hrun)
    as (schedule & log' & Hexec & Hlog).
  exists schedule. unfold Conc.init_world. cbn [replicate app] in Hexec.
  rewrite Hexec. split_and!; [|done..].
  unfold Conc.finished. cbn. by apply Forall_replicate.
Qed.

(** ** The properties above on the example machines *)

Lemma no_ingredient_machine_init :
  Machine.init no_ingredient_data = inr no_ingredient_machine.
Proof. vm_compute. reflexivity. Qed.

Lemma two_beverage_machine_init :
  Machine.init two_beverage_data = inr two_beverage_machine.
Proof. vm_compute. reflexivity. Qed.

Lemma two_beverage_machine_wf : wf two_beverage_machine.
Proof. exact (proj1 (Machine_init_inr _ _ two_beverage_machine_init)). Qed.

Lemma tea_machine_recipes_nonnegative : recipes_nonnegative tea_machine.
Proof.
  intros bn b i q Hin. apply list_elem_of_singleton in Hin as [= -> ->].
  intros Hq. repeat (apply elem_of_cons in Hq as [[= -> ->]|Hq]); [lia..|].
  by apply elem_of_nil in Hq.
Qed.

(** X1, on the green tea, built against a store that has only hot water. *)
Lemma Beverage_init_partition_witness :
  Beverage.init "green_tea"
    [("ginger_syrup", 30); ("hot_water", 100); ("green_mixture", 30)]
    (Machine.ingredients green_tea_machine)
  = inr (Beverage.mk "green_tea"
           (filter (λ kv, is_Some (Machine.ingredients green_tea_machine !! kv.1))
              [("ginger_syrup", 30); ("hot_water", 100); ("green_mixture", 30)])
           (filter (λ i, ¬ is_Some (Machine.ingredients green_tea_machine !! i))
              (PyDict.keys
                 [("ginger_syrup", 30); ("hot_water", 100);
                  ("green_mixture", 30)]))).
Proof. apply Beverage_init_partition. compute_done. Defined.

(** X2, on the black tea and the sweet milk. *)
Lemma getBeverages_dict_witness :
  ∃ bevs,
    Machine.getBeverages (Machine.ingredients two_beverage_machine)
      [("black_tea", [("hot_water", 60)]);
       ("sweet_milk", [("hot_milk", 30); ("sugar_syrup", 5)])]
    = inr bevs
    ∧ Forall2 (λ entry item,
                 entry.1 = item.1
                 ∧ Beverage.init item.1 item.2
                     (Machine.ingredients two_beverage_machine) = inr entry.2)
        bevs
        [("black_tea", [("hot_water", 60)]);
         ("sweet_milk", [("hot_milk", 30); ("sugar_syrup", 5)])].
Proof. apply getBeverages_dict. compute_done. Defined.

(** X4, on the milk of the tea machine. *)
Lemma availability_after_init_witness :
  Machine.getIngredientAvailability tea_machine "hot_milk"
  = match PyDict.get [("hot_water", 100); ("hot_milk", 50)] "hot_milk" with
    | Some quantity => (Some quantity, [])
    | None => (None, [Print "Ingredient not available in the machine"])
    end.
Proof.
  apply (availability_after_init tea_data tea_section).
  - reflexivity.
  - reflexivity.
  - exact tea_machine_init.
Defined.

(** X5, on the green tea, whose recipe names two ingredients the input lacks. *)
Lemma isAvailable_iff_witness :
  ∃ recipe,
    PyDict.get
      [("green_tea",
        [("ginger_syrup", 30); ("hot_water", 100); ("green_mixture", 30)])]
      "green_tea" = Some recipe
    ∧ (Beverage.isAvailable green_tea = true ↔
       ∀ i, i ∈ PyDict.keys recipe → i ∈ PyDict.keys [("hot_water", 500)]).
Proof.
  apply (isAvailable_iff green_tea_data green_tea_section [("hot_water", 500)] _
           green_tea_machine "green_tea" green_tea).
  - reflexivity.
  - reflexivity.
  - reflexivity.
  - exact green_tea_machine_init.
  - left.
Defined.

(** X6, on a tea on the tea machine, alone and as the first of two attempts
    interleaved. *)
Lemma prepared_iff_sufficient_witness :
  (∃ m' evs,
     Machine.make_beverage tea_machine 0 = Some (m', evs)
     ∧ (printed evs = [line_prepared tea] ↔
        Beverage.isAvailable tea = true
        ∧ ∀ i q a, (i, q) ∈ Beverage.ingredients tea →
            quantity tea_machine i = Some a → q ≤ a))
  ∧ (ConcInv.output_of
       (Conc.exec (Conc.init_world tea_machine (λ _, 0%nat)) tea_schedule) 0
     = [line_prepared tea] ↔
     Beverage.isAvailable tea = true
     ∧ ConcHist.checks_pass (Conc.init_world tea_machine (λ _, 0%nat))
         tea_schedule 0).
Proof.
  destruct (prepared_iff_sufficient tea_machine (λ _, 0%nat)) as [Halone Hrun].
  - exact tea_machine_wf.
  - intros _. cbn. lia.
  - split.
    + eexists _, _. split; [vm_compute; reflexivity|].
      eapply (Halone 0%nat "tea" tea).
      * reflexivity.
      * vm_compute. reflexivity.
    + apply (Hrun tea_schedule 0%nat "tea" tea).
      * reflexivity.
      * vm_compute. reflexivity.
Defined.

(** X7, on a tea on the machine with too little milk. *)
Lemma attempt_takes_at_most_required_witness :
  ∃ m' evs,
    Machine.make_beverage low_milk_machine 0 = Some (m', evs)
    ∧ (∀ i, i ∉ PyDict.keys (Beverage.ingredients tea) →
         Machine.ingredients m' !! i = Machine.ingredients low_milk_machine !! i)
    ∧ (∀ i a, quantity low_milk_machine i = Some a →
         quantity m' i = Some a
         ∨ (quantity m' i = Some (a - required tea i) ∧ required tea i ≤ a))
    ∧ (recipes_nonnegative low_milk_machine →
       ∀ i a, quantity low_milk_machine i = Some a →
         ∃ a', quantity m' i = Some a' ∧ a' ≤ a).
Proof.
  eexists _, _. split; [vm_compute; reflexivity|].
  eapply (attempt_takes_at_most_required low_milk_machine 0 "tea" tea).
  - exact low_milk_machine_wf.
  - reflexivity.
  - vm_compute. reflexivity.
Defined.

(** X8, on two attempts at a tea on the tea machine. *)
Lemma prepared_beverages_are_paid_for_witness :
  ∃ m' evs outs,
    apply_ops tea_machine (OpMake <$> [0; 0]%nat) = Some (m', evs)
    ∧ printed evs = outs.*2
    ∧ Forall2 (λ choice out,
                 ∃ bn, Machine.beverages tea_machine !! choice = Some (bn, out.1))
        [0; 0]%nat outs
    ∧ ∀ i a, quantity tea_machine i = Some a →
        ∃ a', quantity m' i = Some a' ∧ a' ≤ a - used outs i.
Proof.
  apply (prepared_beverages_are_paid_for tea_machine [0; 0]%nat).
  - exact tea_machine_wf.
  - exact tea_machine_recipes_nonnegative.
  - repeat (apply Forall_cons_2; [cbn; lia|]). apply Forall_nil_2.
Defined.

(** X9, on two attempts on the machine without ingredients. *)
Lemma empty_store_prepares_nothing_witness :
  ∃ evs,
    apply_ops no_ingredient_machine (OpMake <$> [0; 0]%nat)
    = Some (no_ingredient_machine, evs)
    ∧ Forall2 (λ choice line,
                 ∃ bn b recipe,
                   Machine.beverages no_ingredient_machine !! choice = Some (bn, b)
                   ∧ PyDict.get
                       [("hot_tea", [("hot_water", 200); ("tea_leaves_syrup", 30)])]
                       bn = Some recipe
                   ∧ line = bn +:+ " cannot be prepared because "
                            +:+ String.concat ", " (PyDict.keys recipe)
                            +:+ " not available")
        [0; 0]%nat (printed evs).
Proof.
  apply (empty_store_prepares_nothing no_ingredient_data no_ingredient_section).
  - reflexivity.
  - reflexivity.
  - reflexivity.
  - intros bn recipe Hin. apply list_elem_of_singleton in Hin as [= -> ->]. done.
  - exact no_ingredient_machine_init.
  - repeat (apply Forall_cons_2; [cbn; lia|]). apply Forall_nil_2.
Defined.

(** X10, on a black tea and a sweet milk, which share no ingredient. *)
Lemma attempts_on_disjoint_beverages_commute_witness :
  ∃ m1 m2 m' evs1 evs2,
    Machine.make_beverage two_beverage_machine 0 = Some (m1, evs1)
    ∧ Machine.make_beverage two_beverage_machine 1 = Some (m2, evs2)
    ∧ apply_ops two_beverage_machine [OpMake 0; OpMake 1] = Some (m', evs1 ++ evs2)
    ∧ apply_ops two_beverage_machine [OpMake 1; OpMake 0] = Some (m', evs2 ++ evs1).
Proof.
  apply (attempts_on_disjoint_beverages_commute two_beverage_machine 0 1
           "black_tea" "sweet_milk" black_tea sweet_milk).
  - exact two_beverage_machine_wf.
  - reflexivity.
  - reflexivity.
  - intros i ->%list_elem_of_singleton. compute_done.
Defined.

(** X12, on the water and the milk of the tea machine. *)
Lemma refill_commute_witness :
  (Machine.refill (Machine.refill tea_machine "hot_water" 7).1 "hot_milk" 9).1
  = (Machine.refill (Machine.refill tea_machine "hot_milk" 9).1 "hot_water" 7).1.
Proof. apply refill_commute. discriminate. Defined.

(** X13, on the tea machine: an attempt, a refill, a query and an attempt. *)
Lemma operations_keep_catalogue_witness :
  ∃ m' evs,
    apply_ops tea_machine
      [OpMake 0; OpRefill "hot_milk" 5; OpQuery "sugar"; OpMake 0] = Some (m', evs)
    ∧ Machine.beverages m' = Machine.beverages tea_machine
    ∧ Machine.num_outlets m' = Machine.num_outlets tea_machine
    ∧ dom (Machine.ingredients m') = dom (Machine.ingredients tea_machine)
    ∧ (∀ i obj', Machine.ingredients m' !! i = Some obj' → Ingredient.name obj' = i)
    ∧ wf m'.
Proof.
  apply (operations_keep_catalogue tea_machine
           [OpMake 0; OpRefill "hot_milk" 5; OpQuery "sugar"; OpMake 0]).
  - exact tea_machine_wf.
  - repeat (apply Forall_cons_2; [cbn; first [lia | exact I]|]). apply Forall_nil_2.
Defined.

(** X14, on the two attempts at a tea, the first to its end and then the
    second. *)
Lemma concurrent_lines_are_outcomes_witness :
  Forall (λ line, ∃ bn b, (bn, b) ∈ Machine.beverages tea_machine ∧ outcome b line)
    (Conc.output
       (Conc.exec (Conc.init_world tea_machine (λ _, 0%nat))
          (replicate 13 0 ++ replicate 12 1)%nat)).
Proof.
  apply (concurrent_lines_are_outcomes tea_machine (λ _, 0%nat)).
  - exact tea_machine_wf.
  - intros _. cbn. lia.
Defined.

(** X15, on the first attempt at a tea, stopped while it prints: no other
    attempt prints. *)
Lemma one_attempt_prints_at_a_time_witness :
  ∃ p,
    Conc.threads (Conc.exec (Conc.init_world tea_machine (λ _, 0%nat))
                    (replicate 11 0)%nat) !! 0%nat = Some p
    ∧ Conc.printing p = true
    ∧ ∀ t' p',
        Conc.threads (Conc.exec (Conc.init_world tea_machine (λ _, 0%nat))
                        (replicate 11 0)%nat) !! t' = Some p' →
        Conc.printing p' = true → 0%nat = t'.
Proof.
  eexists. split; [vm_compute; reflexivity|]. split; [reflexivity|].
  intros t' p' Ht' Hp'.
  eapply (one_attempt_prints_at_a_time tea_machine (λ _, 0%nat)
            (replicate 11 0)%nat).
  - exact tea_machine_wf.
  - intros _. cbn. lia.
  - vm_compute. reflexivity.
  - exact Ht'.
  - reflexivity.
  - exact Hp'.
Defined.

(** X16, on the two attempts at a tea, the first to its end and then the
    second. *)
Lemma finished_run_holds_no_lock_witness :
  Conc.locks (Conc.exec (Conc.init_world tea_machine (λ _, 0%nat))
                (replicate 13 0 ++ replicate 12 1)%nat) = ∅
  ∧ Conc.print_lock (Conc.exec (Conc.init_world tea_machine (λ _, 0%nat))
                       (replicate 13 0 ++ replicate 12 1)%nat) = None.
Proof.
  apply (finished_run_holds_no_lock tea_machine (λ _, 0%nat)).
  - exact tea_machine_wf.
  - intros _. cbn. lia.
  - vm_compute. repeat constructor.
Defined.

(** X19, on the two attempts at a tea. *)
Lemma sequential_run_is_an_interleaving_witness :
  ∃ m' evs,
    run_sequential tea_machine (λ _, 0%nat) = Some (m', evs)
    ∧ ∃ schedule,
        Conc.finished (Conc.exec (Conc.init_world tea_machine (λ _, 0%nat)) schedule)
        ∧ Conc.machine (Conc.exec (Conc.init_world tea_machine (λ _, 0%nat)) schedule)
          = m'
        ∧ Conc.output (Conc.exec (Conc.init_world tea_machine (λ _, 0%nat)) schedule)
          = printed evs.
Proof.
  eexists _, _. split; [vm_compute; reflexivity|].
  apply (sequential_run_is_an_interleaving tea_machine (λ _, 0%nat)).
  vm_compute. reflexivity.
Defined.

(** X17, on the two attempts at a tea, the first to its end and then the
    second: the water left is at most 100 less the 50 of the one tea
    prepared. *)
Lemma concurrent_prepared_beverages_are_paid_for_witness :
  (ConcPaid.outs tea_machine (λ _, 0%nat)
     (Conc.log (Conc.exec (Conc.init_world tea_machine (λ _, 0%nat))
                  (replicate 13 0 ++ replicate 12 1)%nat))).*2
  = Conc.output (Conc.exec (Conc.init_world tea_machine (λ _, 0%nat))
                   (replicate 13 0 ++ replicate 12 1)%nat)
  ∧ ∃ a',
      quantity
        (Conc.machine (Conc.exec (Conc.init_world tea_machine (λ _, 0%nat))
                         (replicate 13 0 ++ replicate 12 1)%nat)) "hot_water"
      = Some a'
      ∧ a' ≤ 100 - used (ConcPaid.outs tea_machine (λ _, 0%nat)
                           (Conc.log
                              (Conc.exec (Conc.init_world tea_machine (λ _, 0%nat))
                                 (replicate 13 0 ++ replicate 12 1)%nat)))
                      "hot_water".
Proof.
  destruct (concurrent_prepared_beverages_are_paid_for tea_machine (λ _, 0%nat)
              (replicate 13 0 ++ replicate 12 1)%nat) as [Hout Hq].
  - exact tea_machine_wf.
  - intros _. cbn. lia.
  - exact tea_machine_recipes_nonnegative.
  - split; [exact Hout|]. apply Hq. reflexivity.
Defined.

(** X18, on two attempts at the hot tea of the machine without ingredients,
    interleaved. *)
Lemma unavailable_beverages_take_nothing_witness :
  Conc.machine (Conc.exec (Conc.init_world no_ingredient_machine (λ _, 0%nat))
                  [0; 1; 0; 0; 1; 0; 1; 1]%nat)
  = no_ingredient_machine
  ∧ Conc.locks (Conc.exec (Conc.init_world no_ingredient_machine (λ _, 0%nat))
                  [0; 1; 0; 0; 1; 0; 1; 1]%nat) = ∅
  ∧ Forall (λ line, ∃ bn b,
              (bn, b) ∈ Machine.beverages no_ingredient_machine
              ∧ line = line_not_available b)
      (Conc.output (Conc.exec (Conc.init_world no_ingredient_machine (λ _, 0%nat))
                      [0; 1; 0; 0; 1; 0; 1; 1]%nat)).
Proof.
  apply (unavailable_beverages_take_nothing no_ingredient_machine (λ _, 0%nat)).
  intros bn b Hin. apply list_elem_of_singleton in Hin as [= -> ->]. reflexivity.
Defined.
